(** * A shallow embedding of the hybrid log-block flash translation layer

    The development follows [src/ssd_ftl.cpp]: the logical-page bitmap, the
    two offset tables, the comma-separated manifests of the log blocks, the
    erase counters, the over-provisioning pool, the garbage collector
    ([clean], [remap_data_block], [remap_log_block], [shuffle_data_log],
    [next_unmapped_log_block]) and [Ftl::translate].

    Conventions.
    - [unsigned long] and [size_t] are 64-bit, [unsigned int] and [int] are
      32-bit; values are integers of [Z] and every place where the C++
      arithmetic wraps is written with [u32], [u64] or [s32].
    - A [std::string] is a [list ascii].
    - Undefined behaviour (an index outside an array or the vector,
      dereferencing the [end()] iterator of the manifest map) is [None];
      a [while] loop that would not stop is [None] as well.
    - The events given to [ftl.controller.issue] are appended to the field
      [issued] of the state; the code discards the status the controller
      returns. *)

From stdpp Require Import base numbers list gmap strings pretty.
From Stdlib Require Import ZArith Ascii Lia.

Local Open Scope Z_scope.

(** ** Machine integers *)

Module Machine.

Definition u32 (x : Z) : Z := x mod 2 ^ 32.
Definition u64 (x : Z) : Z := x mod 2 ^ 64.
Definition s32 (x : Z) : Z := (x + 2 ^ 31) mod 2 ^ 32 - 2 ^ 31.

(** [sizeof (unsigned int)] *)
Definition sizeof_uint : Z := 4.

(** [std::string::npos] *)
Definition npos : Z := 2 ^ 64 - 1.

End Machine.
Export Machine.

(** Array subscripts: [a[i]] and [a[i] = v]. *)
Definition arr_get (a : list Z) (i : Z) : option Z :=
  if decide (0 ≤ i) then a !! Z.to_nat i else None.

Definition arr_set (a : list Z) (i v : Z) : option (list Z) :=
  if decide (0 ≤ i < Z.of_nat (length a)) then Some (<[Z.to_nat i := v]> a)
  else None.

(** ** [std::string] *)

Module Str.

Definition comma : ascii := ","%char.

(** [std::to_string((long long) x)] *)
Definition to_string (x : Z) : list ascii :=
  String.list_ascii_of_string (pretty x).

Fixpoint starts_with (needle s : list ascii) : bool :=
  match needle, s with
  | [], _ => true
  | _ :: _, [] => false
  | c :: needle', d :: s' => bool_decide (c = d) && starts_with needle' s'
  end.

(** Offset of the first match of [needle] in [s]. *)
Fixpoint find_first (needle s : list ascii) : option nat :=
  if starts_with needle s then Some 0%nat
  else match s with
       | [] => None
       | _ :: s' => S <$> find_first needle s'
       end.

(** Offset of the last match of [needle] in [s]. *)
Fixpoint find_last (needle s : list ascii) : option nat :=
  match s with
  | [] => if starts_with needle [] then Some 0%nat else None
  | _ :: s' =>
      match find_last needle s' with
      | Some i => Some (S i)
      | None => if starts_with needle s then Some 0%nat else None
      end
  end.

(** [s.find(needle, pos)] *)
Definition find (s needle : list ascii) (pos : Z) : Z :=
  if decide (0 ≤ pos ≤ Z.of_nat (length s)) then
    match find_first needle (drop (Z.to_nat pos) s) with
    | Some i => pos + Z.of_nat i
    | None => npos
    end
  else npos.

(** [s.rfind(needle)] *)
Definition rfind (s needle : list ascii) : Z :=
  match find_last needle s with
  | Some i => Z.of_nat i
  | None => npos
  end.

End Str.

(** ** The manifest of a log block ([fetch_log_page], [next_free_log_page]) *)

(** The loop of [fetch_log_page] that counts the commas before [loc]:
    [while (index != loc) { count++; index++; index = offsets.find(",", index); }] *)
Fixpoint fetch_count (fuel : nat) (offsets : list ascii) (loc index count : Z)
  : option Z :=
  if decide (index = loc) then Some count
  else match fuel with
       | O => None
       | S fuel' =>
           fetch_count fuel' offsets loc
             (Str.find offsets [Str.comma] (u64 (index + 1))) (u32 (count + 1))
       end.

(** [fetch_log_page(offsets, data_page, &log_page)]: [Some (Some k)] when it
    returns [true] with [*log_page = k], [Some None] when it returns [false]. *)
Definition fetch_log_page (offsets : list ascii) (data_page : Z)
  : option (option Z) :=
  if decide (offsets = []) then Some None
  else
    let loc :=
      Str.rfind offsets (Str.comma :: Str.to_string data_page ++ [Str.comma]) in
    if decide (loc = npos) then
      let loc := Str.find offsets (Str.to_string data_page ++ [Str.comma]) 0 in
      if decide (loc = 0) then Some (Some 0) else Some None
    else
      count ← fetch_count (S (length offsets)) offsets loc
                 (Str.find offsets [Str.comma] 0) 0;
      Some (Some (u32 (count + 1))).

(** The loop of [next_free_log_page]:
    [while (loc != npos) { count++; loc++; loc = offsets.find(",", loc); }] *)
Fixpoint count_commas (fuel : nat) (offsets : list ascii) (loc count : Z)
  : option Z :=
  if decide (loc = npos) then Some count
  else match fuel with
       | O => None
       | S fuel' =>
           count_commas fuel' offsets
             (Str.find offsets [Str.comma] (u64 (loc + 1))) (u32 (count + 1))
       end.

(** The manifest built by the appends [offsets + to_string(page) + ","]. *)
Definition manifest_of (pages : list Z) : list ascii :=
  concat ((λ p, Str.to_string p ++ [Str.comma]) <$> pages).

(** Index of the last occurrence of [d] in a sequence. *)
Fixpoint last_index (d : Z) (pages : list Z) : option Z :=
  match pages with
  | [] => None
  | p :: pages' =>
      match last_index d pages' with
      | Some k => Some (k + 1)
      | None => if decide (p = d) then Some 0 else None
      end
  end.

(** ** Geometry ([ssd.h] and the macros at the head of [ssd_ftl.cpp]) *)

(** The constants are declared [extern] in [ssd.h] and defined by the
    configuration. [OVERPROVISIONING] is a [float] percentage there, and the
    macros [OP_SIZE] and [USABLE_SIZE] are computed in [float]; here they are
    the integers these expressions denote when the percentage of the raw
    size is a whole number of pages ([geometry_ok] asks for that). *)
Record geometry := Geometry {
  SSD_SIZE : Z;
  PACKAGE_SIZE : Z;
  DIE_SIZE : Z;
  PLANE_SIZE : Z;
  BLOCK_SIZE : Z;
  BLOCK_ERASES : Z;
  OVERPROVISIONING : Z
}.

Definition RAW_SIZE (g : geometry) : Z :=
  u32 (SSD_SIZE g * PACKAGE_SIZE g * DIE_SIZE g * PLANE_SIZE g * BLOCK_SIZE g).
Definition NUM_OF_PHY_B (g : geometry) : Z := RAW_SIZE g / BLOCK_SIZE g.
Definition OP_SIZE (g : geometry) : Z := RAW_SIZE g * OVERPROVISIONING g / 100.
Definition NUM_OF_OP_B (g : geometry) : Z := OP_SIZE g / BLOCK_SIZE g.
Definition USABLE_SIZE (g : geometry) : Z := RAW_SIZE g - OP_SIZE g.
Definition NUM_OF_LGC_B (g : geometry) : Z := u32 (USABLE_SIZE g / BLOCK_SIZE g).

(** [emp_len] of [Ftl::init_ftl_user]. *)
Definition emp_len (g : geometry) : Z :=
  u32 ((USABLE_SIZE g + sizeof_uint - 1) / sizeof_uint).

(** ** Addresses and events ([ssd.h]) *)

Inductive event_type := READ | WRITE | ERASE | MERGE.
Inductive status := FAILURE | SUCCESS | PAGE_INVALID | BLOCK_INVALID | BLOCK_CORRUPT.
Inductive address_valid := NONE | PACKAGE | DIE | PLANE | BLOCK | PAGE.

Global Instance event_type_eq_dec : EqDecision event_type.
Proof. solve_decision. Defined.
Global Instance status_eq_dec : EqDecision status.
Proof. solve_decision. Defined.
Global Instance address_valid_eq_dec : EqDecision address_valid.
Proof. solve_decision. Defined.

Record Address := mkAddress {
  package : Z;
  die : Z;
  plane : Z;
  block : Z;
  page : Z;
  valid : address_valid
}.

Global Instance Address_eq_dec : EqDecision Address.
Proof. solve_decision. Defined.

(** A [double] is only copied by the translation layer; it is carried as
    the integer of its 64 bits. *)
Definition double : Type := Z.

(** The fields of [Event] that the translation layer reads or writes. *)
Record Event := mkEvent {
  ev_type : event_type;
  logical_address : Z;
  size : Z;
  ev_start_time : double;
  address : Address
}.

Global Instance Event_eq_dec : EqDecision Event.
Proof. solve_decision. Defined.

Definition set_address (e : Event) (a : Address) : Event :=
  mkEvent (ev_type e) (logical_address e) (size e) (ev_start_time e) a.

(** [Event(type, logical_address, size, start_time)]: the address is the
    one the default constructor of [Address] leaves. *)
Definition new_Event (t : event_type) (la sz : Z) (time : double) : Event :=
  mkEvent t la sz time (mkAddress 0 0 0 0 0 NONE).

(** ** The state of the translation layer (the globals of [ssd_ftl.cpp]) *)

Record ftl_state := mkState {
  logical_to_emptiness : list Z;
  erase_count : list Z;
  logical_to_physical : list Z;
  data_to_log : list Z;
  log_to_pages : gmap Z (list ascii);
  start_time : double;
  op_blocks : list Z;
  issued : list Event
}.

Definition with_emptiness (st : ftl_state) (v : list Z) : ftl_state :=
  mkState v (erase_count st) (logical_to_physical st) (data_to_log st)
    (log_to_pages st) (start_time st) (op_blocks st) (issued st).
Definition with_erase_count (st : ftl_state) (v : list Z) : ftl_state :=
  mkState (logical_to_emptiness st) v (logical_to_physical st) (data_to_log st)
    (log_to_pages st) (start_time st) (op_blocks st) (issued st).
Definition with_logical_to_physical (st : ftl_state) (v : list Z) : ftl_state :=
  mkState (logical_to_emptiness st) (erase_count st) v (data_to_log st)
    (log_to_pages st) (start_time st) (op_blocks st) (issued st).
Definition with_data_to_log (st : ftl_state) (v : list Z) : ftl_state :=
  mkState (logical_to_emptiness st) (erase_count st) (logical_to_physical st) v
    (log_to_pages st) (start_time st) (op_blocks st) (issued st).
Definition with_log_to_pages (st : ftl_state) (v : gmap Z (list ascii)) : ftl_state :=
  mkState (logical_to_emptiness st) (erase_count st) (logical_to_physical st)
    (data_to_log st) v (start_time st) (op_blocks st) (issued st).
Definition with_start_time (st : ftl_state) (v : double) : ftl_state :=
  mkState (logical_to_emptiness st) (erase_count st) (logical_to_physical st)
    (data_to_log st) (log_to_pages st) v (op_blocks st) (issued st).
Definition with_op_blocks (st : ftl_state) (v : list Z) : ftl_state :=
  mkState (logical_to_emptiness st) (erase_count st) (logical_to_physical st)
    (data_to_log st) (log_to_pages st) (start_time st) v (issued st).
Definition with_issued (st : ftl_state) (v : list Event) : ftl_state :=
  mkState (logical_to_emptiness st) (erase_count st) (logical_to_physical st)
    (data_to_log st) (log_to_pages st) (start_time st) (op_blocks st) v.

(** ** Computations on the state *)

Definition M (A : Type) : Type := ftl_state → option (A * ftl_state).

Global Instance M_ret : MRet M := λ A a st, Some (a, st).
Global Instance M_bind : MBind M := λ A B f m st,
  match m st with
  | Some (a, st') => f a st'
  | None => None
  end.

(** A computation that only reads the state. *)
Definition reads {A} (f : ftl_state → option A) : M A :=
  λ st, a ← f st; Some (a, st).
(** A computation that only updates the state. *)
Definition writes (f : ftl_state → option ftl_state) : M unit :=
  λ st, st' ← f st; Some ((), st').

(** [for (i ...) body(i)] over the listed values of [i]. *)
Fixpoint for_each (body : Z → M unit) (ixs : list Z) : M unit :=
  match ixs with
  | [] => mret ()
  | i :: ixs' => body i ≫= λ _, for_each body ixs'
  end.

(** A read-only loop that threads an accumulator. *)
Fixpoint for_fold {A} (body : Z → A → option A) (ixs : list Z) (acc : A)
  : option A :=
  match ixs with
  | [] => Some acc
  | i :: ixs' => body i acc ≫= for_fold body ixs'
  end.

(** [ftl.controller.issue(event)] *)
Definition issue (e : Event) : M unit :=
  λ st, Some ((), with_issued st (issued st ++ [e])).

(** ** The translation layer *)

Section Ftl.

Context (g : geometry).

Local Abbreviation BS := (BLOCK_SIZE g).

(** *** The logical-page bitmap *)

Definition check_page_empty (st : ftl_state) (lba : Z) : option bool :=
  flag ← arr_get (logical_to_emptiness st) (lba / sizeof_uint);
  Some (bool_decide (Z.land (Z.shiftr flag (lba mod sizeof_uint)) 1 = 0)).

Definition set_page_written (st : ftl_state) (lba : Z) : option ftl_state :=
  flag ← arr_get (logical_to_emptiness st) (lba / sizeof_uint);
  v ← arr_set (logical_to_emptiness st) (lba / sizeof_uint)
        (Z.lor flag (Z.shiftl 1 (lba mod sizeof_uint)));
  Some (with_emptiness st v).

(** *** The offset tables *)

Definition check_physical_address (st : ftl_state) (logical_address : Z)
  : option Z :=
  let page := logical_address mod BS in
  let nth_logical_block := s32 (logical_address / BS) in
  offset ← arr_get (logical_to_physical st) nth_logical_block;
  let nth_physical_block := s32 (nth_logical_block + offset) in
  Some (u64 (page + u64 nth_physical_block * BS)).

Definition set_physical_address (st : ftl_state)
    (logical_address physical_address : Z) : option ftl_state :=
  let nth_logical_block := s32 (logical_address / BS) in
  let nth_physical_block := s32 (physical_address / BS) in
  v ← arr_set (logical_to_physical st) nth_logical_block
        (s32 (nth_physical_block - nth_logical_block));
  Some (with_logical_to_physical st v).

(** [Some (Some log_address)] for [true], [Some None] for [false]. *)
Definition check_log_block (st : ftl_state) (data_address : Z)
  : option (option Z) :=
  let page := data_address mod BS in
  let nth_data_block := s32 (data_address / BS) in
  offset ← arr_get (data_to_log st) nth_data_block;
  if decide (offset = 0) then Some None
  else
    let nth_log_block := s32 (nth_data_block + offset) in
    Some (Some (u64 (page + u64 nth_log_block * BS))).

Definition set_log_block (st : ftl_state) (data_address log_address : Z)
  : option ftl_state :=
  let nth_data_block := s32 (data_address / BS) in
  let nth_log_block := s32 (log_address / BS) in
  v ← arr_set (data_to_log st) nth_data_block
        (s32 (nth_log_block - nth_data_block));
  Some (with_data_to_log st v).

Definition cancel_log_block (st : ftl_state) (data_address : Z)
  : option ftl_state :=
  r ← check_log_block st data_address;
  let st1 :=
    match r with
    | Some log_address =>
        with_log_to_pages st (delete log_address (log_to_pages st))
    | None => st
    end in
  set_log_block st1 data_address data_address.

(** *** Free pages of a log block *)

(** [Some k] for [true] with [*page = k], [None] for [false]; the outer
    option is the termination of the loop. *)
Definition next_free_log_page (offsets : list ascii) : option (option Z) :=
  count ← count_commas (S (length offsets)) offsets
             (Str.find offsets [Str.comma] 0) 0;
  if decide (BS ≤ count) then Some None else Some (Some count).

(** *** Erase counters *)

Definition over_erase_limit (st : ftl_state) (physical_address : Z)
  : option bool :=
  c ← arr_get (erase_count st) (physical_address / BS);
  Some (bool_decide (BLOCK_ERASES g ≤ c)).

Definition update_erase_count (st : ftl_state) (physical_address : Z)
  : option ftl_state :=
  c ← arr_get (erase_count st) (physical_address / BS);
  v ← arr_set (erase_count st) (physical_address / BS) (u32 (c + 1));
  Some (with_erase_count st v).

(** *** Empty data blocks *)

(** The inner loop of the two searches:
    [for (j ...) if (!check_page_empty(i * BLOCK_SIZE + j)) { non_empty = true; break; }] *)
Fixpoint scan_non_empty (st : ftl_state) (i : Z) (js : list Z) : option bool :=
  match js with
  | [] => Some false
  | j :: js' =>
      e ← check_page_empty st (u32 (i * BS + j));
      if e : bool then scan_non_empty st i js' else Some true
  end.

Definition block_non_empty (st : ftl_state) (i : Z) : option bool :=
  scan_non_empty st i (seqZ 0 BS).

(** The accumulator is [(min_count, *empty_data_address)]. *)
Definition find_cleaning_step (st : ftl_state) (i : Z) (acc : Z * Z)
  : option (Z * Z) :=
  data_address ← check_physical_address st (u32 (i * BS));
  non_empty ← block_non_empty st i;
  count ← arr_get (erase_count st) (data_address / BS);
  if negb non_empty && bool_decide (count < acc.1)
     && bool_decide (count < BLOCK_ERASES g)
  then Some (count, data_address)
  else Some acc.

(** [find_empty_data_block_for_cleaning(&a)], with [a0] the value the
    caller's variable holds before the call: the result is the returned
    [bool] and the final value of the variable. *)
Definition find_empty_data_block_for_cleaning (st : ftl_state) (a0 : Z)
  : option (bool * Z) :=
  acc ← for_fold (find_cleaning_step st) (seqZ 0 (NUM_OF_LGC_B g))
          (u32 (BLOCK_ERASES g + 1), a0);
  Some (bool_decide (acc.1 ≠ u32 (BLOCK_ERASES g + 1)), acc.2).

(** The accumulator is
    [(min_count, *empty_data_address, *empty_logical_block)]. *)
Definition find_remapping_step (st : ftl_state) (i : Z) (acc : Z * Z * Z)
  : option (Z * Z * Z) :=
  data_address ← check_physical_address st (u32 (i * BS));
  non_empty ← block_non_empty st i;
  count ← arr_get (erase_count st) (data_address / BS);
  if negb non_empty && bool_decide (count < acc.1.1)
     && bool_decide (count < BLOCK_ERASES g)
  then Some (count, data_address, u32 (i * BS))
  else Some acc.

Definition find_empty_data_block_for_remapping (st : ftl_state) (a0 l0 : Z)
  : option (bool * Z * Z) :=
  acc ← for_fold (find_remapping_step st) (seqZ 0 (NUM_OF_LGC_B g))
          (u32 (BLOCK_ERASES g + 1), a0, l0);
  Some (bool_decide (acc.1.1 ≠ u32 (BLOCK_ERASES g + 1)), acc.1.2, acc.2).

(** *** Physical addresses *)

(** [map_physical_to_SSD(phy, &package, &die, &plane, &block, &page)] *)
Definition map_physical_to_SSD (phy : Z) : Z * Z * Z * Z * Z :=
  (phy / BS / PLANE_SIZE g / DIE_SIZE g / PACKAGE_SIZE g mod SSD_SIZE g,
   phy / BS / PLANE_SIZE g / DIE_SIZE g mod PACKAGE_SIZE g,
   phy / BS / PLANE_SIZE g mod DIE_SIZE g,
   phy / BS mod PLANE_SIZE g,
   phy mod BS).

(** [map_physical_to_SSD(pba, ...)] followed by
    [Address(package, die, plane, block, i, PAGE)]. *)
Definition page_of (pba i : Z) : Address :=
  let '(package, die, plane, block, _) := map_physical_to_SSD pba in
  mkAddress package die plane block i PAGE.

(** [map_physical_to_SSD(pba, ...)] followed by
    [Address(package, die, plane, block, 0, BLOCK)]. *)
Definition block_of (pba : Z) : Address :=
  let '(package, die, plane, block, _) := map_physical_to_SSD pba in
  mkAddress package die plane block 0 BLOCK.

(** An event is built, given its address and issued. *)
Definition issue_at (t : event_type) (la : Z) (a : Address) : M unit :=
  λ st, issue (set_address (new_Event t la 1 (start_time st)) a) st.

(** *** [Garbage_collector::clean] *)

(** The manifest iterator [log_pages] is dereferenced only for a written
    page. *)
Definition clean_copy_out (logical_block data_pba log_pba cln_pba : Z)
    (log_pages : option (list ascii)) (i : Z) : M unit :=
  e ← reads (λ st, check_page_empty st (u64 (logical_block + i)));
  if e : bool then mret ()
  else
    offsets ← reads (λ _, log_pages);
    r ← reads (λ _, fetch_log_page offsets i);
    let src_addr :=
      match r with
      | Some log_page => page_of log_pba log_page
      | None => page_of data_pba i
      end in
    issue_at READ (u64 (logical_block + i)) src_addr ≫= λ _,
    issue_at WRITE (u64 (logical_block + i)) (page_of cln_pba i).

Definition clean_copy_back (logical_block data_pba cln_pba : Z) (i : Z)
  : M unit :=
  e ← reads (λ st, check_page_empty st (u64 (logical_block + i)));
  if e : bool then mret ()
  else
    issue_at READ (u64 (logical_block + i)) (page_of cln_pba i) ≫= λ _,
    issue_at WRITE (u64 (logical_block + i)) (page_of data_pba i).

Definition clean (logical_block data_pba log_pba : Z) : M bool :=
  let log_addr := block_of log_pba in
  let data_addr := block_of data_pba in
  found ← reads (λ st, find_empty_data_block_for_cleaning st 0);
  if negb found.1 then mret false
  else
    let cln_pba := found.2 in
    let cln_addr := block_of cln_pba in
    log_pages ← reads (λ st, Some (log_to_pages st !! log_pba));
    for_each (clean_copy_out logical_block data_pba log_pba cln_pba log_pages)
      (seqZ 0 BS) ≫= λ _,
    issue_at ERASE logical_block data_addr ≫= λ _,
    issue_at ERASE logical_block log_addr ≫= λ _,
    for_each (clean_copy_back logical_block data_pba cln_pba) (seqZ 0 BS) ≫= λ _,
    issue_at ERASE logical_block cln_addr ≫= λ _,
    writes (λ st, update_erase_count st data_pba) ≫= λ _,
    writes (λ st, update_erase_count st log_pba) ≫= λ _,
    writes (λ st, update_erase_count st cln_pba) ≫= λ _,
    mret true.

(** *** [Garbage_collector::shuffle_data_log] *)

(** First loop; the accumulator is
    [(max_count, max_erase_log, max_erase_data)]. *)
Definition shuffle_pair_step (st : ftl_state) (i : Z) (acc : Z * Z * Z)
  : option (Z * Z * Z) :=
  let data_address := u32 (i * BS) in
  r ← check_log_block st data_address;
  match r with
  | None => Some acc
  | Some log_address =>
      log_count ← arr_get (erase_count st) (log_address / BS);
      data_count ← arr_get (erase_count st) (data_address / BS);
      if bool_decide (log_count ≠ BLOCK_ERASES g)
         && bool_decide (data_count ≠ BLOCK_ERASES g)
         && bool_decide (acc.1.1 ≤ u32 (log_count + data_count))
      then Some (u32 (log_count + data_count), log_address, data_address)
      else Some acc
  end.

(** The search [for (i ...) if (check_physical_address(i * BLOCK_SIZE) == target)
    { logical_block = i * BLOCK_SIZE; break; }], from [logical_block = l0]. *)
Fixpoint find_logical_block (st : ftl_state) (target l0 : Z) (ixs : list Z)
  : option Z :=
  match ixs with
  | [] => Some l0
  | i :: ixs' =>
      to_match ← check_physical_address st (u32 (i * BS));
      if decide (to_match = target) then Some (u32 (i * BS))
      else find_logical_block st target l0 ixs'
  end.

(** Third loop; the accumulator is [(min_count, min_erase_data)]. *)
Definition shuffle_min_step (st : ftl_state) (i : Z) (acc : Z * Z)
  : option (Z * Z) :=
  data_address ← check_physical_address st (u32 (i * BS));
  r ← check_log_block st data_address;
  match r with
  | Some _ => Some acc
  | None =>
      count ← arr_get (erase_count st) (data_address / BS);
      if decide (count < acc.1) then Some (count, data_address) else Some acc
  end.

Definition shuffle_move (logical_block min_erase_data max_erase_log : Z) (i : Z)
  : M unit :=
  e ← reads (λ st, check_page_empty st (u64 (logical_block + i)));
  if e : bool then mret ()
  else
    issue_at READ (u64 (logical_block + i)) (page_of min_erase_data i) ≫= λ _,
    issue_at WRITE (u64 (logical_block + i)) (page_of max_erase_log i).

Definition push_back (x : Z) : M unit :=
  λ st, Some ((), with_op_blocks st (op_blocks st ++ [x])).

Definition shuffle_data_log : M bool :=
  maxp ← reads (λ st, for_fold (shuffle_pair_step st) (seqZ 0 (NUM_OF_PHY_B g))
                        (0, RAW_SIZE g, RAW_SIZE g));
  let max_erase_log := maxp.1.2 in
  let max_erase_data := maxp.2 in
  if bool_decide (max_erase_data = RAW_SIZE g)
     || bool_decide (max_erase_log = RAW_SIZE g) then mret false
  else
    logical_block ← reads (λ st, find_logical_block st max_erase_data
                                   (RAW_SIZE g) (seqZ 0 (NUM_OF_LGC_B g)));
    if bool_decide (logical_block = RAW_SIZE g) then mret false
    else
      minp ← reads (λ st, for_fold (shuffle_min_step st)
                            (seqZ 0 (NUM_OF_LGC_B g))
                            (u32 (BLOCK_ERASES g + 1), RAW_SIZE g));
      let min_count := minp.1 in
      let min_erase_data := minp.2 in
      if bool_decide (min_erase_data = RAW_SIZE g) then mret false
      else if bool_decide (u32 (BLOCK_ERASES g - 1) ≤ min_count) then mret false
      else
        cleaned ← clean logical_block max_erase_data max_erase_log;
        if negb cleaned then mret false
        else
          writes (λ st, cancel_log_block st max_erase_data) ≫= λ _,
          logical_block ← reads (λ st, find_logical_block st min_erase_data
                                         (RAW_SIZE g) (seqZ 0 (NUM_OF_LGC_B g)));
          if bool_decide (logical_block = RAW_SIZE g) then mret false
          else
            for_each (shuffle_move logical_block min_erase_data max_erase_log)
              (seqZ 0 BS) ≫= λ _,
            issue_at ERASE logical_block (block_of min_erase_data) ≫= λ _,
            writes (λ st, set_physical_address st logical_block max_erase_log) ≫= λ _,
            push_back min_erase_data ≫= λ _,
            mret true.

(** *** [Garbage_collector::next_unmapped_log_block] *)

(** [op_blocks.pop_back()] *)
Definition pop_back (l : list Z) : list Z := take (length l - 1) l.

(** The loop
    [while (i < op_blocks.size()) { *log_address = op_blocks[op_blocks.size() - 1 - i];
       op_blocks.pop_back(); if (!over_erase_limit( *log_address)) return true; i++; }]
    The vector loses an element at each turn, so its initial size bounds
    the number of turns. *)
Fixpoint next_unmapped_loop (fuel : nat) (i : Z) : M (option Z) :=
  λ st,
  if decide (i < Z.of_nat (length (op_blocks st))) then
    log_address ←
      arr_get (op_blocks st) (Z.of_nat (length (op_blocks st)) - 1 - i);
    let st' := with_op_blocks st (pop_back (op_blocks st)) in
    over ← over_erase_limit st' log_address;
    if over : bool then
      match fuel with
      | O => None
      | S fuel' => next_unmapped_loop fuel' (u32 (i + 1)) st'
      end
    else Some (Some log_address, st')
  else Some (None, st).

(** [Some log_address] for [true]; the other output parameters are the
    components of [map_physical_to_SSD( *log_address)]. *)
Definition next_unmapped_log_block : M (option Z) :=
  empty ← reads (λ st, Some (bool_decide (op_blocks st = [])));
  shuffled ← (if empty : bool then shuffle_data_log else mret true);
  if negb shuffled then mret None
  else λ st, next_unmapped_loop (length (op_blocks st)) 0 st.

(** *** [Garbage_collector::remap_data_block] *)

Definition remap_data_move (logical_block old_data_pba new_data_pba : Z)
    (log_pages : option (list ascii)) (i : Z) : M unit :=
  e ← reads (λ st, check_page_empty st (u64 (logical_block + i)));
  if e : bool then mret ()
  else
    offsets ← reads (λ _, log_pages);
    r ← reads (λ _, fetch_log_page offsets i);
    match r with
    | Some _ => mret ()
    | None =>
        issue_at READ (u64 (logical_block + i)) (page_of old_data_pba i) ≫= λ _,
        issue_at WRITE (u64 (logical_block + i)) (page_of new_data_pba i)
    end.

Definition remap_data_block (logical_block old_data_pba log_pba : Z) : M Z :=
  found ← reads (λ st, find_empty_data_block_for_remapping st 0 (RAW_SIZE g));
  let new_logical_block := found.2 in
  target ← (if found.1.1 : bool then mret (Some found.1.2)
            else next_unmapped_log_block);
  match target with
  | None => mret log_pba
  | Some new_data_pba =>
      log_pages ← reads (λ st, Some (log_to_pages st !! log_pba));
      for_each (remap_data_move logical_block old_data_pba new_data_pba log_pages)
        (seqZ 0 BS) ≫= λ _,
      (if bool_decide (new_logical_block ≠ RAW_SIZE g)
       then writes (λ st, set_physical_address st new_logical_block old_data_pba)
       else mret ()) ≫= λ _,
      writes (λ st, set_physical_address st logical_block new_data_pba) ≫= λ _,
      writes (λ st, set_log_block st old_data_pba old_data_pba) ≫= λ _,
      writes (λ st, set_log_block st new_data_pba log_pba) ≫= λ _,
      mret new_data_pba
  end.

(** *** [Garbage_collector::remap_log_block] *)

(** A loop that threads an accumulator and updates the state. *)
Fixpoint for_foldM {A} (body : Z → A → M A) (ixs : list Z) (acc : A) : M A :=
  match ixs with
  | [] => mret acc
  | i :: ixs' => body i acc ≫= for_foldM body ixs'
  end.

(** The accumulator is [(j, offsets)]. *)
Definition remap_log_move (logical_block old_log_pba new_log_pba : Z)
    (log_pages : option (list ascii)) (i : Z) (acc : Z * list ascii)
  : M (Z * list ascii) :=
  e ← reads (λ st, check_page_empty st (u64 (logical_block + i)));
  if e : bool then mret acc
  else
    offsets ← reads (λ _, log_pages);
    r ← reads (λ _, fetch_log_page offsets i);
    match r with
    | None => mret acc
    | Some log_page =>
        issue_at READ (u64 (logical_block + i)) (page_of old_log_pba log_page) ≫= λ _,
        issue_at WRITE (u64 (logical_block + i)) (page_of new_log_pba (u32 acc.1)) ≫= λ _,
        mret (s32 (acc.1 + 1), acc.2 ++ Str.to_string i ++ [Str.comma])
    end.

Definition set_manifest (log_address : Z) (offsets : list ascii) : M unit :=
  λ st, Some ((), with_log_to_pages st (<[log_address := offsets]> (log_to_pages st))).

Definition remap_log_block (logical_block data_pba old_log_pba : Z) : M Z :=
  target ← next_unmapped_log_block;
  match target with
  | None => mret data_pba
  | Some new_log_pba =>
      log_pages ← reads (λ st, Some (log_to_pages st !! old_log_pba));
      moved ← for_foldM
                 (remap_log_move logical_block old_log_pba new_log_pba log_pages)
                 (seqZ 0 BS) (0, []);
      writes (λ st, cancel_log_block st data_pba) ≫= λ _,
      writes (λ st, set_log_block st data_pba new_log_pba) ≫= λ _,
      set_manifest new_log_pba moved.2 ≫= λ _,
      mret new_log_pba
  end.

(** *** [Ftl::init_ftl_user] *)

(** The zero-filled tables and the pool filled by
    [for (i = USABLE_SIZE; i < RAW_SIZE; i += BLOCK_SIZE) op_blocks.push_back(i)]. *)
Definition init_ftl_user : ftl_state :=
  mkState
    (replicate (Z.to_nat (emp_len g)) 0)
    (replicate (Z.to_nat (NUM_OF_PHY_B g)) 0)
    (replicate (Z.to_nat (NUM_OF_LGC_B g)) 0)
    (replicate (Z.to_nat (NUM_OF_PHY_B g)) 0)
    ∅
    0
    ((λ k, USABLE_SIZE g + k * BS)
       <$> seqZ 0 ((RAW_SIZE g - USABLE_SIZE g + BS - 1) / BS))
    [].

(** *** [Ftl::translate] *)

(** [log_to_pages.insert({{log_address, offsets}})] keeps an entry that is
    already there. *)
Definition insert_manifest (log_address : Z) (offsets : list ascii) : M unit :=
  λ st,
  match log_to_pages st !! log_address with
  | Some _ => Some ((), st)
  | None =>
      Some ((), with_log_to_pages st (<[log_address := offsets]> (log_to_pages st)))
  end.

(** The part of the write path that runs when the mapped log block is
    full. *)
Definition translate_clean (event : Event) (logical_address page : Z)
    (data_address log_address : Z) : M (status * Event) :=
  over_data ← reads (λ st, over_erase_limit st data_address);
  data_address' ← (if over_data : bool
                   then remap_data_block (u64 (logical_address - page))
                          data_address log_address
                   else mret data_address);
  if bool_decide (over_data = true ∧ log_address = data_address')
  then mret (FAILURE, event)
  else
    over_log ← reads (λ st, over_erase_limit st log_address);
    log_address' ← (if over_log : bool
                    then remap_log_block (u64 (logical_address - page))
                           data_address' log_address
                    else mret log_address);
    if bool_decide (over_log = true ∧ log_address' = data_address')
    then mret (FAILURE, event)
    else
      cleaned ← clean (u64 (logical_address - page)) data_address' log_address';
      if negb cleaned then mret (FAILURE, event)
      else
        set_manifest log_address' (Str.to_string page ++ [Str.comma]) ≫= λ _,
        mret (SUCCESS, set_address event (page_of log_address' 0)).

Definition translate_write (event : Event) (logical_address : Z)
    (pba : Address) (page data_address : Z) : M (status * Event) :=
  empty ← reads (λ st, check_page_empty st logical_address);
  if empty : bool then
    writes (λ st, set_page_written st logical_address) ≫= λ _,
    mret (SUCCESS, set_address event pba)
  else
    mapped ← reads (λ st, check_log_block st data_address);
    match mapped with
    | Some log_address =>
        offsets ← reads (λ st, log_to_pages st !! log_address);
        free ← reads (λ _, next_free_log_page offsets);
        match free with
        | Some log_page =>
            set_manifest log_address
              (offsets ++ Str.to_string page ++ [Str.comma]) ≫= λ _,
            mret (SUCCESS, set_address event (page_of log_address log_page))
        | None =>
            translate_clean event logical_address page data_address log_address
        end
    | None =>
        target ← next_unmapped_log_block;
        match target with
        | Some log_address =>
            writes (λ st, set_log_block st data_address log_address) ≫= λ _,
            insert_manifest log_address (Str.to_string page ++ [Str.comma]) ≫= λ _,
            mret (SUCCESS, set_address event (page_of log_address 0))
        | None => mret (FAILURE, event)
        end
    end.

Definition translate_read (event : Event) (logical_address : Z)
    (pba : Address) (page data_address : Z) : M (status * Event) :=
  empty ← reads (λ st, check_page_empty st logical_address);
  if empty : bool then mret (FAILURE, event)
  else
    mapped ← reads (λ st, check_log_block st data_address);
    match mapped with
    | Some log_address =>
        offsets ← reads (λ st, log_to_pages st !! log_address);
        r ← reads (λ _, fetch_log_page offsets page);
        match r with
        | Some log_page =>
            mret (SUCCESS, set_address event (page_of log_address log_page))
        | None => mret (SUCCESS, set_address event pba)
        end
    | None => mret (SUCCESS, set_address event pba)
    end.

Definition translate (event : Event) : M (status * Event) :=
  let logical_address := logical_address event in
  if decide (USABLE_SIZE g ≤ logical_address) then mret (FAILURE, event)
  else
    (λ st, Some ((), with_start_time st (ev_start_time event))) ≫= λ _,
    physical_address ← reads (λ st, check_physical_address st logical_address);
    let '(package, die, plane, block, page) :=
      map_physical_to_SSD physical_address in
    let data_address := u64 (physical_address - page) in
    let pba := mkAddress package die plane block page PAGE in
    match ev_type event with
    | WRITE => translate_write event logical_address pba page data_address
    | READ => translate_read event logical_address pba page data_address
    | _ => mret (FAILURE, event)
    end.

End Ftl.


(** ** Well-formed geometries and states *)

(** The sizes are positive, the raw size fits a (signed) [int], the
    erase budget is positive and leaves room for [BLOCK_ERASES + 1] in an
    [unsigned int],
    and the over-provisioned part is a whole number of blocks. *)
Definition geometry_ok (g : geometry) : Prop :=
  0 < SSD_SIZE g ∧ 0 < PACKAGE_SIZE g ∧ 0 < DIE_SIZE g ∧ 0 < PLANE_SIZE g
  ∧ 0 < BLOCK_SIZE g
  ∧ SSD_SIZE g * PACKAGE_SIZE g * DIE_SIZE g * PLANE_SIZE g * BLOCK_SIZE g
    < 2 ^ 31
  ∧ 0 < BLOCK_ERASES g < 2 ^ 32 - 1
  ∧ 0 ≤ OVERPROVISIONING g ≤ 100
  ∧ (RAW_SIZE g * OVERPROVISIONING g) mod (100 * BLOCK_SIZE g) = 0.

(** The four arrays have the lengths [init_ftl_user] allocates. *)
Definition tables_allocated (g : geometry) (st : ftl_state) : Prop :=
  length (logical_to_emptiness st) = Z.to_nat (emp_len g)
  ∧ length (erase_count st) = Z.to_nat (NUM_OF_PHY_B g)
  ∧ length (logical_to_physical st) = Z.to_nat (NUM_OF_LGC_B g)
  ∧ length (data_to_log st) = Z.to_nat (NUM_OF_PHY_B g).

(** The mapping state of the translation layer: everything but the saved
    start time and the record of the issued events. *)
Definition mapping_state (st : ftl_state) :=
  (logical_to_emptiness st, logical_to_physical st, data_to_log st,
   log_to_pages st, erase_count st, op_blocks st).

(** The read path of [translate] as a function of the tables: [None] is
    undefined behaviour, [Some None] a failure, [Some (Some a)] a success
    at the physical page [a]. *)
Definition read_outcome (g : geometry) (st : ftl_state) (logical_address : Z)
  : option (option Address) :=
  physical_address ← check_physical_address g st logical_address;
  let '(package, die, plane, block, page) :=
    map_physical_to_SSD g physical_address in
  let data_address := u64 (physical_address - page) in
  empty ← check_page_empty st logical_address;
  if empty : bool then Some None
  else
    mapped ← check_log_block g st data_address;
    match mapped with
    | Some log_address =>
        offsets ← log_to_pages st !! log_address;
        r ← fetch_log_page offsets page;
        match r with
        | Some log_page => Some (Some (page_of g log_address log_page))
        | None => Some (Some (mkAddress package die plane block page PAGE))
        end
    | None => Some (Some (mkAddress package die plane block page PAGE))
    end.

(** ** Sequences of physical events *)

(** The event built by [Event(t, la, 1, start_time)] and [set_address(a)]. *)
Definition event_at (time : double) (t : event_type) (la : Z) (a : Address)
  : Event :=
  set_address (new_Event t la 1 time) a.

(** The logical page [la] is marked written. *)
Definition written (st : ftl_state) (la : Z) : bool :=
  match check_page_empty st la with
  | Some false => true
  | _ => false
  end.

(** Where the merge reads offset [i] from: page [k] of the log block when
    [fetch_log_page] finds [i] at index [k] of its manifest, page [i] of the
    data block otherwise. *)
Definition merge_source (g : geometry) (st : ftl_state) (data_pba log_pba i : Z)
  : Address :=
  match log_to_pages st !! log_pba ≫= (λ offsets, fetch_log_page offsets i) with
  | Some (Some k) => page_of g log_pba k
  | _ => page_of g data_pba i
  end.

(** For each written page of the logical block, in increasing order of
    offset: a READ at the merge source and a WRITE to the same offset of
    [cln_pba]. *)
Definition merge_out_events (g : geometry) (st : ftl_state)
    (logical_block data_pba log_pba cln_pba : Z) : list Event :=
  flat_map
    (λ i, if written st (u64 (logical_block + i))
          then [event_at (start_time st) READ (u64 (logical_block + i))
                  (merge_source g st data_pba log_pba i);
                event_at (start_time st) WRITE (u64 (logical_block + i))
                  (page_of g cln_pba i)]
          else [])
    (seqZ 0 (BLOCK_SIZE g)).

(** For each written page of the logical block, in increasing order of
    offset: a READ of the page in [src] and a WRITE to the same offset of
    [dst]. *)
Definition copy_events (g : geometry) (st : ftl_state)
    (logical_block src dst : Z) : list Event :=
  flat_map
    (λ i, if written st (u64 (logical_block + i))
          then [event_at (start_time st) READ (u64 (logical_block + i))
                  (page_of g src i);
                event_at (start_time st) WRITE (u64 (logical_block + i))
                  (page_of g dst i)]
          else [])
    (seqZ 0 (BLOCK_SIZE g)).

(** The ERASE of the block at [pba]. *)
Definition erase_event (g : geometry) (st : ftl_state) (logical_block pba : Z)
  : Event :=
  event_at (start_time st) ERASE logical_block (block_of g pba).

(** Logical block [j] owns the data block at [a], which has no log block
    and has been erased [c] times. *)
Definition log_less_candidate (g : geometry) (st : ftl_state) (j a c : Z) : Prop :=
  check_physical_address g st (u32 (j * BLOCK_SIZE g)) = Some a
  ∧ check_log_block g st a = Some None
  ∧ arr_get (erase_count st) (a / BLOCK_SIZE g) = Some c.

(** ** The invariant of the translation layer *)

(** Index of the data block of logical block [i]. *)
Definition data_block (st : ftl_state) (i : Z) : option Z :=
  off ← arr_get (logical_to_physical st) i; Some (i + off).

(** Index of the log block mapped to the physical block [d]; offset 0
    means that none is. *)
Definition log_block (st : ftl_state) (d : Z) : option Z :=
  off ← arr_get (data_to_log st) d;
  if decide (off = 0) then None else Some (d + off).

Definition is_data_block (g : geometry) (st : ftl_state) (d : Z) : Prop :=
  ∃ i, 0 ≤ i < NUM_OF_LGC_B g ∧ data_block st i = Some d.

(** Some page of logical block [i] is marked written. *)
Definition block_written (g : geometry) (st : ftl_state) (i : Z) : Prop :=
  ∃ p, 0 ≤ p < BLOCK_SIZE g
       ∧ check_page_empty st (i * BLOCK_SIZE g + p) = Some false.

(** A manifest lists at most [BLOCK_SIZE] page offsets. *)
Definition manifest_ok (g : geometry) (s : list ascii) : Prop :=
  ∃ pages, s = manifest_of pages
           ∧ Forall (λ p, 0 ≤ p < BLOCK_SIZE g) pages
           ∧ Z.of_nat (length pages) ≤ BLOCK_SIZE g.

(** Logical block [j] is empty and its data block [s] is under the cap. *)
Definition empty_block_under_cap (g : geometry) (st : ftl_state) (j s : Z)
  : Prop :=
  0 ≤ j < NUM_OF_LGC_B g ∧ data_block st j = Some s ∧ 0 ≤ s < NUM_OF_PHY_B g
  ∧ ¬ block_written g st j
  ∧ ∃ c, arr_get (erase_count st) s = Some c ∧ c < BLOCK_ERASES g.

Record ftl_inv (g : geometry) (st : ftl_state) : Prop := {
  inv_alloc : tables_allocated g st;
  (* every logical block has a data block *)
  inv_data : ∀ i, 0 ≤ i < NUM_OF_LGC_B g →
    ∃ d, data_block st i = Some d ∧ 0 ≤ d < NUM_OF_PHY_B g;
  (* two logical blocks do not share a data block *)
  inv_data_inj : ∀ i j d,
    0 ≤ i < NUM_OF_LGC_B g → 0 ≤ j < NUM_OF_LGC_B g →
    data_block st i = Some d → data_block st j = Some d → i = j;
  (* a mapped log block belongs to the data block of a written logical
     block, is not a data block, has a manifest and is not in the pool *)
  inv_log : ∀ d l, log_block st d = Some l →
    0 ≤ l < NUM_OF_PHY_B g
    ∧ (∃ i, 0 ≤ i < NUM_OF_LGC_B g ∧ data_block st i = Some d
            ∧ block_written g st i)
    ∧ ¬ is_data_block g st l
    ∧ is_Some (log_to_pages st !! (l * BLOCK_SIZE g))
    ∧ l * BLOCK_SIZE g ∉ op_blocks st;
  (* a log block is mapped by one data block *)
  inv_log_inj : ∀ d d' l,
    log_block st d = Some l → log_block st d' = Some l → d = d';
  inv_pool_nodup : NoDup (op_blocks st);
  (* the pool holds blocks that are not data blocks and are under the cap *)
  inv_pool : ∀ p, p ∈ op_blocks st →
    ∃ b c, p = b * BLOCK_SIZE g ∧ 0 ≤ b < NUM_OF_PHY_B g
           ∧ ¬ is_data_block g st b
           ∧ arr_get (erase_count st) b = Some c ∧ c < BLOCK_ERASES g;
  inv_erase : ∀ b c, arr_get (erase_count st) b = Some c →
    0 ≤ c ≤ BLOCK_ERASES g;
  inv_manifest : ∀ k s, log_to_pages st !! k = Some s → manifest_ok g s
}.

(** The states the driver can produce: [init_ftl_user], then host events
    (whose logical address is an [unsigned long]) through [translate]. *)
Inductive reachable (g : geometry) : ftl_state → Prop :=
  | reachable_init : reachable g (init_ftl_user g)
  | reachable_step st ev r st' :
      reachable g st →
      0 ≤ logical_address ev < 2 ^ 64 →
      translate g ev st = Some (r, st') →
      reachable g st'.

(** An ERASE event is aimed at a block whose erase count in [st] is below
    the cap. *)
Definition erase_below_cap (g : geometry) (st : ftl_state) (e : Event) : Prop :=
  ev_type e = ERASE →
  ∃ b c, 0 ≤ b < NUM_OF_PHY_B g
         ∧ address e = block_of g (b * BLOCK_SIZE g)
         ∧ arr_get (erase_count st) b = Some c ∧ c < BLOCK_ERASES g.

(** The physical events appended by a successful [clean]. *)
Definition clean_events (g : geometry) (st : ftl_state)
    (logical_block data_pba log_pba cln_pba : Z) : list Event :=
  merge_out_events g st logical_block data_pba log_pba cln_pba
  ++ [erase_event g st logical_block data_pba;
      erase_event g st logical_block log_pba]
  ++ copy_events g st logical_block cln_pba data_pba
  ++ [erase_event g st logical_block cln_pba].

(** [st'] differs from [st] by its erase counts and issued events only. *)
Definition same_maps (st st' : ftl_state) : Prop :=
  logical_to_emptiness st' = logical_to_emptiness st
  ∧ logical_to_physical st' = logical_to_physical st
  ∧ data_to_log st' = data_to_log st
  ∧ log_to_pages st' = log_to_pages st
  ∧ op_blocks st' = op_blocks st.

(** No erase count decreases from [st] to [st']. *)
Definition erase_monotone (st st' : ftl_state) : Prop :=
  length (erase_count st') = length (erase_count st)
  ∧ ∀ b c, arr_get (erase_count st) b = Some c →
           ∃ c', arr_get (erase_count st') b = Some c' ∧ c ≤ c'.

(** A data block [D] and its log block [Λ], both under the cap. *)
Definition pair_under_cap (g : geometry) (st : ftl_state) (D Λ : Z) : Prop :=
  0 ≤ D < NUM_OF_PHY_B g ∧ log_block st D = Some Λ
  ∧ (∃ c, arr_get (erase_count st) D = Some c ∧ c < BLOCK_ERASES g)
  ∧ (∃ c, arr_get (erase_count st) Λ = Some c ∧ c < BLOCK_ERASES g).

(** What every operation of the garbage collector guarantees from [st] to
    [st']: the invariant, an untouched bitmap, erase counts that do not
    decrease, and ERASE events aimed at blocks under the cap only. *)
Definition gc_step (g : geometry) (st st' : ftl_state) : Prop :=
  ftl_inv g st'
  ∧ logical_to_emptiness st' = logical_to_emptiness st
  ∧ erase_monotone st st'
  ∧ ∃ new, issued st' = issued st ++ new ∧ Forall (erase_below_cap g st) new.

(** The same for a host event, which may set a bit of the bitmap. *)
Definition host_step (g : geometry) (st st' : ftl_state) : Prop :=
  ftl_inv g st'
  ∧ erase_monotone st st'
  ∧ ∃ new, issued st' = issued st ++ new ∧ Forall (erase_below_cap g st) new.

(** The block [b] handed out by [next_unmapped_log_block] in [st'] (from
    [st]) is free: no data block, no log block, not in the pool, under the
    cap; and the step from [st] moved, at most, the logical block that
    owned [b] and unmapped a pair that was under the cap. *)
Definition fresh_block (g : geometry) (st : ftl_state) (b : Z)
    (st' : ftl_state) : Prop :=
  0 ≤ b < NUM_OF_PHY_B g
  ∧ ¬ is_data_block g st' b
  ∧ b * BLOCK_SIZE g ∉ op_blocks st'
  ∧ (∀ d, log_block st' d ≠ Some b)
  ∧ log_block st b = None
  ∧ (∃ c, arr_get (erase_count st') b = Some c ∧ c < BLOCK_ERASES g)
  ∧ (∀ k, 0 ≤ k < NUM_OF_LGC_B g →
          data_block st' k = data_block st k ∨ data_block st k = Some b)
  ∧ (∀ d, log_block st' d = log_block st d
          ∨ log_block st' d = None
            ∧ ∃ l cd cl, log_block st d = Some l
                ∧ arr_get (erase_count st) d = Some cd ∧ cd < BLOCK_ERASES g
                ∧ arr_get (erase_count st) l = Some cl ∧ cl < BLOCK_ERASES g)
  ∧ (∀ d l, log_block st' d = Some l →
            log_to_pages st' !! (l * BLOCK_SIZE g)
            = log_to_pages st !! (l * BLOCK_SIZE g))
  ∧ (∀ k d, 0 ≤ k < NUM_OF_LGC_B g → data_block st k = Some d →
            block_written g st k → is_Some (log_block st' d) →
            arr_get (erase_count st') d = arr_get (erase_count st) d).

(** What a successful [shuffle_data_log] did from [st] to [st']: it
    cleaned the pair [D], [Λ] through the scratch block [S], unmapped [Λ],
    moved the logical block [jm] from its data block [Dm] (which had no log
    block) to [Λ] and pushed [Dm] onto the pool. *)
Definition shuffle_post (g : geometry) (st st' : ftl_state) : Prop :=
  ∃ i D Λ jm Dm js S,
    0 ≤ i < NUM_OF_LGC_B g ∧ data_block st i = Some D
    ∧ block_written g st i ∧ pair_under_cap g st D Λ
    ∧ 0 ≤ jm < NUM_OF_LGC_B g ∧ data_block st jm = Some Dm
    ∧ 0 ≤ Dm < NUM_OF_PHY_B g ∧ log_block st Dm = None
    ∧ empty_block_under_cap g st js S
    ∧ (∀ k, data_block st' k
            = if decide (jm = k) then Some Λ else data_block st k)
    ∧ (∀ d, log_block st' d = if decide (D = d) then None else log_block st d)
    ∧ log_to_pages st' = delete (Λ * BLOCK_SIZE g) (log_to_pages st)
    ∧ op_blocks st' = op_blocks st ++ [Dm * BLOCK_SIZE g]
    ∧ (∀ b, b ≠ D → b ≠ Λ → b ≠ S →
            arr_get (erase_count st') b = arr_get (erase_count st) b)
    ∧ (∃ c, arr_get (erase_count st') Dm = Some c ∧ c < BLOCK_ERASES g)
    ∧ gc_step g st st'.

(** An event that is not an ERASE. *)
Definition non_erase (e : Event) : Prop := ev_type e ≠ ERASE.

(** ** Manifests as strings *)

(** A string without a comma, as the decimal numerals are. *)
Definition no_comma (s : list ascii) : Prop := Forall (λ a, a ≠ Str.comma) s.

(** Offset, from the comma that ends the entry before [pages], of the
    last match of the entry of [d] between two commas. *)
Fixpoint last_pos (d : Z) (pages : list Z) : option nat :=
  match pages with
  | [] => None
  | x :: pages' =>
      match last_pos d pages' with
      | Some i => Some (S (length (Str.to_string x)) + i)%nat
      | None => if decide (x = d) then Some 0%nat else None
      end
  end.

(** ** The geometry used for the concrete runs: one plane of four blocks
    of four pages, five erases per block, a quarter over-provisioned. *)
Definition g0 : geometry := Geometry 1 1 1 4 4 5 25.


(** The driver hands the host events to [translate] one at a time, in
    order. *)
Fixpoint run_events (g : geometry) (evs : list Event)
  : M (list (status * Event)) :=
  match evs with
  | [] => mret []
  | ev :: evs' =>
      r ← translate g ev;
      rs ← run_events g evs';
      mret (r :: rs)
  end.

(** The state after [init_ftl_user] and the events [evs]. *)
Definition state_after (g : geometry) (evs : list Event) : option ftl_state :=
  snd <$> run_events g evs (init_ftl_user g).

Definition host_write (la : Z) : Event := new_Event WRITE la 1 0.
Definition host_read (la : Z) : Event := new_Event READ la 1 0.

(** Logical page 0 written once and overwritten four times: its log block
    (block 3) is full. *)
Definition st_full_log : ftl_state :=
  default (init_ftl_user g0)
    (state_after g0 (replicate 5 (host_write 0))).

(** A geometry with four over-provisioned blocks (blocks 4 to 7 of eight),
    and the initial state in which the block on top of the pool (block 7,
    at address 28) has used its five erases. *)
Definition g8 : geometry := Geometry 1 1 1 8 4 5 50.

Definition st_top_worn : ftl_state :=
  with_erase_count (init_ftl_user g8) [0; 0; 0; 0; 0; 0; 0; 5].

(** Logical page 4 written and overwritten (block 1 gets block 3, the only
    pool block, as its log block), then logical page 0 written: the pool
    is empty, block 1 and block 3 form the only pair, block 0 holds data
    and has no log block. *)
Definition st_pool_empty : ftl_state :=
  default (init_ftl_user g0)
    (state_after g0 [host_write 4; host_write 4; host_write 0]).

(** Logical page 0 written once and overwritten 21 times: the fifth merge
    of block 0 with its log block (block 3) has just run, and both blocks
    have used their five erases. *)
Definition st_log_worn : ftl_state :=
  default (init_ftl_user g0)
    (state_after g0 (replicate 22 (host_write 0))).

(** The same geometry with no erase allowed ([BLOCK_ERASES = 0]): every
    block is at the limit from the start. The state is the one after a
    first write of logical page 0. *)
Definition g8_worn : geometry := Geometry 1 1 1 8 4 0 50.

Definition st_all_worn : ftl_state :=
  default (init_ftl_user g8_worn) (state_after g8_worn [host_write 0]).

(** ** Further notions used to state properties of the code *)

(** Logical block [j] is empty and its data block [s] has used [c] erases,
    fewer than [BLOCK_ERASES]: a candidate of the searches for an empty
    data block. *)
Definition scratch_candidate (g : geometry) (st : ftl_state) (j s c : Z)
  : Prop :=
  0 ≤ j < NUM_OF_LGC_B g ∧ data_block st j = Some s
  ∧ ¬ block_written g st j
  ∧ arr_get (erase_count st) s = Some c ∧ c < BLOCK_ERASES g.

(** The state of a search for an empty data block after the logical blocks
    below [n], with [m] the least count seen and [a] the address held:
    nothing found and no candidate below [n], or the first of the
    least-erased candidates below [n]. *)
Definition search_result (g : geometry) (st : ftl_state) (a0 : Z) (n : Z)
    (m a : Z) (j : option Z) : Prop :=
  match j with
  | None =>
      m = BLOCK_ERASES g + 1 ∧ a = a0
      ∧ ∀ j' s' c', 0 ≤ j' < n → ¬ scratch_candidate g st j' s' c'
  | Some j =>
      ∃ s, 0 ≤ j < n ∧ a = s * BLOCK_SIZE g ∧ scratch_candidate g st j s m
           ∧ ∀ j' s' c', 0 ≤ j' < n → scratch_candidate g st j' s' c' →
                         m ≤ c' ∧ (c' = m → j ≤ j')
  end.

(** The answer of a host event: FAILURE with the event as it came, or
    SUCCESS with the address of a page of the device. *)
Definition answer_in_device (g : geometry) (ev : Event) (r : status * Event)
  : Prop :=
  r = (FAILURE, ev)
  ∨ ∃ b k, 0 ≤ b < NUM_OF_PHY_B g ∧ 0 ≤ k < BLOCK_SIZE g
           ∧ r = (SUCCESS, set_address ev (page_of g (b * BLOCK_SIZE g) k)).
Example fetch_0123_2 :
  fetch_log_page (manifest_of [0; 1; 2; 3]) 2 = Some (Some 2).
Proof. vm_compute. reflexivity. Qed.

Example fetch_multi_digit :
  fetch_log_page (manifest_of [10; 0; 1; 0; 11]) 0 = Some (Some 3)
  ∧ fetch_log_page (manifest_of [10; 1; 11]) 0 = Some None
  ∧ fetch_log_page (manifest_of [10; 1; 11]) 1 = Some (Some 1)
  ∧ fetch_log_page (manifest_of [1; 10; 11]) 1 = Some (Some 0).
Proof. vm_compute. done. Qed.

(** * Machine integers *)

Lemma u32_small x : 0 ≤ x < 2 ^ 32 → u32 x = x.
Proof. intros ?. unfold u32. by rewrite Z.mod_small. Qed.

Lemma u64_small x : 0 ≤ x < 2 ^ 64 → u64 x = x.
Proof. intros ?. unfold u64. by rewrite Z.mod_small. Qed.

Lemma s32_small x : - 2 ^ 31 ≤ x < 2 ^ 31 → s32 x = x.
Proof. intros ?. unfold s32. rewrite Z.mod_small; lia. Qed.


(** * The bitmap of written pages *)

Section Bitmap.

Context (g : geometry).

Lemma arr_get_Some (a : list Z) i v :
  arr_get a i = Some v ↔ 0 ≤ i ∧ a !! Z.to_nat i = Some v.
Proof.
  unfold arr_get. case_decide; [tauto|].
  split; [done | by intros [? ?]].
Qed.

Lemma arr_get_is_Some (a : list Z) i :
  is_Some (arr_get a i) ↔ 0 ≤ i < Z.of_nat (length a).
Proof.
  unfold arr_get. case_decide.
  - rewrite lookup_lt_is_Some. lia.
  - split; [by intros [? ?] | lia].
Qed.

Lemma arr_set_Some (a : list Z) i v a' :
  arr_set a i v = Some a' ↔
  0 ≤ i < Z.of_nat (length a) ∧ a' = <[Z.to_nat i := v]> a.
Proof.
  unfold arr_set. case_decide.
  - split; [by intros [= <-] | by intros [_ ->]].
  - split; [done | by intros [? ?]].
Qed.

Lemma arr_get_set_eq (a : list Z) i v :
  0 ≤ i < Z.of_nat (length a) → arr_get (<[Z.to_nat i := v]> a) i = Some v.
Proof.
  intros ?. unfold arr_get. rewrite decide_True by lia.
  apply list_lookup_insert_eq. lia.
Qed.

Lemma arr_get_set_ne (a : list Z) i j v :
  0 ≤ i → i ≠ j → arr_get (<[Z.to_nat i := v]> a) j = arr_get a j.
Proof.
  intros ??. unfold arr_get. case_decide; [|done].
  apply list_lookup_insert_ne. lia.
Qed.

(** The test [((flag >> k) & 1) == 0] reads bit [k] of [flag]. *)
Lemma bit_test flag k :
  0 ≤ k →
  bool_decide (Z.land (Z.shiftr flag k) 1 = 0) = negb (Z.testbit flag k).
Proof.
  intros Hk.
  replace (Z.land (Z.shiftr flag k) 1) with (Z.shiftr flag k mod 2)
    by (symmetry; apply (Z.land_ones _ 1); lia).
  rewrite <- (Z.bit0_mod (Z.shiftr flag k)).
  rewrite Z.shiftr_spec, Z.add_0_l by lia.
  by destruct (Z.testbit flag k).
Qed.

(** The update [flag | (1 << k)] sets bit [k] and keeps the others. *)
Lemma bit_set flag k j :
  0 ≤ k → 0 ≤ j →
  Z.testbit (Z.lor flag (Z.shiftl 1 k)) j
  = Z.testbit flag j || bool_decide (k = j).
Proof.
  intros Hk Hj. rewrite Z.lor_spec, Z.shiftl_1_l, Z.pow2_bits_eqb by lia.
  f_equal. destruct (Z.eqb_spec k j).
  - by rewrite bool_decide_true.
  - by rewrite bool_decide_false.
Qed.

Lemma check_page_empty_Some st lba flag :
  0 ≤ lba →
  arr_get (logical_to_emptiness st) (lba / sizeof_uint) = Some flag →
  check_page_empty st lba = Some (negb (Z.testbit flag (lba mod sizeof_uint))).
Proof.
  intros Hl Hf. unfold check_page_empty. rewrite Hf. simpl.
  rewrite bit_test; [done|]. unfold sizeof_uint.
  pose proof (Z.mod_pos_bound lba 4). lia.
Qed.

Lemma set_page_written_Some st lba flag :
  arr_get (logical_to_emptiness st) (lba / sizeof_uint) = Some flag →
  set_page_written st lba
  = Some (with_emptiness st
            (<[Z.to_nat (lba / sizeof_uint) :=
                 Z.lor flag (Z.shiftl 1 (lba mod sizeof_uint))]>
               (logical_to_emptiness st))).
Proof.
  intros Hf. unfold set_page_written. rewrite Hf. simpl.
  assert (is_Some (arr_get (logical_to_emptiness st) (lba / sizeof_uint)))
    as Hin%arr_get_is_Some by eauto.
  unfold arr_set. by rewrite decide_True by lia.
Qed.

(** A logical address below [USABLE_SIZE] has its word inside the
    [emp_len] words that [init_ftl_user] allocates. *)
Lemma word_in_bitmap L :
  0 ≤ OVERPROVISIONING g → 0 ≤ L < USABLE_SIZE g →
  0 ≤ L / sizeof_uint < emp_len g.
Proof.
  intros Hop HL. unfold emp_len, sizeof_uint in *.
  assert (0 ≤ RAW_SIZE g < 2 ^ 32) as Hraw.
  { unfold RAW_SIZE, u32. apply Z.mod_pos_bound. lia. }
  assert (0 ≤ OP_SIZE g) as Hops.
  { unfold OP_SIZE. apply Z.div_pos; lia. }
  assert (USABLE_SIZE g ≤ RAW_SIZE g) by (unfold USABLE_SIZE; lia).
  rewrite u32_small.
  - split; [apply Z.div_pos; lia|].
    apply Z.div_lt_upper_bound; [lia|].
    pose proof (Z.mul_div_le (USABLE_SIZE g + 4 - 1) 4 ltac:(lia)).
    pose proof (Z.mod_pos_bound (USABLE_SIZE g + 4 - 1) 4 ltac:(lia)).
    pose proof (Z.div_mod (USABLE_SIZE g + 4 - 1) 4 ltac:(lia)). lia.
  - split; [apply Z.div_pos; lia|].
    apply Z.div_lt_upper_bound; lia.
Qed.

(** The pair (word, bit) determines the logical address. *)
Lemma word_bit_inj L L' :
  L / sizeof_uint = L' / sizeof_uint →
  L mod sizeof_uint = L' mod sizeof_uint → L = L'.
Proof.
  unfold sizeof_uint. intros Hd Hm.
  rewrite (Z.div_mod L 4), (Z.div_mod L' 4) by lia. lia.
Qed.

End Bitmap.

(** ** The layout of the bitmap *)

Lemma allocated_word g st L :
  0 ≤ OVERPROVISIONING g →
  length (logical_to_emptiness st) = Z.to_nat (emp_len g) →
  0 ≤ L < USABLE_SIZE g →
  ∃ flag, arr_get (logical_to_emptiness st) (L / sizeof_uint) = Some flag.
Proof.
  intros Hop Hlen HL. apply arr_get_is_Some.
  pose proof (word_in_bitmap g L Hop HL). lia.
Qed.






(** * Manifests as strings *)

Section Strings.

Import Str.

(** ** Decimal numerals *)


Lemma pretty_N_char_no_comma x : pretty_N_char x ≠ comma.
Proof. unfold pretty_N_char. by repeat case_match. Qed.

Lemma pretty_N_go_no_comma x s :
  no_comma (String.list_ascii_of_string s) →
  no_comma (String.list_ascii_of_string (pretty_N_go x s)).
Proof.
  revert s. induction (N.lt_wf_0 x) as [x _ IH]; intros s Hs.
  destruct (decide (x = 0)%N) as [->|Hx].
  - by rewrite pretty_N_go_0.
  - rewrite pretty_N_go_step by lia. apply IH.
    + apply N.div_lt; lia.
    + simpl. constructor; [apply pretty_N_char_no_comma | done].
Qed.

Lemma pretty_N_no_comma (x : N) :
  no_comma (String.list_ascii_of_string (pretty x)).
Proof.
  unfold pretty, pretty_N. case_decide.
  - by repeat constructor.
  - apply pretty_N_go_no_comma. constructor.
Qed.

Lemma to_string_no_comma x : no_comma (to_string x).
Proof.
  unfold to_string, pretty, pretty_Z. destruct x as [|p|p].
  - by repeat constructor.
  - apply (pretty_N_no_comma (N.pos p)).
  - unfold String.app. simpl. constructor; [done|].
    apply (pretty_N_no_comma (N.pos p)).
Qed.

Lemma list_ascii_of_string_inj s1 s2 :
  String.list_ascii_of_string s1 = String.list_ascii_of_string s2 → s1 = s2.
Proof.
  intros H. rewrite <- (String.string_of_list_ascii_of_string s1).
  rewrite <- (String.string_of_list_ascii_of_string s2). by rewrite H.
Qed.

Lemma to_string_inj x y : to_string x = to_string y → x = y.
Proof.
  intros H%list_ascii_of_string_inj. by apply (inj pretty) in H.
Qed.

Lemma pretty_N_go_length (n : nat) x s :
  (x < 10 ^ N.of_nat n)%N →
  (String.length (pretty_N_go x s) ≤ n + String.length s)%nat.
Proof.
  revert x s. induction n as [|n IH]; intros x s Hx.
  - assert (x = 0%N) as -> by (simpl in Hx; lia).
    rewrite pretty_N_go_0. lia.
  - destruct (decide (x = 0)%N) as [->|Hx0].
    + rewrite pretty_N_go_0. lia.
    + rewrite pretty_N_go_step by lia.
      etrans; [apply IH|simpl; lia].
      apply N.Div0.div_lt_upper_bound.
      rewrite Nat2N.inj_succ, N.pow_succ_r' in Hx. lia.
Qed.

Lemma length_list_ascii_of_string s :
  length (String.list_ascii_of_string s) = String.length s.
Proof. induction s; simpl; congruence. Qed.

(** An [unsigned int] prints on at most ten characters. *)
Lemma to_string_length x :
  0 ≤ x < 2 ^ 32 → (0 < length (to_string x) ≤ 10)%nat.
Proof.
  intros Hx. unfold to_string. rewrite length_list_ascii_of_string.
  unfold pretty, pretty_Z. destruct x as [|p|p]; [simpl; lia| |lia].
  unfold pretty, pretty_positive, pretty, pretty_N.
  rewrite decide_False by done.
  split.
  - rewrite pretty_N_go_step by lia.
    assert (∀ y s, (String.length s ≤ String.length (pretty_N_go y s))%nat)
      as Hmono.
    { intros y. induction (N.lt_wf_0 y) as [y _ IH]; intros s.
      destruct (decide (y = 0)%N) as [->|Hy].
      - by rewrite pretty_N_go_0.
      - rewrite pretty_N_go_step by lia.
        etrans; [|apply IH; apply N.div_lt; lia]. simpl. lia. }
    eapply Nat.lt_le_trans; [|apply Hmono]. simpl. lia.
  - etrans; [apply (pretty_N_go_length 10)|simpl; lia].
    change (10 ^ N.of_nat 10)%N with 10000000000%N. lia.
Qed.

(** ** Searching *)

Lemma starts_with_app needle rest : starts_with needle (needle ++ rest) = true.
Proof.
  induction needle as [|a needle IH]; [by destruct rest|].
  simpl. by rewrite bool_decide_true, IH.
Qed.

Lemma starts_with_prefix needle s :
  starts_with needle s = true → ∃ rest, s = needle ++ rest.
Proof.
  revert s. induction needle as [|a needle IH]; intros s H; [by exists s|].
  destruct s as [|b s]; [done|]. simpl in H.
  apply andb_true_iff in H as [Hab H]. apply bool_decide_eq_true in Hab as ->.
  destruct (IH _ H) as [rest ->]. by exists rest.
Qed.

(** Two comma-free words followed by a comma split a string in one way. *)
Lemma split_at_comma u v r1 r2 :
  no_comma u → no_comma v → u ++ comma :: r1 = v ++ comma :: r2 →
  u = v ∧ r1 = r2.
Proof.
  intros Hu. revert v. induction Hu as [|a u Ha Hu IH]; intros v Hv Heq.
  - destruct Hv as [|b v Hb Hv]; simpl in Heq; [naive_solver|].
    congruence.
  - destruct Hv as [|b v Hb Hv]; simpl in Heq; [congruence|].
    injection Heq as -> Heq. destruct (IH v Hv Heq) as [-> ->]. done.
Qed.

(** The needle ["d,"] matches at the head of a manifest exactly when
    the first entry is [d]. *)
Lemma starts_with_token d x rest :
  starts_with (to_string d ++ [comma]) (to_string x ++ comma :: rest)
  = bool_decide (x = d).
Proof.
  case_bool_decide as Hxd.
  - subst.
    replace (to_string d ++ comma :: rest)
      with ((to_string d ++ [comma]) ++ rest) by (by rewrite <- app_assoc).
    apply starts_with_app.
  - apply not_true_is_false. intros [r Hr]%starts_with_prefix.
    rewrite <- app_assoc in Hr. simpl in Hr.
    apply split_at_comma in Hr as [Hr _]; auto using to_string_no_comma.
    by apply to_string_inj in Hr.
Qed.

(** A needle that begins with a comma does not match inside a comma-free
    word. *)
Lemma find_last_skip needle t s :
  no_comma t →
  find_last (comma :: needle) (t ++ s)
  = (λ i, (length t + i)%nat) <$> find_last (comma :: needle) s.
Proof.
  induction 1 as [|a t Ha Ht IH]; simpl app.
  - by destruct (find_last _ s).
  - cbn [find_last]. rewrite IH.
    destruct (find_last (comma :: needle) s) as [i|]; simpl; [done|].
    rewrite bool_decide_false by congruence. done.
Qed.

Lemma find_first_comma t s :
  no_comma t → find_first [comma] (t ++ comma :: s) = Some (length t).
Proof.
  induction 1 as [|a t Ha Ht IH]; simpl.
  - done.
  - rewrite bool_decide_false by congruence. simpl. by rewrite IH.
Qed.

Lemma find_comma_after pre t s :
  no_comma t →
  Z.of_nat (length (pre ++ t ++ comma :: s)) < npos →
  find (pre ++ t ++ comma :: s) [comma] (Z.of_nat (length pre))
  = Z.of_nat (length pre + length t).
Proof.
  intros Ht Hlen. unfold find.
  rewrite decide_True by (rewrite length_app; lia).
  rewrite Nat2Z.id, drop_app_length, find_first_comma by done. lia.
Qed.

Lemma find_first_0 needle s :
  find_first needle s = Some 0%nat ↔ starts_with needle s = true.
Proof.
  destruct s as [|a s]; cbn [find_first].
  - by destruct (starts_with needle []).
  - destruct (starts_with needle (a :: s)); [done|].
    by destruct (find_first needle s).
Qed.

(** The test [s.find(needle) == 0]. *)
Lemma find_at_0 s needle :
  find s needle 0 = 0 ↔ starts_with needle s = true.
Proof.
  unfold find. rewrite decide_True by lia.
  change (Z.to_nat 0) with 0%nat. rewrite drop_0, <- find_first_0.
  destruct (find_first needle s) as [i|].
  - split; [intros ?; f_equal; lia | by intros [= ->]].
  - by unfold npos.
Qed.

(** ** The manifest *)

Lemma manifest_of_cons x pages :
  manifest_of (x :: pages) = to_string x ++ comma :: manifest_of pages.
Proof. unfold manifest_of. simpl. by rewrite <- app_assoc. Qed.

Lemma manifest_of_app pages1 pages2 :
  manifest_of (pages1 ++ pages2) = manifest_of pages1 ++ manifest_of pages2.
Proof. unfold manifest_of. by rewrite fmap_app, concat_app. Qed.

Lemma manifest_of_length_ge pages :
  (length pages ≤ length (manifest_of pages))%nat.
Proof.
  induction pages as [|x pages IH]; [done|].
  rewrite manifest_of_cons, length_app. simpl. lia.
Qed.

Lemma manifest_of_length_le pages :
  Forall (λ p, 0 ≤ p < 2 ^ 32) pages →
  (length (manifest_of pages) ≤ 11 * length pages)%nat.
Proof.
  induction 1 as [|x pages Hx _ IH]; [done|].
  rewrite manifest_of_cons, length_app. simpl.
  pose proof (to_string_length x Hx). lia.
Qed.

Lemma find_last_manifest d pages :
  find_last (comma :: to_string d ++ [comma]) (comma :: manifest_of pages)
  = last_pos d pages.
Proof.
  induction pages as [|x pages IH].
  - cbn [manifest_of fmap list_fmap concat find_last].
    by destruct (to_string d) eqn:E.
  - rewrite manifest_of_cons. cbn [find_last last_pos].
    rewrite find_last_skip by apply to_string_no_comma. rewrite IH.
    destruct (last_pos d pages) as [i|]; simpl; [done|].
    rewrite starts_with_token. by repeat case_decide; case_bool_decide.
Qed.

Lemma last_pos_index d pages :
  match last_pos d pages, last_index d pages with
  | Some i, Some k =>
      (i ≤ length (manifest_of pages))%nat ∧ 0 ≤ k < Z.of_nat (length pages)
  | None, None => True
  | _, _ => False
  end.
Proof.
  induction pages as [|x pages IH]; [done|]. simpl.
  rewrite manifest_of_cons, length_app. simpl.
  destruct (last_pos d pages), (last_index d pages); try done.
  - lia.
  - case_decide; [lia | done].
Qed.

(** The counting loop of [fetch_log_page], started on the comma that ends
    the entry before [pages], stops on the comma before the last [d] after
    as many turns as there are entries in between. *)
Lemma fetch_count_manifest d pages : ∀ fuel pre count i k,
  last_pos d pages = Some i → last_index d pages = Some k →
  Z.of_nat (length (pre ++ comma :: manifest_of pages)) < npos →
  0 ≤ count → count + k < 2 ^ 32 → k ≤ Z.of_nat fuel →
  fetch_count fuel (pre ++ comma :: manifest_of pages)
    (Z.of_nat (length pre + i)) (Z.of_nat (length pre)) count
  = Some (count + k).
Proof.
  induction pages as [|x pages IH]; intros fuel pre count i k Hi Hk Hlen Hc Hck Hf;
    [done|].
  simpl in Hi, Hk. pose proof (last_pos_index d pages) as Hpi.
  destruct (last_pos d pages) as [i'|] eqn:Hi',
    (last_index d pages) as [k'|] eqn:Hk'; try done.
  - injection Hi as <-. injection Hk as <-.
    destruct fuel as [|fuel]; [lia|]. cbn [fetch_count].
    rewrite decide_False by lia.
    rewrite manifest_of_cons in *.
    replace (u64 (Z.of_nat (length pre) + 1))
      with (Z.of_nat (length (pre ++ [comma]))).
    2:{ rewrite length_app in *. simpl in *. rewrite u64_small; unfold npos in *; lia. }
    replace (pre ++ comma :: to_string x ++ comma :: manifest_of pages)
      with ((pre ++ [comma]) ++ to_string x ++ comma :: manifest_of pages)
      in * by (by rewrite <- app_assoc).
    rewrite find_comma_after by (done || apply to_string_no_comma).
    rewrite u32_small by lia.
    replace (((pre ++ [comma]) ++ to_string x ++ comma :: manifest_of pages))
      with ((pre ++ [comma] ++ to_string x) ++ comma :: manifest_of pages)
      in * by (by rewrite <- !app_assoc).
    specialize (IH fuel (pre ++ [comma] ++ to_string x) (count + 1) i' k').
    rewrite !length_app in IH. simpl in IH.
    replace (length pre + (S (length (to_string x)) + i'))%nat
      with (length pre + S (length (to_string x)) + i')%nat by lia.
    rewrite length_app. simpl.
    replace (length pre + 1 + length (to_string x))%nat
      with (length pre + S (length (to_string x)))%nat by lia.
    match goal with
    | |- fetch_count _ _ (Z.of_nat ?a) _ _ = _ =>
        replace a with (length pre + S (length (to_string x)) + i')%nat by lia
    end.
    rewrite IH; [f_equal; lia|done..| | | |]; try lia.
    rewrite !length_app in Hlen. simpl in Hlen. lia.
  - case_decide; [|done]. injection Hi as <-. injection Hk as <-.
    destruct fuel; simpl; rewrite decide_True by (f_equal; lia); f_equal; lia.
Qed.

(** [fetch_log_page] on the manifest of a sequence of pages returns the
    index of the last occurrence. *)
Lemma fetch_log_page_last_index pages d :
  Z.of_nat (length (manifest_of pages)) < npos →
  Z.of_nat (length pages) < 2 ^ 32 →
  fetch_log_page (manifest_of pages) d = Some (last_index d pages).
Proof.
  intros Hlen Hn. destruct pages as [|x pages]; [done|].
  rewrite manifest_of_cons in *. unfold fetch_log_page.
  rewrite decide_False by (by destruct (to_string x)).
  unfold rfind. rewrite find_last_skip by apply to_string_no_comma.
  rewrite find_last_manifest. cbn [last_index].
  pose proof (last_pos_index d pages) as Hpi.
  destruct (last_pos d pages) as [i|] eqn:Hi,
    (last_index d pages) as [k|] eqn:Hk; try done; cbn [fmap option_fmap option_map].
  - rewrite length_app in Hlen. simpl in Hlen, Hn.
    rewrite decide_False by lia.
    pose proof (find_comma_after [] (to_string x) (manifest_of pages)
                  (to_string_no_comma x)) as Hfirst.
    cbn [app length Nat.add] in Hfirst. change (Z.of_nat 0) with 0 in Hfirst.
    rewrite Hfirst by (rewrite length_app; simpl; lia).
    pose proof (fetch_count_manifest d pages
                  (S (length (to_string x ++ comma :: manifest_of pages)))
                  (to_string x) 0 i k Hi Hk) as Hcount.
    rewrite Hcount.
    + cbn [mbind option_bind]. rewrite u32_small by lia. do 2 f_equal; lia.
    + rewrite length_app. simpl. lia.
    + lia.
    + lia.
    + rewrite length_app. simpl. pose proof (manifest_of_length_ge pages). lia.
  - rewrite decide_True by done.
    pose proof (find_at_0 (to_string x ++ comma :: manifest_of pages)
                  (to_string d ++ [comma])) as H0.
    rewrite starts_with_token in H0.
    destruct (decide (x = d)) as [Hxd|Hxd].
    + rewrite decide_True; [done|]. apply H0. by rewrite bool_decide_true.
    + rewrite decide_False; [done|]. intros H1%H0.
      by rewrite bool_decide_false in H1.
Qed.

End Strings.

(** ** The number of entries of a manifest *)

Section Count.

Import Str.

Lemma find_comma_none pre :
  find (pre ++ [comma]) [comma] (Z.of_nat (length pre) + 1) = npos.
Proof.
  unfold find. rewrite decide_True by (rewrite length_app; simpl; lia).
  replace (Z.to_nat (Z.of_nat (length pre) + 1))
    with (length (pre ++ [comma])) by (rewrite length_app; simpl; lia).
  by rewrite drop_all.
Qed.

(** The counting loop of [next_free_log_page], started on the comma that
    ends the entry before [pages], counts that comma and one per entry of
    [pages]. *)
Lemma count_commas_manifest pages : ∀ fuel pre count,
  Z.of_nat (length (pre ++ comma :: manifest_of pages)) < npos →
  0 ≤ count → count + 1 + Z.of_nat (length pages) < 2 ^ 32 →
  (length pages < fuel)%nat →
  count_commas fuel (pre ++ comma :: manifest_of pages)
    (Z.of_nat (length pre)) count
  = Some (count + 1 + Z.of_nat (length pages)).
Proof.
  induction pages as [|x pages IH]; intros fuel pre count Hlen Hc Hck Hf.
  - destruct fuel as [|fuel]; [simpl in Hf; lia|]. cbn [count_commas].
    rewrite length_app in Hlen. simpl in Hlen.
    rewrite decide_False by lia.
    rewrite u64_small by (unfold npos in *; lia).
    rewrite u32_small by (simpl in Hck; lia).
    change (manifest_of []) with (@nil ascii). rewrite find_comma_none.
    destruct fuel; cbn [count_commas]; rewrite decide_True by done;
      f_equal; simpl; lia.
  - destruct fuel as [|fuel]; [simpl in Hf; lia|]. cbn [count_commas].
    rewrite manifest_of_cons in *. rewrite !length_app in Hlen.
    cbn [length] in Hlen, Hck, Hf. rewrite length_app in Hlen.
    cbn [length] in Hlen.
    rewrite decide_False by lia.
    replace (u64 (Z.of_nat (length pre) + 1))
      with (Z.of_nat (length (pre ++ [comma])))
      by (rewrite length_app; simpl; rewrite u64_small; unfold npos in *; lia).
    replace (pre ++ comma :: to_string x ++ comma :: manifest_of pages)
      with ((pre ++ [comma]) ++ to_string x ++ comma :: manifest_of pages)
      by (by rewrite <- app_assoc).
    rewrite find_comma_after;
      [|apply to_string_no_comma|rewrite !length_app; simpl; lia].
    rewrite u32_small by lia.
    replace ((pre ++ [comma]) ++ to_string x ++ comma :: manifest_of pages)
      with (((pre ++ [comma]) ++ to_string x) ++ comma :: manifest_of pages)
      by (by rewrite <- !app_assoc).
    rewrite <- length_app.
    rewrite IH; [cbn [length]; f_equal; lia| | | |]; try lia.
    rewrite !length_app. simpl. lia.
Qed.

Lemma count_commas_of_manifest pages :
  Forall (λ p, 0 ≤ p < 2 ^ 32) pages →
  Z.of_nat (length pages) < 2 ^ 32 →
  count_commas (S (length (manifest_of pages))) (manifest_of pages)
    (find (manifest_of pages) [comma] 0) 0
  = Some (Z.of_nat (length pages)).
Proof.
  intros Hp Hn. pose proof (manifest_of_length_le pages Hp) as Hle.
  pose proof (manifest_of_length_ge pages) as Hge.
  destruct pages as [|x pages]; [done|].
  rewrite manifest_of_cons in *. rewrite length_app in Hle, Hge.
  cbn [length] in Hle, Hge, Hn.
  pose proof (find_comma_after [] (to_string x) (manifest_of pages)
                (to_string_no_comma x)) as Hfirst.
  cbn [app length Nat.add] in Hfirst. change (Z.of_nat 0) with 0 in Hfirst.
  rewrite Hfirst by (rewrite length_app; simpl; unfold npos; lia).
  rewrite count_commas_manifest.
  - f_equal. simpl. lia.
  - rewrite length_app. simpl. unfold npos. lia.
  - lia.
  - lia.
  - rewrite length_app. simpl.
    pose proof (manifest_of_length_ge pages). lia.
Qed.

Lemma manifest_of_singleton p : manifest_of [p] = to_string p ++ [comma].
Proof. unfold manifest_of. cbn [fmap list_fmap concat]. apply app_nil_r. Qed.

End Count.

(** * Consequences of a well-formed geometry *)

Section Geometry.

Context (g : geometry) (Hg : geometry_ok g).

Local Abbreviation BS := (BLOCK_SIZE g).

Lemma BLOCK_SIZE_pos : 0 < BS.
Proof using Hg. unfold geometry_ok in Hg. tauto. Qed.

Lemma BLOCK_ERASES_range : 0 < BLOCK_ERASES g < 2 ^ 32 - 1.
Proof using Hg. unfold geometry_ok in Hg. tauto. Qed.

Lemma RAW_SIZE_blocks : RAW_SIZE g = NUM_OF_PHY_B g * BS.
Proof using Hg.
  destruct Hg as (?&?&?&?&?&?&?&?&?).
  unfold NUM_OF_PHY_B, RAW_SIZE. rewrite u32_small by nia.
  by rewrite Z.div_mul by lia.
Qed.

Lemma RAW_SIZE_range : 0 < RAW_SIZE g < 2 ^ 31.
Proof using Hg.
  destruct Hg as (?&?&?&?&?&?&?&?&?).
  unfold RAW_SIZE. rewrite u32_small by nia. nia.
Qed.

Lemma NUM_OF_PHY_B_range : 0 < NUM_OF_PHY_B g < 2 ^ 31.
Proof using Hg.
  pose proof RAW_SIZE_blocks. pose proof RAW_SIZE_range.
  pose proof BLOCK_SIZE_pos. nia.
Qed.

Lemma BLOCK_SIZE_range : 0 < BS < 2 ^ 31.
Proof using Hg.
  pose proof RAW_SIZE_blocks. pose proof RAW_SIZE_range.
  pose proof BLOCK_SIZE_pos. pose proof NUM_OF_PHY_B_range. nia.
Qed.

Lemma OP_SIZE_blocks : ∃ q, 0 ≤ q ≤ NUM_OF_PHY_B g ∧ OP_SIZE g = q * BS.
Proof using Hg.
  pose proof RAW_SIZE_blocks as Hraw. pose proof RAW_SIZE_range as Hr.
  pose proof BLOCK_SIZE_pos as Hbs.
  destruct Hg as (_&_&_&_&_&_&_&Hop&Hmod).
  apply Z.mod_divide in Hmod as [q Hq]; [|lia].
  exists q. unfold OP_SIZE. rewrite Hq.
  replace (q * (100 * BS)) with (q * BS * 100) by lia.
  rewrite Z.div_mul by lia. split; [|done]. nia.
Qed.

Lemma USABLE_SIZE_blocks : USABLE_SIZE g = NUM_OF_LGC_B g * BS.
Proof using Hg.
  pose proof RAW_SIZE_blocks as Hraw. pose proof NUM_OF_PHY_B_range as Hn.
  pose proof BLOCK_SIZE_pos as Hbs.
  destruct OP_SIZE_blocks as (q & Hq & Hop).
  unfold NUM_OF_LGC_B, USABLE_SIZE. rewrite Hraw, Hop.
  replace (NUM_OF_PHY_B g * BS - q * BS) with ((NUM_OF_PHY_B g - q) * BS)
    by lia.
  rewrite Z.div_mul by lia. rewrite u32_small by lia. done.
Qed.

Lemma NUM_OF_LGC_B_range : 0 ≤ NUM_OF_LGC_B g ≤ NUM_OF_PHY_B g.
Proof using Hg.
  pose proof RAW_SIZE_blocks as Hraw. pose proof NUM_OF_PHY_B_range as Hn.
  pose proof BLOCK_SIZE_pos as Hbs. pose proof USABLE_SIZE_blocks as Hu.
  destruct OP_SIZE_blocks as (q & Hq & Hop).
  unfold USABLE_SIZE in Hu. nia.
Qed.

Lemma USABLE_SIZE_range : 0 ≤ USABLE_SIZE g ≤ RAW_SIZE g.
Proof using Hg.
  pose proof RAW_SIZE_blocks. pose proof USABLE_SIZE_blocks.
  pose proof NUM_OF_LGC_B_range. pose proof BLOCK_SIZE_pos. nia.
Qed.

(** The logical block of an address below [USABLE_SIZE]. *)
Lemma logical_block_range L :
  0 ≤ L < USABLE_SIZE g → 0 ≤ L / BS < NUM_OF_LGC_B g.
Proof using Hg.
  intros HL. pose proof BLOCK_SIZE_pos. rewrite USABLE_SIZE_blocks in HL.
  split; [apply Z.div_pos; lia|]. apply Z.div_lt_upper_bound; lia.
Qed.

(** The block of a physical address below [RAW_SIZE]. *)
Lemma physical_block_range P :
  0 ≤ P < RAW_SIZE g → 0 ≤ P / BS < NUM_OF_PHY_B g.
Proof using Hg.
  intros HP. pose proof BLOCK_SIZE_pos. rewrite RAW_SIZE_blocks in HP.
  split; [apply Z.div_pos; lia|]. apply Z.div_lt_upper_bound; lia.
Qed.

Lemma check_physical_address_defined st L :
  tables_allocated g st → 0 ≤ L < USABLE_SIZE g →
  is_Some (check_physical_address g st L).
Proof using Hg.
  intros (_&_&Hlen&_) HL. unfold check_physical_address.
  pose proof (logical_block_range L HL). pose proof NUM_OF_LGC_B_range.
  pose proof NUM_OF_PHY_B_range.
  rewrite s32_small by lia.
  destruct (arr_get_is_Some (logical_to_physical st) (L / BS)) as [_ [o Ho]];
    [lia|].
  rewrite Ho. by eexists.
Qed.

End Geometry.

(** * Computations on the state *)

Lemma bind_unfold {A B} (m : M A) (f : A → M B) st :
  (m ≫= f) st = match m st with Some (a, st') => f a st' | None => None end.
Proof. done. Qed.

Lemma bind_Some {A B} (m : M A) (f : A → M B) st b st'' :
  (m ≫= f) st = Some (b, st'') ↔
  ∃ a st', m st = Some (a, st') ∧ f a st' = Some (b, st'').
Proof.
  rewrite bind_unfold. destruct (m st) as [[a st']|]; [|naive_solver].
  split; [eauto|]. by intros (? & ? & [= <- <-] & ?).
Qed.

Lemma reads_Some {A} (f : ftl_state → option A) st a st' :
  reads f st = Some (a, st') ↔ f st = Some a ∧ st' = st.
Proof. unfold reads. destruct (f st); naive_solver. Qed.

Lemma writes_Some (f : ftl_state → option ftl_state) st u st' :
  writes f st = Some (u, st') ↔ f st = Some st'.
Proof. unfold writes. destruct u, (f st); naive_solver. Qed.

Lemma mret_Some {A} (a b : A) (st st' : ftl_state) :
  mret (M := M) a st = Some (b, st') ↔ a = b ∧ st = st'.
Proof. unfold mret, M_ret. naive_solver. Qed.

(** * The read path *)

Section Read.

Context (g : geometry).

Lemma translate_READ ev st :
  ev_type ev = READ → logical_address ev < USABLE_SIZE g →
  translate g ev st
  = match read_outcome g st (logical_address ev) with
    | None => None
    | Some None => Some ((FAILURE, ev), with_start_time st (ev_start_time ev))
    | Some (Some a) =>
        Some ((SUCCESS, set_address ev a),
              with_start_time st (ev_start_time ev))
    end.
Proof.
  intros Hty Hla. unfold translate, read_outcome.
  rewrite decide_False by lia. rewrite bind_unfold. cbn beta iota.
  rewrite bind_unfold. unfold reads at 1.
  change (check_physical_address g (with_start_time st (ev_start_time ev)))
    with (check_physical_address g st).
  destruct (check_physical_address g st (logical_address ev)) as [pa|];
    [|done].
  cbn [mbind option_bind]. cbn beta iota.
  destruct (map_physical_to_SSD g pa) as [[[[package die] plane] block] page].
  rewrite Hty. unfold translate_read. rewrite bind_unfold. unfold reads at 1.
  change (check_page_empty (with_start_time st (ev_start_time ev)))
    with (check_page_empty st).
  destruct (check_page_empty st (logical_address ev)) as [[|]|]; try done.
  cbn [mbind option_bind]. cbn beta iota.
  rewrite bind_unfold. unfold reads at 1.
  change (check_log_block g (with_start_time st (ev_start_time ev)))
    with (check_log_block g st).
  destruct (check_log_block g st (u64 (pa - page))) as [[la|]|]; try done.
  cbn [mbind option_bind]. cbn beta iota.
  rewrite bind_unfold. unfold reads at 1.
  change (log_to_pages (with_start_time st (ev_start_time ev)))
    with (log_to_pages st).
  destruct (log_to_pages st !! la) as [offsets|]; [|done].
  cbn [mbind option_bind]. cbn beta iota.
  rewrite bind_unfold. unfold reads at 1.
  destruct (fetch_log_page offsets page) as [[k|]|]; done.
Qed.

Lemma read_outcome_frame st st' la :
  mapping_state st' = mapping_state st →
  read_outcome g st' la = read_outcome g st la.
Proof.
  unfold mapping_state. intros [= He Hp Hd Hm Hc Ho].
  unfold read_outcome, check_physical_address, check_page_empty,
    check_log_block.
  by rewrite He, Hp, Hd, Hm.
Qed.

End Read.

(** * The index of the last occurrence *)

Lemma last_index_range d pages k :
  last_index d pages = Some k → 0 ≤ k < Z.of_nat (length pages).
Proof.
  revert k. induction pages as [|x pages IH]; intros k; [done|]. simpl.
  destruct (last_index d pages) as [k'|].
  - intros [= <-]. specialize (IH k' eq_refl). lia.
  - case_decide; [|done]. intros [= <-]. lia.
Qed.

Lemma last_index_None d pages : last_index d pages = None ↔ d ∉ pages.
Proof.
  induction pages as [|x pages IH]; simpl.
  - split; [intros _; apply not_elem_of_nil | done].
  - rewrite not_elem_of_cons. destruct (last_index d pages) as [k|].
    + split; [done|]. intros [_ H]. by apply IH in H.
    + case_decide; [subst; split; [done | tauto] |].
      split; [intros _; split; [congruence | by apply IH] | done].
Qed.

Lemma last_index_Some d pages k :
  last_index d pages = Some k ↔
  0 ≤ k ∧ pages !! Z.to_nat k = Some d
  ∧ ∀ j, (Z.to_nat k < j)%nat → pages !! j ≠ Some d.
Proof.
  revert k. induction pages as [|x pages IH]; intros k; simpl.
  - split; [done | by intros (_ & ? & _)].
  - destruct (last_index d pages) as [k'|] eqn:Hk'.
    + pose proof (last_index_range _ _ _ Hk') as Hr.
      destruct (IH k') as [(_ & Hlook & Hlast) _]; [done|].
      split.
      * intros [= <-]. split; [lia|].
        replace (Z.to_nat (k' + 1)) with (S (Z.to_nat k')) by lia.
        split; [done|]. intros [|j] Hj; [lia|]. simpl. apply Hlast. lia.
      * intros (Hk & Hlook' & Hlast'). f_equal.
        destruct (Z.to_nat k) as [|n] eqn:Hn.
        { exfalso. apply (Hlast' (S (Z.to_nat k'))); [lia | done]. }
        simpl in Hlook'.
        destruct (decide (n < Z.to_nat k')%nat).
        { exfalso. apply (Hlast' (S (Z.to_nat k'))); [lia | done]. }
        destruct (decide (Z.to_nat k' < n)%nat).
        { exfalso. by apply (Hlast n). }
        lia.
    + apply last_index_None in Hk'. case_decide as Hxd.
      * subst x. split.
        -- intros [= <-]. split; [lia|]. split; [done|].
           intros [|j] Hj; [lia|]. simpl. intros Hin.
           apply Hk'. by eapply list_elem_of_lookup_2.
        -- intros (Hk & Hlook & _). f_equal.
           destruct (Z.to_nat k) as [|n] eqn:Hn; [lia|]. simpl in Hlook.
           exfalso. apply Hk'. by eapply list_elem_of_lookup_2.
      * split; [done|]. intros (Hk & Hlook & _).
        destruct (Z.to_nat k) as [|n] eqn:Hn; simpl in Hlook; [congruence|].
        exfalso. apply Hk'. by eapply list_elem_of_lookup_2.
Qed.

(** * Claims on the read path *)





(** C8: a READ processed by [translate] leaves the bitmap, both offset
    tables, the manifests, the erase counts and the pool as they were and
    issues no event; hence a second READ of the same logical address,
    translated right after, returns the same status and, on success, the
    same physical page. *)
Theorem read_leaves_mapping_unchanged g ev st r ev' st' :
  ev_type ev = READ →
  translate g ev st = Some ((r, ev'), st') →
  mapping_state st' = mapping_state st
  ∧ issued st' = issued st
  ∧ ∀ ev2, ev_type ev2 = READ → logical_address ev2 = logical_address ev →
      ∃ ev2' st2',
        translate g ev2 st' = Some ((r, ev2'), st2')
        ∧ mapping_state st2' = mapping_state st
        ∧ (r = SUCCESS → address ev2' = address ev').
Proof.
  intros Hty Htr.
  destruct (decide (USABLE_SIZE g ≤ logical_address ev)) as [Hout|Hin].
  - unfold translate in Htr. rewrite decide_True in Htr by done.
    apply mret_Some in Htr as [[= <- <-] <-].
    split_and!; [done..|]. intros ev2 Hty2 Hla2.
    exists ev2, st. unfold translate. rewrite Hla2, decide_True by done.
    done.
  - rewrite translate_READ in Htr by (done || lia).
    destruct (read_outcome g st (logical_address ev)) as [[a|]|] eqn:Hout;
      [| |done]; injection Htr as <- <- <-.
    + split_and!; [done..|]. intros ev2 Hty2 Hla2.
      eexists _, _. rewrite translate_READ by (done || lia).
      rewrite (read_outcome_frame g st) by done. rewrite Hla2, Hout.
      done.
    + split_and!; [done..|]. intros ev2 Hty2 Hla2.
      eexists _, _. rewrite translate_READ by (done || lia).
      rewrite (read_outcome_frame g st) by done. rewrite Hla2, Hout.
      done.
Qed.

Lemma read_leaves_mapping_unchanged_witness :
  mapping_state (with_start_time st_full_log 7) = mapping_state st_full_log
  ∧ issued (with_start_time st_full_log 7) = issued st_full_log
  ∧ ∀ ev2, ev_type ev2 = READ →
      logical_address ev2 = logical_address (new_Event READ 0 1 7) →
      ∃ ev2' st2',
        translate g0 ev2 (with_start_time st_full_log 7)
        = Some ((SUCCESS, ev2'), st2')
        ∧ mapping_state st2' = mapping_state st_full_log
        ∧ (SUCCESS = SUCCESS →
           address ev2'
           = address (set_address (new_Event READ 0 1 7) (page_of g0 12 3))).
Proof.
  apply (read_leaves_mapping_unchanged g0 (new_Event READ 0 1 7) st_full_log).
  - reflexivity.
  - vm_compute. reflexivity.
Defined.

(** * Cleaning *)

Section Clean.

Context (g : geometry).

Local Abbreviation BS := (BLOCK_SIZE g).

Lemma with_issued_twice st l1 l2 :
  with_issued (with_issued st l1) l2 = with_issued st l2.
Proof. done. Qed.

Lemma with_issued_same st : with_issued st (issued st) = st.
Proof. by destruct st. Qed.

Lemma issue_at_Some t la a st u st' :
  issue_at t la a st = Some (u, st') ↔
  st' = with_issued st (issued st ++ [event_at (start_time st) t la a]).
Proof. unfold issue_at, issue. destruct u. naive_solver. Qed.

(** A loop whose body only appends events, chosen from parts of the state
    that appending does not change. *)
Lemma for_each_appends (P : ftl_state → Prop) (body : Z → M unit)
    (evs : ftl_state → Z → list Event) :
  (∀ i st st', P st → body i st = Some ((), st') →
               st' = with_issued st (issued st ++ evs st i)) →
  (∀ st l, P st → P (with_issued st l)) →
  (∀ st l i, evs (with_issued st l) i = evs st i) →
  ∀ ixs st st',
    P st → for_each body ixs st = Some ((), st') →
    st' = with_issued st (issued st ++ flat_map (evs st) ixs).
Proof.
  intros Hbody HP Hevs. induction ixs as [|i ixs IH]; intros st st' Hst H.
  - apply mret_Some in H as [_ <-]. simpl.
    by rewrite app_nil_r, with_issued_same.
  - cbn [for_each] in H. apply bind_Some in H as ([] & st1 & H1 & H2).
    apply Hbody in H1; [|done]. subst st1. apply IH in H2; [|by apply HP].
    subst st'. simpl.
    rewrite with_issued_twice. f_equal.
    rewrite <- app_assoc. do 2 f_equal.
    apply flat_map_ext. intros. apply Hevs.
Qed.

Lemma written_issued st l la : written (with_issued st l) la = written st la.
Proof. done. Qed.

Lemma clean_copy_out_appends lb data_pba log_pba cln_pba st0 i st st' :
  log_to_pages st = log_to_pages st0 →
  clean_copy_out g lb data_pba log_pba cln_pba (log_to_pages st0 !! log_pba)
    i st = Some ((), st') →
  st' = with_issued st
          (issued st ++
           if written st (u64 (lb + i))
           then [event_at (start_time st) READ (u64 (lb + i))
                   (merge_source g st data_pba log_pba i);
                 event_at (start_time st) WRITE (u64 (lb + i))
                   (page_of g cln_pba i)]
           else []).
Proof.
  intros Hman H. unfold clean_copy_out in H.
  apply bind_Some in H as (e & st1 & [He ->]%reads_Some & H).
  unfold written, merge_source. rewrite He, Hman. destruct e.
  - apply mret_Some in H as [_ <-]. by rewrite app_nil_r, with_issued_same.
  - apply bind_Some in H as (offsets & st1 & [Ho ->]%reads_Some & H).
    apply bind_Some in H as (r & st1 & [Hr ->]%reads_Some & H).
    apply bind_Some in H as ([] & st1 & ->%issue_at_Some & ->%issue_at_Some).
    rewrite Ho. cbn [mbind option_bind]. rewrite Hr.
    rewrite with_issued_twice. simpl. rewrite <- app_assoc.
    by destruct r.
Qed.

Lemma copy_back_appends lb src dst i st st' :
  clean_copy_back g lb dst src i st = Some ((), st') →
  st' = with_issued st
          (issued st ++
           if written st (u64 (lb + i))
           then [event_at (start_time st) READ (u64 (lb + i)) (page_of g src i);
                 event_at (start_time st) WRITE (u64 (lb + i)) (page_of g dst i)]
           else []).
Proof.
  intros H. unfold clean_copy_back in H.
  apply bind_Some in H as (e & st1 & [He ->]%reads_Some & H).
  unfold written. rewrite He. destruct e.
  - apply mret_Some in H as [_ <-]. by rewrite app_nil_r, with_issued_same.
  - apply bind_Some in H as ([] & st1 & ->%issue_at_Some & ->%issue_at_Some).
    rewrite with_issued_twice. simpl. by rewrite <- app_assoc.
Qed.

Lemma update_erase_count_Some st pa st' :
  update_erase_count g st pa = Some st' ↔
  ∃ c, arr_get (erase_count st) (pa / BS) = Some c
       ∧ st' = with_erase_count st
                 (<[Z.to_nat (pa / BS) := u32 (c + 1)]> (erase_count st)).
Proof.
  unfold update_erase_count.
  destruct (arr_get (erase_count st) (pa / BS)) as [c|] eqn:Hc;
    cbn [mbind option_bind]; [|naive_solver].
  assert (is_Some (arr_get (erase_count st) (pa / BS)))
    as Hin%arr_get_is_Some by eauto.
  unfold arr_set. rewrite decide_True by done. cbn [mbind option_bind].
  naive_solver.
Qed.

(** What a successful [clean] does to the state. *)
Lemma clean_success lb data_pba log_pba st st' :
  clean g lb data_pba log_pba st = Some (true, st') →
  ∃ cln_pba c1 c2 c3,
    find_empty_data_block_for_cleaning g st 0 = Some (true, cln_pba)
    ∧ arr_get (erase_count st) (data_pba / BS) = Some c1
    ∧ arr_get (<[Z.to_nat (data_pba / BS) := u32 (c1 + 1)]> (erase_count st))
        (log_pba / BS) = Some c2
    ∧ arr_get (<[Z.to_nat (log_pba / BS) := u32 (c2 + 1)]>
                 (<[Z.to_nat (data_pba / BS) := u32 (c1 + 1)]> (erase_count st)))
        (cln_pba / BS) = Some c3
    ∧ st' = with_erase_count
              (with_issued st
                 (issued st
                  ++ merge_out_events g st lb data_pba log_pba cln_pba
                  ++ [erase_event g st lb data_pba; erase_event g st lb log_pba]
                  ++ copy_events g st lb cln_pba data_pba
                  ++ [erase_event g st lb cln_pba]))
              (<[Z.to_nat (cln_pba / BS) := u32 (c3 + 1)]>
                 (<[Z.to_nat (log_pba / BS) := u32 (c2 + 1)]>
                    (<[Z.to_nat (data_pba / BS) := u32 (c1 + 1)]>
                       (erase_count st)))).
Proof.
  intros H. unfold clean in H.
  apply bind_Some in H as ([found cln_pba] & st1 & [Hfind ->]%reads_Some & H).
  cbn [fst snd] in H. destruct found; cbn [negb] in H.
  2:{ by apply mret_Some in H as [? _]. }
  apply bind_Some in H as (log_pages & st1 & [[= <-] ->]%reads_Some & H).
  apply bind_Some in H as ([] & st1 & H1 & H).
  apply (for_each_appends (λ s, log_to_pages s = log_to_pages st) _
           (λ st i, if written st (u64 (lb + i))
                    then [event_at (start_time st) READ (u64 (lb + i))
                            (merge_source g st data_pba log_pba i);
                          event_at (start_time st) WRITE (u64 (lb + i))
                            (page_of g cln_pba i)]
                    else [])) in H1;
    [|by intros; eapply clean_copy_out_appends|done..].
  apply bind_Some in H as ([] & st2 & ->%issue_at_Some & H).
  apply bind_Some in H as ([] & st3 & ->%issue_at_Some & H).
  apply bind_Some in H as ([] & st4 & H4 & H).
  apply (for_each_appends (λ _, True) _
           (λ st i, if written st (u64 (lb + i))
                    then [event_at (start_time st) READ (u64 (lb + i))
                            (page_of g cln_pba i);
                          event_at (start_time st) WRITE (u64 (lb + i))
                            (page_of g data_pba i)]
                    else [])) in H4;
    [|by intros; eapply copy_back_appends|done..].
  apply bind_Some in H as ([] & st5 & ->%issue_at_Some & H).
  apply bind_Some in H as ([] & st6 & (c1 & Hc1 & ->)%writes_Some%update_erase_count_Some & H).
  apply bind_Some in H as ([] & st7 & (c2 & Hc2 & ->)%writes_Some%update_erase_count_Some & H).
  apply bind_Some in H as ([] & st8 & (c3 & Hc3 & ->)%writes_Some%update_erase_count_Some & H).
  apply mret_Some in H as [_ <-].
  subst st1 st4. exists cln_pba, c1, c2, c3.
  split_and!; [done..|].
  unfold merge_out_events, copy_events, erase_event.
  cbn [issued start_time erase_count logical_to_emptiness logical_to_physical
       data_to_log log_to_pages op_blocks with_issued with_erase_count].
  rewrite <- !app_assoc. reflexivity.
Qed.

End Clean.

Lemma arr_get_insert (a : list Z) i v j :
  0 ≤ i →
  arr_get (<[Z.to_nat i := v]> a) j
  = if decide (i = j) then const v <$> arr_get a j else arr_get a j.
Proof.
  intros Hi. case_decide as Hij.
  - subst j. unfold arr_get. rewrite !decide_True by done.
    destruct (a !! Z.to_nat i) eqn:Hl; simpl.
    + apply list_lookup_insert_eq. by eapply lookup_lt_Some.
    + apply lookup_ge_None. rewrite length_insert. by apply lookup_ge_None.
  - by apply arr_get_set_ne.
Qed.

(** C1: when [clean(logical_block, D, Λ)] returns success with [S] the
    scratch block found by [find_empty_data_block_for_cleaning], and [D],
    [Λ] and [S] are three different blocks, the events issued are, in this
    order: for each written page [i] of the logical block a READ (at page
    [k] of [Λ] when [fetch_log_page] finds [i] at index [k] of the manifest
    of [Λ], at page [i] of [D] otherwise) and a WRITE at page [i] of [S];
    the ERASE of [D]; the ERASE of [Λ]; for each written page [i] a READ at
    page [i] of [S] and a WRITE at page [i] of [D]; the ERASE of [S]. The
    erase counts of [D], [Λ] and [S] are each incremented by one (as
    [unsigned int]) and no other erase count changes; nothing else in the
    state changes. *)
Theorem clean_events_and_counts g logical_block D Λ S st st' :
  clean g logical_block D Λ st = Some (true, st') →
  find_empty_data_block_for_cleaning g st 0 = Some (true, S) →
  D / BLOCK_SIZE g ≠ Λ / BLOCK_SIZE g →
  D / BLOCK_SIZE g ≠ S / BLOCK_SIZE g →
  Λ / BLOCK_SIZE g ≠ S / BLOCK_SIZE g →
  issued st'
  = issued st
    ++ merge_out_events g st logical_block D Λ S
    ++ [erase_event g st logical_block D; erase_event g st logical_block Λ]
    ++ copy_events g st logical_block S D
    ++ [erase_event g st logical_block S]
  ∧ (∀ b, b = D / BLOCK_SIZE g ∨ b = Λ / BLOCK_SIZE g ∨ b = S / BLOCK_SIZE g →
          ∃ c, arr_get (erase_count st) b = Some c
               ∧ arr_get (erase_count st') b = Some (u32 (c + 1)))
  ∧ (∀ b, b ≠ D / BLOCK_SIZE g → b ≠ Λ / BLOCK_SIZE g → b ≠ S / BLOCK_SIZE g →
          arr_get (erase_count st') b = arr_get (erase_count st) b)
  ∧ logical_to_emptiness st' = logical_to_emptiness st
  ∧ logical_to_physical st' = logical_to_physical st
  ∧ data_to_log st' = data_to_log st
  ∧ log_to_pages st' = log_to_pages st
  ∧ op_blocks st' = op_blocks st.
Proof.
  intros Hclean Hfind HDΛ HDS HΛS.
  apply clean_success in Hclean
    as (S' & c1 & c2 & c3 & Hfind' & Hc1 & Hc2 & Hc3 & ->).
  rewrite Hfind in Hfind'. injection Hfind' as <-.
  pose proof Hc1 as [HD0 _]%arr_get_Some.
  pose proof Hc2 as [HΛ0 _]%arr_get_Some.
  pose proof Hc3 as [HS0 _]%arr_get_Some.
  rewrite !arr_get_insert in Hc3 by done.
  rewrite !arr_get_insert in Hc2 by done.
  rewrite decide_False in Hc2 by done.
  rewrite !decide_False in Hc3 by done.
  split_and!; try done.
  - intros b Hb. cbn [erase_count with_erase_count].
    rewrite !arr_get_insert by done.
    destruct Hb as [->| [->| ->]].
    + rewrite decide_False, decide_False, decide_True by done.
      rewrite Hc1. by eexists.
    + rewrite decide_False, decide_True by done.
      rewrite decide_False by done. rewrite Hc2. by eexists.
    + rewrite decide_True by done. rewrite !decide_False by done.
      rewrite Hc3. by eexists.
  - intros b HbD HbΛ HbS. cbn [erase_count with_erase_count].
    rewrite !arr_get_insert by done. by rewrite !decide_False by done.
Qed.

Lemma clean_events_and_counts_witness :
  ∃ st',
    clean g0 0 0 12 st_full_log = Some (true, st')
    ∧ issued st'
      = issued st_full_log
        ++ merge_out_events g0 st_full_log 0 0 12 4
        ++ [erase_event g0 st_full_log 0 0; erase_event g0 st_full_log 0 12]
        ++ copy_events g0 st_full_log 0 4 0
        ++ [erase_event g0 st_full_log 0 4]
    ∧ (∀ b, b = 0 / BLOCK_SIZE g0 ∨ b = 12 / BLOCK_SIZE g0
            ∨ b = 4 / BLOCK_SIZE g0 →
            ∃ c, arr_get (erase_count st_full_log) b = Some c
                 ∧ arr_get (erase_count st') b = Some (u32 (c + 1)))
    ∧ (∀ b, b ≠ 0 / BLOCK_SIZE g0 → b ≠ 12 / BLOCK_SIZE g0 →
            b ≠ 4 / BLOCK_SIZE g0 →
            arr_get (erase_count st') b = arr_get (erase_count st_full_log) b)
    ∧ logical_to_emptiness st' = logical_to_emptiness st_full_log
    ∧ logical_to_physical st' = logical_to_physical st_full_log
    ∧ data_to_log st' = data_to_log st_full_log
    ∧ log_to_pages st' = log_to_pages st_full_log
    ∧ op_blocks st' = op_blocks st_full_log.
Proof.
  eexists. split; [vm_compute; reflexivity|].
  apply (clean_events_and_counts g0 0 0 12 4 st_full_log).
  - vm_compute. reflexivity.
  - vm_compute. reflexivity.
  - vm_compute. discriminate.
  - vm_compute. discriminate.
  - vm_compute. discriminate.
Defined.

(** * The wear-balancing shuffle *)

Section Loops.

Context {A : Type}.

Lemma for_fold_app (body : Z → A → option A) l1 l2 acc :
  for_fold body (l1 ++ l2) acc = for_fold body l1 acc ≫= for_fold body l2.
Proof.
  revert acc. induction l1 as [|i l1 IH]; intros acc; [done|]. simpl.
  destruct (body i acc) as [acc'|]; simpl; [apply IH | done].
Qed.

(** An invariant of the accumulator, indexed by the values already
    visited. *)
Lemma for_fold_inv (body : Z → A → option A) (I : list Z → A → Prop)
    l acc0 acc :
  I [] acc0 →
  (∀ l1 i acc1 acc2, I l1 acc1 → body i acc1 = Some acc2 → I (l1 ++ [i]) acc2) →
  for_fold body l acc0 = Some acc → I l acc.
Proof.
  intros H0 Hstep.
  cut (∀ l0 acc0, I l0 acc0 → for_fold body l acc0 = Some acc → I (l0 ++ l) acc).
  { intros Hcut. apply (Hcut [] acc0 H0). }
  induction l as [|i l IH]; intros l0 a0 HI Hfold.
  - injection Hfold as <-. by rewrite app_nil_r.
  - simpl in Hfold. destruct (body i a0) as [a1|] eqn:Hb; [|done].
    simpl in Hfold. replace (l0 ++ i :: l) with ((l0 ++ [i]) ++ l)
      by (by rewrite <- app_assoc).
    eapply IH; [|done]. by eapply Hstep.
Qed.

End Loops.

Section Shuffle.

Context (g : geometry).

Local Abbreviation BS := (BLOCK_SIZE g).

(** The third loop of [shuffle_data_log] selects a least-erased data block
    among those that have no log block. *)
Lemma shuffle_min_spec st l c0 a0 c a :
  for_fold (shuffle_min_step g st) l (c0, a0) = Some (c, a) →
  (∀ j a' c', j ∈ l → log_less_candidate g st j a' c' → c ≤ c')
  ∧ c ≤ c0
  ∧ ((c, a) = (c0, a0) ∨ c < c0 ∧ ∃ j, j ∈ l ∧ log_less_candidate g st j a c).
Proof.
  intros H.
  apply (for_fold_inv (shuffle_min_step g st)
           (λ l '(c, a),
              (∀ j a' c', j ∈ l → log_less_candidate g st j a' c' → c ≤ c')
              ∧ c ≤ c0
              ∧ ((c, a) = (c0, a0)
                 ∨ c < c0 ∧ ∃ j, j ∈ l ∧ log_less_candidate g st j a c))
           l (c0, a0) (c, a)); [| |done].
  - split_and!; [|lia|by left]. intros j a' c' Hj. by apply elem_of_nil in Hj.
  - clear. intros l1 i [c1 a1] [c2 a2] (Hmin & Hle & Hsel) Hstep.
    unfold shuffle_min_step in Hstep.
    destruct (check_physical_address g st (u32 (i * BS))) as [da|] eqn:Hda;
      [|done]. cbn [mbind option_bind] in Hstep.
    destruct (check_log_block g st da) as [[la|]|] eqn:Hlog; [| |done];
      cbn [mbind option_bind] in Hstep.
    + injection Hstep as <- <-. split_and!; [|done|].
      * intros j a' c' [Hj| ->%list_elem_of_singleton]%elem_of_app Hc;
          [by eapply Hmin|].
        destruct Hc as (Hc1 & Hc2 & _). congruence.
      * destruct Hsel as [?|(? & j & Hj & ?)]; [by left|right].
        split; [done|]. exists j. split; [|done]. apply elem_of_app. by left.
    + destruct (arr_get (erase_count st) (da / BS)) as [count|] eqn:Hcount;
        [|done]. cbn [mbind option_bind fst] in Hstep.
      case_decide as Hlt; injection Hstep as <- <-.
      * split_and!; [|lia|].
        -- intros j a' c' [Hj| ->%list_elem_of_singleton]%elem_of_app Hc.
           ++ specialize (Hmin j a' c' Hj Hc). lia.
           ++ destruct Hc as (Hc1 & Hc2 & Hc3). rewrite Hda in Hc1.
              injection Hc1 as <-. rewrite Hcount in Hc3. injection Hc3 as <-.
              lia.
        -- right. split; [lia|]. exists i. split.
           ++ apply elem_of_app. right. by apply list_elem_of_singleton.
           ++ done.
      * split_and!; [|lia|].
        -- intros j a' c' [Hj| ->%list_elem_of_singleton]%elem_of_app Hc.
           ++ by eapply Hmin.
           ++ destruct Hc as (Hc1 & Hc2 & Hc3). rewrite Hda in Hc1.
              injection Hc1 as <-. rewrite Hcount in Hc3. injection Hc3 as <-.
              lia.
        -- destruct Hsel as [?|(? & j & Hj & ?)]; [by left|right].
           split; [done|]. exists j. split; [|done]. apply elem_of_app. by left.
Qed.

(** The search for the logical block that owns [target]. *)
Lemma find_logical_block_spec st target l0 l lb :
  find_logical_block g st target l0 l = Some lb →
  (lb = l0 ∧ ∀ i, i ∈ l →
               ∃ a, check_physical_address g st (u32 (i * BS)) = Some a
                    ∧ a ≠ target)
  ∨ ∃ i, i ∈ l ∧ lb = u32 (i * BS)
         ∧ check_physical_address g st (u32 (i * BS)) = Some target.
Proof.
  induction l as [|i l IH]; simpl; intros H.
  - injection H as <-. left. split; [done|]. intros i Hi.
    by apply elem_of_nil in Hi.
  - destruct (check_physical_address g st (u32 (i * BS))) as [a|] eqn:Ha;
      [|done]. cbn [mbind option_bind] in H. case_decide as Heq.
    + injection H as <-. subst a. right. exists i. split; [left|done].
    + destruct (IH H) as [[-> Hall]|(j & Hj & -> & Hcpa)].
      * left. split; [done|]. intros j [->|Hj]%elem_of_cons; eauto.
      * right. exists j. split; [by right|done].
Qed.

(** The first loop of [shuffle_data_log] selects a data block with a log
    block mapped, neither of them at the erase limit. *)
Lemma shuffle_pair_spec st l acc0 maxc Λ D :
  for_fold (shuffle_pair_step g st) l acc0 = Some (maxc, Λ, D) →
  (maxc, Λ, D) = acc0
  ∨ ∃ i lc dc, i ∈ l ∧ D = u32 (i * BS)
      ∧ check_log_block g st D = Some (Some Λ)
      ∧ arr_get (erase_count st) (Λ / BS) = Some lc
      ∧ arr_get (erase_count st) (D / BS) = Some dc
      ∧ lc ≠ BLOCK_ERASES g ∧ dc ≠ BLOCK_ERASES g.
Proof.
  intros H. destruct acc0 as [[c0 Λ0] D0].
  apply (for_fold_inv (shuffle_pair_step g st)
           (λ l '(maxc, Λ, D),
              (maxc, Λ, D) = (c0, Λ0, D0)
              ∨ ∃ i lc dc, i ∈ l ∧ D = u32 (i * BS)
                  ∧ check_log_block g st D = Some (Some Λ)
                  ∧ arr_get (erase_count st) (Λ / BS) = Some lc
                  ∧ arr_get (erase_count st) (D / BS) = Some dc
                  ∧ lc ≠ BLOCK_ERASES g ∧ dc ≠ BLOCK_ERASES g)
           l (c0, Λ0, D0) (maxc, Λ, D)); [by left| |done].
  clear. intros l1 i [[c1 Λ1] D1] [[c2 Λ2] D2] Hsel Hstep.
  assert (∀ c Λ D,
             ((c, Λ, D) = (c0, Λ0, D0)
              ∨ ∃ i lc dc, i ∈ l1 ∧ D = u32 (i * BS)
                  ∧ check_log_block g st D = Some (Some Λ)
                  ∧ arr_get (erase_count st) (Λ / BS) = Some lc
                  ∧ arr_get (erase_count st) (D / BS) = Some dc
                  ∧ lc ≠ BLOCK_ERASES g ∧ dc ≠ BLOCK_ERASES g) →
             ((c, Λ, D) = (c0, Λ0, D0)
              ∨ ∃ i0 lc dc, i0 ∈ l1 ++ [i] ∧ D = u32 (i0 * BS)
                  ∧ check_log_block g st D = Some (Some Λ)
                  ∧ arr_get (erase_count st) (Λ / BS) = Some lc
                  ∧ arr_get (erase_count st) (D / BS) = Some dc
                  ∧ lc ≠ BLOCK_ERASES g ∧ dc ≠ BLOCK_ERASES g)) as Hweak.
  { intros c Λ D [?|(j & lc & dc & Hj & ?)]; [by left|right].
    exists j, lc, dc. split; [|done]. apply elem_of_app. by left. }
  unfold shuffle_pair_step in Hstep.
  destruct (check_log_block g st (u32 (i * BS))) as [[la|]|] eqn:Hlog;
    [| |done]; cbn [mbind option_bind] in Hstep.
  2:{ injection Hstep as <- <- <-. by apply Hweak. }
  destruct (arr_get (erase_count st) (la / BS)) as [lc|] eqn:Hlc; [|done].
  cbn [mbind option_bind] in Hstep.
  destruct (arr_get (erase_count st) (u32 (i * BS) / BS)) as [dc|] eqn:Hdc;
    [|done]. cbn [mbind option_bind] in Hstep.
  cbn [fst] in Hstep.
  destruct (bool_decide (lc ≠ BLOCK_ERASES g)) eqn:H1,
    (bool_decide (dc ≠ BLOCK_ERASES g)) eqn:H2,
    (bool_decide (c1 ≤ u32 (lc + dc))) eqn:H3;
    cbn [andb] in Hstep; injection Hstep as <- <- <-;
    try (by apply Hweak).
  apply bool_decide_eq_true in H1, H2.
  right. exists i, lc, dc. split_and!; try done.
  apply elem_of_app. right. by apply list_elem_of_singleton.
Qed.

Lemma push_back_Some x st u st' :
  push_back x st = Some (u, st') ↔ st' = with_op_blocks st (op_blocks st ++ [x]).
Proof. unfold push_back. destruct u. naive_solver. Qed.

Lemma shuffle_move_appends lb src dst i st st' :
  shuffle_move g lb src dst i st = Some ((), st') →
  st' = with_issued st
          (issued st ++
           if written st (u64 (lb + i))
           then [event_at (start_time st) READ (u64 (lb + i)) (page_of g src i);
                 event_at (start_time st) WRITE (u64 (lb + i)) (page_of g dst i)]
           else []).
Proof. apply copy_back_appends. Qed.

(** What a successful [shuffle_data_log] does, step by step. *)
Lemma shuffle_success st st' :
  shuffle_data_log g st = Some (true, st') →
  ∃ maxc Λ D lb minc Dmin st1 st2 lbmin st3,
    for_fold (shuffle_pair_step g st) (seqZ 0 (NUM_OF_PHY_B g))
      (0, RAW_SIZE g, RAW_SIZE g) = Some (maxc, Λ, D)
    ∧ D ≠ RAW_SIZE g ∧ Λ ≠ RAW_SIZE g
    ∧ find_logical_block g st D (RAW_SIZE g) (seqZ 0 (NUM_OF_LGC_B g)) = Some lb
    ∧ lb ≠ RAW_SIZE g
    ∧ for_fold (shuffle_min_step g st) (seqZ 0 (NUM_OF_LGC_B g))
        (u32 (BLOCK_ERASES g + 1), RAW_SIZE g) = Some (minc, Dmin)
    ∧ Dmin ≠ RAW_SIZE g ∧ minc < u32 (BLOCK_ERASES g - 1)
    ∧ clean g lb D Λ st = Some (true, st1)
    ∧ cancel_log_block g st1 D = Some st2
    ∧ find_logical_block g st2 Dmin (RAW_SIZE g) (seqZ 0 (NUM_OF_LGC_B g))
      = Some lbmin
    ∧ lbmin ≠ RAW_SIZE g
    ∧ set_physical_address g
        (with_issued st2
           (issued st2 ++ copy_events g st2 lbmin Dmin Λ
            ++ [erase_event g st2 lbmin Dmin]))
        lbmin Λ = Some st3
    ∧ st' = with_op_blocks st3 (op_blocks st3 ++ [Dmin]).
Proof.
  intros H. unfold shuffle_data_log in H.
  apply bind_Some in H as ([[maxc Λ] D] & s & [Hpair ->]%reads_Some & H).
  cbn [fst snd] in H.
  destruct (bool_decide (D = RAW_SIZE g)) eqn:HD;
    [by apply mret_Some in H as [? _]|].
  destruct (bool_decide (Λ = RAW_SIZE g)) eqn:HΛ;
    [by apply mret_Some in H as [? _]|].
  cbn [orb] in H. apply bool_decide_eq_false in HD, HΛ.
  apply bind_Some in H as (lb & s & [Hlb ->]%reads_Some & H).
  destruct (bool_decide (lb = RAW_SIZE g)) eqn:Hlbne;
    [by apply mret_Some in H as [? _]|].
  apply bool_decide_eq_false in Hlbne.
  apply bind_Some in H as ([minc Dmin] & s & [Hmin ->]%reads_Some & H).
  cbn [fst snd] in H.
  destruct (bool_decide (Dmin = RAW_SIZE g)) eqn:HDmin;
    [by apply mret_Some in H as [? _]|].
  apply bool_decide_eq_false in HDmin.
  destruct (bool_decide (u32 (BLOCK_ERASES g - 1) ≤ minc)) eqn:Hminc;
    [by apply mret_Some in H as [? _]|].
  apply bool_decide_eq_false in Hminc.
  apply bind_Some in H as (cleaned & st1 & Hclean & H).
  destruct cleaned; cbn [negb] in H; [|by apply mret_Some in H as [? _]].
  apply bind_Some in H as ([] & st2 & Hcancel%writes_Some & H).
  apply bind_Some in H as (lbmin & s & [Hlbmin ->]%reads_Some & H).
  destruct (bool_decide (lbmin = RAW_SIZE g)) eqn:Hlbminne;
    [by apply mret_Some in H as [? _]|].
  apply bool_decide_eq_false in Hlbminne.
  apply bind_Some in H as ([] & st3 & Hmove & H).
  apply (for_each_appends (λ _, True) _
           (λ st i, if written st (u64 (lbmin + i))
                    then [event_at (start_time st) READ (u64 (lbmin + i))
                            (page_of g Dmin i);
                          event_at (start_time st) WRITE (u64 (lbmin + i))
                            (page_of g Λ i)]
                    else [])) in Hmove;
    [|by intros; eapply shuffle_move_appends|done..].
  apply bind_Some in H as ([] & st4 & ->%issue_at_Some & H).
  apply bind_Some in H as ([] & st5 & Hset%writes_Some & H).
  apply bind_Some in H as ([] & st6 & ->%push_back_Some & H).
  apply mret_Some in H as [_ <-].
  exists maxc, Λ, D, lb, minc, Dmin, st1, st2, lbmin, st5.
  split_and!; try done; [lia|].
  subst st3. rewrite <- Hset. f_equal.
  unfold copy_events, erase_event.
  cbn [issued start_time with_issued]. by rewrite <- app_assoc.
Qed.

End Shuffle.




(** * Addresses and block indices *)

Section Bridge.

Context (g : geometry) (Hg : geometry_ok g).

Local Abbreviation BS := (BLOCK_SIZE g).
Local Abbreviation NL := (NUM_OF_LGC_B g).
Local Abbreviation NP := (NUM_OF_PHY_B g).

Lemma block_div b p : 0 ≤ p < BS → (b * BS + p) / BS = b.
Proof. intros Hp. symmetry. apply (Z.div_unique _ _ b p); lia. Qed.

Lemma block_mod b p : 0 ≤ p < BS → (b * BS + p) mod BS = p.
Proof. intros Hp. symmetry. apply (Z.mod_unique _ _ b p); lia. Qed.

Lemma block_div0 b : b * BS / BS = b.
Proof using Hg.
  pose proof (BLOCK_SIZE_pos g Hg).
  replace (b * BS) with (b * BS + 0) by lia. apply block_div. lia.
Qed.

Lemma block_mod0 b : b * BS mod BS = 0.
Proof using Hg.
  pose proof (BLOCK_SIZE_pos g Hg).
  replace (b * BS) with (b * BS + 0) by lia. apply block_mod. lia.
Qed.

Lemma block_address_range b p :
  0 ≤ b < NP → 0 ≤ p < BS → 0 ≤ b * BS + p < 2 ^ 31.
Proof using Hg.
  intros Hb Hp. pose proof (RAW_SIZE_range g Hg).
  pose proof (RAW_SIZE_blocks g Hg). nia.
Qed.

Lemma u32_block b : 0 ≤ b ≤ NP → u32 (b * BS) = b * BS.
Proof using Hg.
  intros Hb. pose proof (RAW_SIZE_range g Hg).
  pose proof (RAW_SIZE_blocks g Hg). pose proof (BLOCK_SIZE_pos g Hg).
  apply u32_small. nia.
Qed.

Lemma u32_page b p : 0 ≤ b < NP → 0 ≤ p < BS → u32 (b * BS + p) = b * BS + p.
Proof using Hg.
  intros Hb Hp. pose proof (block_address_range b p Hb Hp).
  apply u32_small. lia.
Qed.

Lemma u64_page b p : 0 ≤ b < NP → 0 ≤ p < BS → u64 (b * BS + p) = b * BS + p.
Proof using Hg.
  intros Hb Hp. pose proof (block_address_range b p Hb Hp).
  apply u64_small. lia.
Qed.

Lemma NL_le_NP : 0 ≤ NL ≤ NP ∧ NP < 2 ^ 31.
Proof using Hg.
  pose proof (NUM_OF_LGC_B_range g Hg). pose proof (NUM_OF_PHY_B_range g Hg).
  lia.
Qed.

Lemma check_physical_address_block st i p d :
  0 ≤ i < NL → 0 ≤ p < BS → data_block st i = Some d → 0 ≤ d < NP →
  check_physical_address g st (i * BS + p) = Some (d * BS + p).
Proof using Hg.
  intros Hi Hp Hd Hdr. pose proof NL_le_NP.
  unfold check_physical_address, data_block in *.
  rewrite block_div, block_mod by done. rewrite s32_small by lia.
  destruct (arr_get (logical_to_physical st) i) as [off|]; [|done].
  cbn [mbind option_bind] in *. injection Hd as <-.
  rewrite s32_small by lia. rewrite (u64_small (i + off)) by lia.
  f_equal. rewrite Z.add_comm. by apply u64_page.
Qed.

Lemma check_log_block_block st d p :
  0 ≤ d < NP → 0 ≤ p < BS →
  is_Some (arr_get (data_to_log st) d) →
  (∀ l, log_block st d = Some l → 0 ≤ l < NP) →
  check_log_block g st (d * BS + p)
  = Some ((λ l, l * BS + p) <$> log_block st d).
Proof using Hg.
  intros Hd Hp [off Hoff] Hl. pose proof NL_le_NP.
  unfold check_log_block, log_block in *.
  rewrite block_div, block_mod by done. rewrite s32_small by lia.
  rewrite Hoff in *. cbn [mbind option_bind] in *.
  case_decide; [done|]. specialize (Hl _ eq_refl).
  rewrite s32_small by lia. rewrite (u64_small (d + off)) by lia.
  cbn [fmap option_fmap option_map]. do 2 f_equal.
  rewrite Z.add_comm. by apply u64_page.
Qed.

Lemma set_physical_address_block st i b :
  0 ≤ i < Z.of_nat (length (logical_to_physical st)) → 0 ≤ i < NP →
  0 ≤ b < NP →
  set_physical_address g st (i * BS) (b * BS)
  = Some (with_logical_to_physical st
            (<[Z.to_nat i := b - i]> (logical_to_physical st))).
Proof using Hg.
  intros Hi Hi' Hb. pose proof NL_le_NP.
  unfold set_physical_address. rewrite !block_div0.
  rewrite (s32_small i), (s32_small b), (s32_small (b - i)) by lia.
  unfold arr_set. rewrite decide_True by lia. done.
Qed.

Lemma set_log_block_block st d b :
  0 ≤ d < Z.of_nat (length (data_to_log st)) → 0 ≤ d < NP → 0 ≤ b < NP →
  set_log_block g st (d * BS) (b * BS)
  = Some (with_data_to_log st (<[Z.to_nat d := b - d]> (data_to_log st))).
Proof using Hg.
  intros Hd Hd' Hb. pose proof NL_le_NP.
  unfold set_log_block. rewrite !block_div0.
  rewrite (s32_small d), (s32_small b), (s32_small (b - d)) by lia.
  unfold arr_set.
  rewrite decide_True by lia. done.
Qed.

Lemma data_block_insert st i b j :
  0 ≤ i < Z.of_nat (length (logical_to_physical st)) →
  data_block
    (with_logical_to_physical st
       (<[Z.to_nat i := b - i]> (logical_to_physical st))) j
  = if decide (i = j) then Some b else data_block st j.
Proof.
  intros Hi. unfold data_block. cbn [logical_to_physical with_logical_to_physical].
  rewrite arr_get_insert by lia. case_decide; [|done]. subst j.
  destruct (arr_get_is_Some (logical_to_physical st) i) as [_ [o ->]]; [lia|].
  cbn. f_equal. lia.
Qed.

Lemma log_block_insert st d b d' :
  0 ≤ d < Z.of_nat (length (data_to_log st)) →
  log_block
    (with_data_to_log st (<[Z.to_nat d := b - d]> (data_to_log st))) d'
  = if decide (d = d') then (if decide (b = d) then None else Some b)
    else log_block st d'.
Proof.
  intros Hd. unfold log_block. cbn [data_to_log with_data_to_log].
  rewrite arr_get_insert by lia. case_decide; [|done]. subst d'.
  destruct (arr_get_is_Some (data_to_log st) d) as [_ [o ->]]; [lia|].
  cbn. repeat case_decide; try lia; f_equal; lia.
Qed.

Lemma over_erase_limit_block st b :
  over_erase_limit g st (b * BS)
  = (λ c, bool_decide (BLOCK_ERASES g ≤ c)) <$> arr_get (erase_count st) b.
Proof using Hg.
  unfold over_erase_limit. rewrite block_div0.
  by destruct (arr_get (erase_count st) b).
Qed.

End Bridge.

(** * The invariant: initial state and read-only searches *)

Lemma bind_eq {A B} (m : M A) (k : A → M B) st a st1 :
  m st = Some (a, st1) → (m ≫= k) st = k a st1.
Proof. intros H. by rewrite bind_unfold, H. Qed.

Lemma bind_reads {A B} (f : ftl_state → option A) (k : A → M B) st a :
  f st = Some a → (reads f ≫= k) st = k a st.
Proof. intros H. apply bind_eq. unfold reads. by rewrite H. Qed.

Lemma bind_writes {B} (f : ftl_state → option ftl_state) (k : unit → M B)
    st st1 :
  f st = Some st1 → (writes f ≫= k) st = k () st1.
Proof. intros H. apply bind_eq. unfold writes. by rewrite H. Qed.

Lemma bind_issue_at {B} t la a (k : unit → M B) st :
  (issue_at t la a ≫= k) st
  = k () (with_issued st (issued st ++ [event_at (start_time st) t la a])).
Proof. by apply bind_eq. Qed.

Lemma bind_mret {A B} (a : A) (k : A → M B) st : (mret a ≫= k) st = k a st.
Proof. by apply bind_eq. Qed.

Section Loops_total.

Context {A : Type}.

(** An invariant of a loop all of whose turns are defined. *)
Lemma for_fold_total (body : Z → A → option A) (I : list Z → A → Prop)
    l acc0 :
  I [] acc0 →
  (∀ l1 i acc1, i ∈ l → I l1 acc1 →
     ∃ acc2, body i acc1 = Some acc2 ∧ I (l1 ++ [i]) acc2) →
  ∃ acc, for_fold body l acc0 = Some acc ∧ I l acc.
Proof.
  intros H0 Hstep.
  cut (∀ l0 a0, I l0 a0 → (∀ i, i ∈ l → i ∈ l) →
         ∃ acc, for_fold body l a0 = Some acc ∧ I (l0 ++ l) acc).
  { intros Hcut. by apply (Hcut [] acc0). }
  revert Hstep. generalize l at 1 3 as l'. intros l' Hstep.
  induction l as [|i l IH]; intros l0 a0 HI Hsub.
  - exists a0. by rewrite app_nil_r.
  - destruct (Hstep l0 i a0) as (a1 & Hb & HI1); [apply Hsub; by left|done|].
    destruct (IH (l0 ++ [i]) a1 HI1) as (acc & Hacc & HIacc).
    { intros j Hj. apply Hsub. by right. }
    exists acc. simpl. rewrite Hb. simpl. split; [done|].
    by rewrite <- app_assoc in HIacc.
Qed.

End Loops_total.

Lemma for_each_appends_total (P : ftl_state → Prop) (body : Z → M unit)
    (evs : ftl_state → Z → list Event) ixs :
  (∀ i st, i ∈ ixs → P st →
           body i st = Some ((), with_issued st (issued st ++ evs st i))) →
  (∀ st l, P st → P (with_issued st l)) →
  (∀ st l i, evs (with_issued st l) i = evs st i) →
  ∀ st, P st →
    for_each body ixs st
    = Some ((), with_issued st (issued st ++ flat_map (evs st) ixs)).
Proof.
  intros Hbody HP Hevs. induction ixs as [|i ixs IH]; intros st Hst.
  - simpl. by rewrite app_nil_r, with_issued_same.
  - cbn [for_each]. erewrite bind_eq; [|apply Hbody; [by left|done]].
    rewrite IH; [|intros; apply Hbody; [by right|done]|by apply HP].
    simpl. rewrite with_issued_twice, <- app_assoc.
    erewrite flat_map_ext; [reflexivity|]. intros. apply Hevs.
Qed.

Section Inv_basics.

Context (g : geometry) (Hg : geometry_ok g).

Local Abbreviation BS := (BLOCK_SIZE g).
Local Abbreviation NL := (NUM_OF_LGC_B g).
Local Abbreviation NP := (NUM_OF_PHY_B g).
Local Abbreviation CAP := (BLOCK_ERASES g).

Lemma arr_get_replicate n i :
  0 ≤ i < Z.of_nat n → arr_get (replicate n 0) i = Some 0.
Proof.
  intros Hi. unfold arr_get. rewrite decide_True by lia.
  apply lookup_replicate_2. lia.
Qed.

Lemma arr_get_replicate_inv n i v :
  arr_get (replicate n 0) i = Some v → v = 0.
Proof.
  unfold arr_get. case_decide; [|done]. by intros [-> _]%lookup_replicate.
Qed.

Lemma init_inv : ftl_inv g (init_ftl_user g).
Proof using Hg.
  pose proof (NL_le_NP g Hg) as HN. pose proof (BLOCK_SIZE_pos g Hg) as HBS.
  pose proof (USABLE_SIZE_blocks g Hg) as HU.
  pose proof (RAW_SIZE_blocks g Hg) as HR.
  pose proof (BLOCK_ERASES_range g Hg) as HC.
  assert (∀ i d, data_block (init_ftl_user g) i = Some d → d = i) as Hdata.
  { intros i d. unfold data_block. cbn [init_ftl_user logical_to_physical].
    destruct (arr_get _ i) as [o|] eqn:Ho; [|done].
    apply arr_get_replicate_inv in Ho as ->. intros [= <-]. lia. }
  assert (∀ d, log_block (init_ftl_user g) d = None) as Hlog.
  { intros d. unfold log_block. cbn [init_ftl_user data_to_log].
    destruct (arr_get _ d) as [o|] eqn:Ho; [|done].
    apply arr_get_replicate_inv in Ho as ->. done. }
  split.
  - unfold tables_allocated. cbn [init_ftl_user logical_to_emptiness
      erase_count logical_to_physical data_to_log].
    by rewrite !length_replicate.
  - intros i Hi. exists i. split; [|lia]. unfold data_block.
    cbn [init_ftl_user logical_to_physical].
    rewrite arr_get_replicate by lia. cbn. f_equal. lia.
  - intros i j d _ _ ->%Hdata ->%Hdata. done.
  - intros d l. by rewrite Hlog.
  - intros d d' l. by rewrite Hlog.
  - cbn [init_ftl_user op_blocks]. apply NoDup_fmap_2_strong; [|apply NoDup_seqZ].
    intros x y _ _. nia.
  - intros p. cbn [init_ftl_user op_blocks erase_count].
    intros (k & -> & Hk)%list_elem_of_fmap. apply elem_of_seqZ in Hk.
    replace (RAW_SIZE g - USABLE_SIZE g + BS - 1) with
      ((NP - NL) * BS + (BS - 1)) in Hk by lia.
    rewrite block_div in Hk by lia.
    exists (NL + k), 0. split_and!.
    + rewrite HU. lia.
    + lia.
    + lia.
    + intros (i & Hi & Hi'%Hdata). lia.
    + apply arr_get_replicate. lia.
    + lia.
  - intros b c. cbn [init_ftl_user erase_count].
    intros ->%arr_get_replicate_inv. lia.
  - intros k s. cbn [init_ftl_user log_to_pages]. by rewrite lookup_empty.
Qed.

Section With_inv.

Context (st : ftl_state) (Hinv : ftl_inv g st).

Lemma inv_cpa i p :
  0 ≤ i < NL → 0 ≤ p < BS →
  ∃ d, data_block st i = Some d ∧ 0 ≤ d < NP
       ∧ check_physical_address g st (i * BS + p) = Some (d * BS + p).
Proof using Hg Hinv.
  intros Hi Hp. destruct (inv_data g st Hinv i Hi) as (d & Hd & Hdr).
  exists d. split; [done|]. split; [done|].
  by apply check_physical_address_block.
Qed.

Lemma inv_d2l_defined d :
  0 ≤ d < NP → is_Some (arr_get (data_to_log st) d).
Proof using Hinv.
  intros Hd. apply arr_get_is_Some.
  destruct (inv_alloc g st Hinv) as (_ & _ & _ & ->). lia.
Qed.

Lemma inv_clb d p :
  0 ≤ d < NP → 0 ≤ p < BS →
  check_log_block g st (d * BS + p)
  = Some ((λ l, l * BS + p) <$> log_block st d).
Proof using Hg Hinv.
  intros Hd Hp. apply check_log_block_block; [done..|by apply inv_d2l_defined|].
  intros l Hl. by destruct (inv_log g st Hinv d l Hl) as (? & _).
Qed.

Lemma inv_clb0 d :
  0 ≤ d < NP →
  check_log_block g st (d * BS) = Some ((λ l, l * BS) <$> log_block st d).
Proof using Hg Hinv.
  intros Hd. pose proof (BLOCK_SIZE_pos g Hg).
  replace (d * BS) with (d * BS + 0) by lia. rewrite inv_clb by lia.
  f_equal. destruct (log_block st d); simpl; f_equal. lia.
Qed.

Lemma inv_ec b :
  0 ≤ b < NP → ∃ c, arr_get (erase_count st) b = Some c ∧ 0 ≤ c ≤ CAP.
Proof using Hinv.
  intros Hb.
  destruct (arr_get_is_Some (erase_count st) b) as [_ [c Hc]].
  { destruct (inv_alloc g st Hinv) as (_ & -> & _). lia. }
  exists c. split; [done|]. by eapply inv_erase.
Qed.

Lemma inv_cpe la :
  0 ≤ la < USABLE_SIZE g → is_Some (check_page_empty st la).
Proof using Hg Hinv.
  intros Hla.
  destruct (allocated_word g st la) as [flag Hflag]; [| |done|].
  - unfold geometry_ok in Hg. lia.
  - by destruct (inv_alloc g st Hinv) as (-> & _).
  - unfold check_page_empty. rewrite Hflag. by eexists.
Qed.

Lemma logical_page_range i p :
  0 ≤ i < NL → 0 ≤ p < BS → 0 ≤ i * BS + p < USABLE_SIZE g.
Proof using Hg.
  intros Hi Hp. rewrite (USABLE_SIZE_blocks g Hg). nia.
Qed.

(** The scan of the pages of a logical block. *)
Lemma scan_non_empty_spec i js :
  0 ≤ i < NL → (∀ j, j ∈ js → 0 ≤ j < BS) →
  ∃ b, scan_non_empty g st i js = Some b
       ∧ (b = true ↔
          ∃ j, j ∈ js ∧ check_page_empty st (i * BS + j) = Some false).
Proof using Hg Hinv.
  intros Hi. pose proof (NL_le_NP g Hg).
  induction js as [|j js IH]; intros Hjs.
  - exists false. split; [done|]. split; [done|].
    intros (j & Hj & _). by apply elem_of_nil in Hj.
  - cbn [scan_non_empty]. assert (0 ≤ j < BS) as Hj by (apply Hjs; by left).
    rewrite u32_page by (done || lia).
    destruct (inv_cpe (i * BS + j)) as [e He];
      [by apply logical_page_range|].
    rewrite He. cbn [mbind option_bind]. destruct e.
    + destruct IH as (b & Hb & Hiff); [intros; apply Hjs; by right|].
      exists b. split; [done|]. rewrite Hiff. split.
      * intros (k & Hk & ?). exists k. split; [by right|done].
      * intros (k & [->|Hk]%elem_of_cons & Hk'); [congruence|]. by exists k.
    + exists true. split; [done|]. split; [|done]. intros _. exists j.
      split; [by left|done].
Qed.

Lemma block_non_empty_spec i :
  0 ≤ i < NL →
  ∃ b, block_non_empty g st i = Some b ∧ (b = true ↔ block_written g st i).
Proof using Hg Hinv.
  intros Hi. destruct (scan_non_empty_spec i (seqZ 0 BS) Hi) as (b & Hb & Hiff).
  { intros j Hj%elem_of_seqZ. lia. }
  exists b. split; [done|]. rewrite Hiff. unfold block_written.
  split; intros (j & Hj & ?); exists j; (split; [|done]).
  - apply elem_of_seqZ in Hj. lia.
  - apply elem_of_seqZ. lia.
Qed.

End With_inv.

End Inv_basics.

Section Inv_find.

Context (g : geometry) (Hg : geometry_ok g).
Context (st : ftl_state) (Hinv : ftl_inv g st).

Local Abbreviation BS := (BLOCK_SIZE g).
Local Abbreviation NL := (NUM_OF_LGC_B g).
Local Abbreviation NP := (NUM_OF_PHY_B g).
Local Abbreviation CAP := (BLOCK_ERASES g).

Lemma cpa_block0 i :
  0 ≤ i < NL →
  ∃ d, data_block st i = Some d ∧ 0 ≤ d < NP
       ∧ check_physical_address g st (u32 (i * BS)) = Some (d * BS).
Proof using Hg Hinv.
  intros Hi. pose proof (NL_le_NP g Hg). pose proof (BLOCK_SIZE_pos g Hg).
  destruct (inv_cpa g Hg st Hinv i 0) as (d & Hd & Hdr & Hcpa); [done|lia|].
  exists d. split; [done|]. split; [done|].
  rewrite u32_block by (done || lia). by rewrite !Z.add_0_r in Hcpa.
Qed.

Lemma find_cleaning_spec a0 :
  ∃ found a,
    find_empty_data_block_for_cleaning g st a0 = Some (found, a)
    ∧ (found = true → ∃ j s, a = s * BS ∧ empty_block_under_cap g st j s).
Proof using Hg Hinv.
  pose proof (BLOCK_ERASES_range g Hg) as HC.
  unfold find_empty_data_block_for_cleaning.
  rewrite (u32_small (CAP + 1)) by lia.
  destruct (for_fold_total (find_cleaning_step g st)
              (λ _ acc, (acc.1 = CAP + 1 ∧ acc.2 = a0)
                        ∨ (acc.1 < CAP
                           ∧ ∃ j s, acc.2 = s * BS ∧ empty_block_under_cap g st j s))
              (seqZ 0 NL) (CAP + 1, a0)) as ([minc a] & Hfold & HI).
  - by left.
  - intros _ i [c1 a1] Hi%elem_of_seqZ HI. unfold find_cleaning_step.
    destruct (cpa_block0 i) as (d & Hd & Hdr & ->); [lia|].
    cbn [mbind option_bind].
    destruct (block_non_empty_spec g Hg st Hinv i) as (b & -> & Hb); [lia|].
    cbn [mbind option_bind]. rewrite (block_div0 g Hg).
    destruct (inv_ec g st Hinv d Hdr) as (c & Hec & Hc). rewrite Hec.
    cbn [mbind option_bind fst].
    destruct (negb b && bool_decide (c < c1) && bool_decide (c < CAP)) eqn:Hsel.
    + eexists. split; [done|]. right.
      apply andb_true_iff in Hsel as [[Hb'%negb_true_iff _]%andb_true_iff Hcap].
      apply bool_decide_eq_true in Hcap. cbn [fst snd]. split; [done|].
      exists i, d. split; [done|]. unfold empty_block_under_cap.
      split_and!; try done; try lia.
      * intros Hw%Hb. congruence.
      * exists c. split; [done|lia].
  + eexists. split; [done|]. done.
  - rewrite Hfold. cbn [mbind option_bind fst snd]. eexists _, _.
    split; [done|]. intros Hfound%bool_decide_eq_true.
    destruct HI as [[? _]|[_ ?]]; done.
Qed.

Lemma find_remapping_spec a0 l0 :
  ∃ found a lb,
    find_empty_data_block_for_remapping g st a0 l0 = Some (found, a, lb)
    ∧ (found = true →
       ∃ j s, a = s * BS ∧ lb = j * BS ∧ empty_block_under_cap g st j s)
    ∧ (found = false → lb = l0).
Proof using Hg Hinv.
  pose proof (BLOCK_ERASES_range g Hg) as HC. pose proof (NL_le_NP g Hg).
  unfold find_empty_data_block_for_remapping.
  rewrite (u32_small (CAP + 1)) by lia.
  destruct (for_fold_total (find_remapping_step g st)
              (λ _ acc, (acc.1.1 = CAP + 1 ∧ acc.2 = l0)
                        ∨ (acc.1.1 < CAP
                           ∧ ∃ j s, acc.1.2 = s * BS ∧ acc.2 = j * BS
                                    ∧ empty_block_under_cap g st j s))
              (seqZ 0 NL) (CAP + 1, a0, l0)) as ([[minc a] lb] & Hfold & HI).
  - by left.
  - intros _ i [[c1 a1] l1] Hi%elem_of_seqZ HI. unfold find_remapping_step.
    destruct (cpa_block0 i) as (d & Hd & Hdr & ->); [lia|].
    cbn [mbind option_bind].
    destruct (block_non_empty_spec g Hg st Hinv i) as (b & -> & Hb); [lia|].
    cbn [mbind option_bind]. rewrite (block_div0 g Hg).
    destruct (inv_ec g st Hinv d Hdr) as (c & Hec & Hc). rewrite Hec.
    cbn [mbind option_bind fst].
    destruct (negb b && bool_decide (c < c1) && bool_decide (c < CAP)) eqn:Hsel.
    + eexists. split; [done|]. right.
      apply andb_true_iff in Hsel as [[Hb'%negb_true_iff _]%andb_true_iff Hcap].
      apply bool_decide_eq_true in Hcap. cbn [fst snd]. split; [done|].
      exists i, d. split; [done|]. split; [apply u32_block; [done|lia]|].
      unfold empty_block_under_cap.
      split_and!; try done; try lia.
      * intros Hw%Hb. congruence.
      * exists c. split; [done|lia].
  + eexists. split; [done|]. done.
  - rewrite Hfold. cbn [mbind option_bind fst snd]. eexists _, _, _.
    split; [done|]. split.
    + intros Hfound%bool_decide_eq_true.
      destruct HI as [[? _]|[_ ?]]; done.
    + intros Hfound%bool_decide_eq_false.
      destruct HI as [[_ ?]|[? _]]; [done|]. cbn [fst snd] in *. lia.
Qed.

End Inv_find.

Section Inv_clean.

Context (g : geometry) (Hg : geometry_ok g).

Local Abbreviation BS := (BLOCK_SIZE g).
Local Abbreviation NL := (NUM_OF_LGC_B g).
Local Abbreviation NP := (NUM_OF_PHY_B g).
Local Abbreviation CAP := (BLOCK_ERASES g).

Lemma fetch_log_page_defined s p :
  manifest_ok g s → is_Some (fetch_log_page s p).
Proof using Hg.
  intros (pages & -> & Hpages & Hlen). pose proof (NL_le_NP g Hg).
  pose proof (BLOCK_SIZE_range g Hg).
  rewrite fetch_log_page_last_index; [by eexists| |lia].
  assert (Forall (λ p, 0 ≤ p < 2 ^ 32) pages) as Hp32.
  { eapply Forall_impl; [done|]. simpl. intros. lia. }
  pose proof (manifest_of_length_le pages Hp32). unfold npos. lia.
Qed.

(** A state that differs by erase counts and issued events satisfies the
    invariant when the counts stay bounded and those of the pool are
    kept. *)
Lemma ftl_inv_same_maps st st' :
  ftl_inv g st → same_maps st st' →
  length (erase_count st') = length (erase_count st) →
  (∀ b c, arr_get (erase_count st') b = Some c → 0 ≤ c ≤ CAP) →
  (∀ b, b * BS ∈ op_blocks st →
        arr_get (erase_count st') b = arr_get (erase_count st) b) →
  ftl_inv g st'.
Proof using Hg.
  intros Hinv (He & Hp & Hd & Hm & Ho) Hlen Hcap Hpool.
  assert (∀ i, data_block st' i = data_block st i) as Hdb.
  { intros i. unfold data_block. by rewrite Hp. }
  assert (∀ d, log_block st' d = log_block st d) as Hlb.
  { intros d. unfold log_block. by rewrite Hd. }
  assert (∀ d, is_data_block g st' d ↔ is_data_block g st d) as Hidb.
  { intros d. unfold is_data_block. by setoid_rewrite Hdb. }
  assert (∀ i, block_written g st' i ↔ block_written g st i) as Hbw.
  { intros i. unfold block_written, check_page_empty. by rewrite He. }
  destruct Hinv as [Halloc Hdata Hinj Hlog Hloginj Hnodup Hpoolinv Herase Hman].
  split.
  - destruct Halloc as (? & ? & ? & ?). unfold tables_allocated.
    by rewrite He, Hp, Hd, Hlen.
  - intros i Hi. rewrite Hdb. by apply Hdata.
  - intros i j d Hi Hj. rewrite !Hdb. by apply Hinj.
  - intros d l. rewrite Hlb. intros Hl.
    destruct (Hlog d l Hl) as (? & (i & ? & ? & ?) & ? & ? & ?).
    rewrite Hidb, Hm, Ho. split; [done|]. split; [|done].
    exists i. by rewrite Hdb, Hbw.
  - intros d d' l. rewrite !Hlb. apply Hloginj.
  - by rewrite Ho.
  - intros p. rewrite Ho. intros Hp'.
    destruct (Hpoolinv p Hp') as (b & c & -> & ? & ? & ? & ?).
    exists b, c. rewrite Hidb, Hpool by done. done.
  - done.
  - intros k s. rewrite Hm. apply Hman.
Qed.

Lemma update_erase_count_block st b c :
  arr_get (erase_count st) b = Some c → 0 ≤ c < 2 ^ 32 - 1 →
  update_erase_count g st (b * BS)
  = Some (with_erase_count st (<[Z.to_nat b := c + 1]> (erase_count st))).
Proof using Hg.
  intros Hc Hr. unfold update_erase_count. rewrite (block_div0 g Hg), Hc.
  cbn [mbind option_bind].
  assert (is_Some (arr_get (erase_count st) b)) as Hin%arr_get_is_Some by eauto.
  unfold arr_set. rewrite decide_True by done. cbn [mbind option_bind].
  by rewrite u32_small by lia.
Qed.

Lemma clean_copy_out_total st0 i D Λ S p st :
  ftl_inv g st0 → 0 ≤ i < NL → 0 ≤ p < BS →
  is_Some (log_to_pages st0 !! (Λ * BS)) →
  logical_to_emptiness st = logical_to_emptiness st0 →
  log_to_pages st = log_to_pages st0 →
  clean_copy_out g (i * BS) (D * BS) (Λ * BS) (S * BS)
    (log_to_pages st0 !! (Λ * BS)) p st
  = Some ((), with_issued st
                (issued st ++
                 if written st (u64 (i * BS + p))
                 then [event_at (start_time st) READ (u64 (i * BS + p))
                         (merge_source g st (D * BS) (Λ * BS) p);
                       event_at (start_time st) WRITE (u64 (i * BS + p))
                         (page_of g (S * BS) p)]
                 else [])).
Proof using Hg.
  intros Hinv Hi Hp [offsets Hoff] He Hm. pose proof (NL_le_NP g Hg).
  assert (∃ st', clean_copy_out g (i * BS) (D * BS) (Λ * BS) (S * BS)
                   (log_to_pages st0 !! (Λ * BS)) p st = Some ((), st'))
    as [st' Hst'].
  { unfold clean_copy_out. rewrite u64_page by (done || lia).
    destruct (inv_cpe g Hg st0 Hinv (i * BS + p)) as [e He'];
      [by apply logical_page_range|].
    erewrite bind_reads; [|unfold check_page_empty in *; by rewrite He].
    destruct e; [by eexists|].
    erewrite bind_reads by done.
    destruct (fetch_log_page_defined offsets p) as [r Hr];
      [by eapply inv_manifest|].
    erewrite bind_reads by done. rewrite bind_issue_at. by eexists. }
  rewrite Hst'. f_equal. f_equal.
  by eapply clean_copy_out_appends.
Qed.

Lemma clean_copy_back_total st0 i src dst p st :
  ftl_inv g st0 → 0 ≤ i < NL → 0 ≤ p < BS →
  logical_to_emptiness st = logical_to_emptiness st0 →
  clean_copy_back g (i * BS) dst src p st
  = Some ((), with_issued st
                (issued st ++
                 if written st (u64 (i * BS + p))
                 then [event_at (start_time st) READ (u64 (i * BS + p))
                         (page_of g src p);
                       event_at (start_time st) WRITE (u64 (i * BS + p))
                         (page_of g dst p)]
                 else [])).
Proof using Hg.
  intros Hinv Hi Hp He. pose proof (NL_le_NP g Hg).
  assert (∃ st', clean_copy_back g (i * BS) dst src p st = Some ((), st'))
    as [st' Hst'].
  { unfold clean_copy_back. rewrite u64_page by (done || lia).
    destruct (inv_cpe g Hg st0 Hinv (i * BS + p)) as [e He'];
      [by apply logical_page_range|].
    erewrite bind_reads; [|unfold check_page_empty in *; by rewrite He].
    destruct e; [by eexists|]. rewrite bind_issue_at. by eexists. }
  rewrite Hst'. f_equal. f_equal.
  by eapply copy_back_appends.
Qed.

(** [clean] on the data block of a written logical block and its log
    block, both under the cap: either no scratch block is found and the
    state is unchanged, or the merge runs through a scratch block [S]. *)
Lemma clean_inv st i D Λ cD cΛ :
  ftl_inv g st → 0 ≤ i < NL → data_block st i = Some D →
  block_written g st i → log_block st D = Some Λ →
  arr_get (erase_count st) D = Some cD → cD < CAP →
  arr_get (erase_count st) Λ = Some cΛ → cΛ < CAP →
  clean g (i * BS) (D * BS) (Λ * BS) st = Some (false, st)
  ∨ ∃ j S cS,
      empty_block_under_cap g st j S
      ∧ arr_get (erase_count st) S = Some cS ∧ cS < CAP
      ∧ D ≠ Λ ∧ D ≠ S ∧ Λ ≠ S
      ∧ clean g (i * BS) (D * BS) (Λ * BS) st
        = Some (true,
                with_erase_count
                  (with_issued st
                     (issued st
                      ++ clean_events g st (i * BS) (D * BS) (Λ * BS) (S * BS)))
                  (<[Z.to_nat S := cS + 1]>
                     (<[Z.to_nat Λ := cΛ + 1]>
                        (<[Z.to_nat D := cD + 1]> (erase_count st))))).
Proof using Hg.
  intros Hinv Hi HD Hw HΛ HcD HcDcap HcΛ HcΛcap.
  pose proof (NL_le_NP g Hg). pose proof (BLOCK_ERASES_range g Hg).
  destruct (find_cleaning_spec g Hg st Hinv 0) as (found & a & Hfind & Hfound).
  unfold clean. erewrite bind_reads by done. cbn [fst snd].
  destruct found; cbn [negb]; [|by left].
  destruct (Hfound eq_refl) as (j & S & -> & Hempty). right.
  destruct Hempty as (Hj & HS & HSr & Hnw & cS & HcS & HcScap).
  destruct (inv_log g st Hinv D Λ HΛ) as (HΛr & _ & HΛnd & Hman & _).
  destruct (inv_data g st Hinv i Hi) as (D' & HD' & HDr).
  rewrite HD in HD'. injection HD' as <-.
  assert (D ≠ Λ) as HDΛ.
  { intros ->. apply HΛnd. by exists i. }
  assert (D ≠ S) as HDS.
  { intros ->. assert (i = j) as -> by by eapply (inv_data_inj g st Hinv). done. }
  assert (Λ ≠ S) as HΛS.
  { intros ->. apply HΛnd. by exists j. }
  exists j, S, cS.
  split. { split; [done|]. split; [done|]. split; [done|]. split; [done|].
           exists cS. by split. }
  split; [done|]. split; [done|]. split; [done|]. split; [done|].
  split; [done|].
  erewrite bind_reads by done.
  erewrite bind_eq.
  2:{ apply (for_each_appends_total
               (λ s, logical_to_emptiness s = logical_to_emptiness st
                     ∧ log_to_pages s = log_to_pages st) _
               (λ s p, if written s (u64 (i * BS + p))
                       then [event_at (start_time s) READ (u64 (i * BS + p))
                               (merge_source g s (D * BS) (Λ * BS) p);
                             event_at (start_time s) WRITE (u64 (i * BS + p))
                               (page_of g (S * BS) p)]
                       else [])); [|done..].
      intros p s Hp%elem_of_seqZ [He Hm].
      apply clean_copy_out_total; (done || lia). }
  rewrite !bind_issue_at.
  erewrite bind_eq.
  2:{ apply (for_each_appends_total
               (λ s, logical_to_emptiness s = logical_to_emptiness st) _
               (λ s p, if written s (u64 (i * BS + p))
                       then [event_at (start_time s) READ (u64 (i * BS + p))
                               (page_of g (S * BS) p);
                             event_at (start_time s) WRITE (u64 (i * BS + p))
                               (page_of g (D * BS) p)]
                       else [])); [|done..].
      intros p s Hp%elem_of_seqZ He.
      eapply clean_copy_back_total; (done || lia). }
  rewrite bind_issue_at.
  destruct (inv_erase g st Hinv D cD HcD). destruct (inv_erase g st Hinv Λ cΛ HcΛ).
  destruct (inv_erase g st Hinv S cS HcS).
  erewrite bind_writes; [|apply (update_erase_count_block _ D cD); [done|lia]].
  erewrite bind_writes.
  2:{ apply (update_erase_count_block _ Λ cΛ); [|lia].
      cbn [erase_count with_erase_count with_issued].
      rewrite arr_get_insert by lia. rewrite decide_False by done. done. }
  erewrite bind_writes.
  2:{ apply (update_erase_count_block _ S cS); [|lia].
      cbn [erase_count with_erase_count with_issued].
      rewrite !arr_get_insert by lia. rewrite !decide_False by done. done. }
  unfold mret, M_ret. do 2 f_equal.
  unfold clean_events, merge_out_events, copy_events, erase_event.
  cbn [issued start_time erase_count logical_to_emptiness logical_to_physical
       data_to_log log_to_pages op_blocks with_issued with_erase_count].
  rewrite <- !app_assoc. reflexivity.
Qed.

Lemma erase_below_cap_other st time t la a :
  t ≠ ERASE → erase_below_cap g st (event_at time t la a).
Proof. intros Ht He. by cbn in He. Qed.

Lemma erase_below_cap_erase st time lb b c :
  0 ≤ b < NP → arr_get (erase_count st) b = Some c → c < CAP →
  erase_below_cap g st (event_at time ERASE lb (block_of g (b * BS))).
Proof. intros Hb Hc Hcap _. by exists b, c. Qed.

Lemma copy_events_below_cap st st0 lb src dst :
  Forall (erase_below_cap g st0) (copy_events g st lb src dst).
Proof.
  unfold copy_events. apply Forall_flat_map, Forall_forall. intros p _.
  destruct (written _ _); repeat constructor;
    by apply erase_below_cap_other.
Qed.

Lemma merge_out_events_below_cap st st0 lb D Λ S :
  Forall (erase_below_cap g st0) (merge_out_events g st lb D Λ S).
Proof.
  unfold merge_out_events. apply Forall_flat_map, Forall_forall. intros p _.
  destruct (written _ _); repeat constructor;
    by apply erase_below_cap_other.
Qed.

Lemma clean_events_below_cap st lb D Λ S cD cΛ cS :
  0 ≤ D < NP → 0 ≤ Λ < NP → 0 ≤ S < NP →
  arr_get (erase_count st) D = Some cD → cD < CAP →
  arr_get (erase_count st) Λ = Some cΛ → cΛ < CAP →
  arr_get (erase_count st) S = Some cS → cS < CAP →
  Forall (erase_below_cap g st)
    (clean_events g st lb (D * BS) (Λ * BS) (S * BS)).
Proof.
  intros. unfold clean_events, erase_event.
  repeat (apply Forall_app; split);
    try apply merge_out_events_below_cap;
    try apply copy_events_below_cap;
    repeat constructor; by eapply erase_below_cap_erase.
Qed.

(** The state after a merge satisfies the invariant. *)
Lemma clean_post st i D Λ j S cD cΛ cS evs :
  ftl_inv g st → 0 ≤ i < NL → data_block st i = Some D →
  log_block st D = Some Λ → empty_block_under_cap g st j S →
  arr_get (erase_count st) D = Some cD → cD < CAP →
  arr_get (erase_count st) Λ = Some cΛ → cΛ < CAP →
  arr_get (erase_count st) S = Some cS → cS < CAP →
  D ≠ Λ → D ≠ S → Λ ≠ S →
  let st' :=
    with_erase_count (with_issued st (issued st ++ evs))
      (<[Z.to_nat S := cS + 1]>
         (<[Z.to_nat Λ := cΛ + 1]>
            (<[Z.to_nat D := cD + 1]> (erase_count st)))) in
  ftl_inv g st' ∧ same_maps st st' ∧ erase_monotone st st'
  ∧ (∀ b, b ≠ D → b ≠ Λ → b ≠ S →
          arr_get (erase_count st') b = arr_get (erase_count st) b)
  ∧ arr_get (erase_count st') D = Some (cD + 1)
  ∧ arr_get (erase_count st') Λ = Some (cΛ + 1)
  ∧ arr_get (erase_count st') S = Some (cS + 1).
Proof using Hg.
  intros Hinv Hi HD HΛ (Hj & HS & HSr & Hnw & _) HcD HcDcap HcΛ HcΛcap
    HcS HcScap HDΛ HDS HΛS st'.
  destruct (inv_log g st Hinv D Λ HΛ) as (HΛr & _ & HΛnd & _ & HΛpool).
  destruct (inv_data g st Hinv i Hi) as (D' & HD' & HDr).
  rewrite HD in HD'. injection HD' as <-.
  assert (∀ b, arr_get (erase_count st') b
               = if decide (S = b) then Some (cS + 1)
                 else if decide (Λ = b) then Some (cΛ + 1)
                 else if decide (D = b) then Some (cD + 1)
                 else arr_get (erase_count st) b) as Hec.
  { intros b. subst st'. cbn [erase_count with_erase_count].
    rewrite !arr_get_insert by lia.
    destruct (decide (S = b)) as [<-|_].
    { rewrite !decide_False by done. by rewrite HcS. }
    destruct (decide (Λ = b)) as [<-|_].
    { rewrite !decide_False by done. by rewrite HcΛ. }
    destruct (decide (D = b)) as [<-|_]; [by rewrite HcD | done]. }
  assert (same_maps st st') as Hsame by done.
  pose proof (inv_erase g st Hinv _ _ HcS) as HcS0.
  pose proof (inv_erase g st Hinv _ _ HcΛ) as HcΛ0.
  pose proof (inv_erase g st Hinv _ _ HcD) as HcD0.
  assert (length (erase_count st') = length (erase_count st)) as Hlen.
  { subst st'. cbn [erase_count with_erase_count]. by rewrite !length_insert. }
  split.
  { apply (ftl_inv_same_maps st); [done| done| done| |].
    - intros b c. rewrite Hec.
      destruct (decide (S = b)); [intros [= <-]; lia|].
      destruct (decide (Λ = b)); [intros [= <-]; lia|].
      destruct (decide (D = b)); [intros [= <-]; lia|].
      apply (inv_erase g st Hinv).
    - intros b Hb. rewrite Hec.
      destruct (inv_pool g st Hinv _ Hb) as (b' & c & Heq & Hbr & Hnd & _).
      assert (b' = b) as -> by (pose proof (BLOCK_SIZE_pos g Hg); nia).
      destruct (decide (S = b)) as [<-|_].
      { exfalso. apply Hnd. by exists j. }
      destruct (decide (Λ = b)) as [<-|_]; [done|].
      destruct (decide (D = b)) as [<-|_]; [|done].
      exfalso. apply Hnd. by exists i. }
  split; [done|]. split.
  { split; [done|]. intros b c Hc. rewrite Hec.
    destruct (decide (S = b)) as [<-|_].
    { rewrite HcS in Hc. injection Hc as <-. eexists. split; [done|lia]. }
    destruct (decide (Λ = b)) as [<-|_].
    { rewrite HcΛ in Hc. injection Hc as <-. eexists. split; [done|lia]. }
    destruct (decide (D = b)) as [<-|_].
    { rewrite HcD in Hc. injection Hc as <-. eexists. split; [done|lia]. }
    eexists. split; [done|lia]. }
  split.
  { intros b ???. rewrite Hec. rewrite !decide_False by done. done. }
  split.
  { rewrite Hec. rewrite decide_False, decide_False, decide_True by done. done. }
  split.
  { rewrite Hec. rewrite decide_False, decide_True by done. done. }
  rewrite Hec. rewrite decide_True by done. done.
Qed.

End Inv_clean.

Section Inv_shuffle.

Context (g : geometry) (Hg : geometry_ok g).

Local Abbreviation BS := (BLOCK_SIZE g).
Local Abbreviation NL := (NUM_OF_LGC_B g).
Local Abbreviation NP := (NUM_OF_PHY_B g).
Local Abbreviation CAP := (BLOCK_ERASES g).

Lemma block_inj a b : a * BS = b * BS → a = b.
Proof using Hg. pose proof (BLOCK_SIZE_pos g Hg). nia. Qed.

Lemma erase_below_cap_mono st st1 e :
  erase_monotone st st1 → erase_below_cap g st1 e → erase_below_cap g st e.
Proof.
  intros [Hlen Hmono] He Hty. destruct (He Hty) as (b & c1 & Hb & Ha & Hc1 & ?).
  destruct (arr_get_is_Some (erase_count st) b) as [_ [c Hc]].
  { rewrite <- Hlen. apply arr_get_is_Some. eauto. }
  destruct (Hmono b c Hc) as (c' & Hc' & ?).
  exists b, c. split; [done|]. split; [done|]. split; [done|].
  rewrite Hc1 in Hc'. injection Hc' as <-. lia.
Qed.

Lemma erase_monotone_refl st : erase_monotone st st.
Proof. split; [done|]. intros b c ?. exists c. split; [done|lia]. Qed.

Lemma erase_monotone_trans st st1 st2 :
  erase_monotone st st1 → erase_monotone st1 st2 → erase_monotone st st2.
Proof.
  intros [Hl1 H1] [Hl2 H2]. split; [congruence|]. intros b c Hc.
  destruct (H1 b c Hc) as (c1 & Hc1 & ?). destruct (H2 b c1 Hc1) as (c2 & ? & ?).
  exists c2. split; [done|lia].
Qed.

Lemma gc_step_refl st : ftl_inv g st → gc_step g st st.
Proof.
  intros Hinv. split_and!; [done..|apply erase_monotone_refl|].
  exists []. by rewrite app_nil_r.
Qed.

Lemma gc_step_trans st st1 st2 :
  gc_step g st st1 → gc_step g st1 st2 → gc_step g st st2.
Proof.
  intros (_ & He1 & Hm1 & new1 & Hi1 & Hf1) (Hinv & He2 & Hm2 & new2 & Hi2 & Hf2).
  split_and!; [done|congruence|by eapply erase_monotone_trans|].
  exists (new1 ++ new2). split; [by rewrite Hi2, Hi1, app_assoc|].
  apply Forall_app. split; [done|].
  eapply Forall_impl; [done|]. intros e. by apply erase_below_cap_mono.
Qed.

Section With_inv.

Context (st : ftl_state) (Hinv : ftl_inv g st).

(** The search for the logical block that owns the data block [T]. *)
Lemma find_logical_block_total T l0 l :
  (∀ i, i ∈ l → 0 ≤ i < NL) → 0 ≤ T < NP →
  ∃ lb, find_logical_block g st (T * BS) l0 l = Some lb
        ∧ ((lb = l0 ∧ ∀ i, i ∈ l → data_block st i ≠ Some T)
           ∨ ∃ i, i ∈ l ∧ lb = i * BS ∧ data_block st i = Some T).
Proof using Hg Hinv.
  intros Hl HT. pose proof (NL_le_NP g Hg).
  induction l as [|i l IH].
  - exists l0. split; [done|]. left. split; [done|]. intros i Hi.
    by apply elem_of_nil in Hi.
  - cbn [find_logical_block].
    destruct (cpa_block0 g Hg st Hinv i) as (d & Hd & Hdr & Hcpa);
      [apply Hl; by left|].
    rewrite Hcpa. cbn [mbind option_bind]. case_decide as Heq.
    + apply block_inj in Heq as ->. eexists. split; [done|]. right.
      exists i. split; [by left|]. split; [|done].
      apply u32_block; [done|]. specialize (Hl i ltac:(by left)). lia.
    + destruct IH as (lb & Hlb & Hres); [intros; apply Hl; by right|].
      exists lb. split; [done|].
      destruct Hres as [[-> Hall]|(k & Hk & -> & Hdk)].
      * left. split; [done|]. intros k [->|Hk]%elem_of_cons; [|by apply Hall].
        rewrite Hd. intros [= ->]. done.
      * right. exists k. split; [by right|done].
Qed.

Lemma find_owner T i :
  0 ≤ i < NL → data_block st i = Some T → 0 ≤ T < NP →
  find_logical_block g st (T * BS) (RAW_SIZE g) (seqZ 0 NL) = Some (i * BS).
Proof using Hg Hinv.
  intros Hi HT HTr.
  destruct (find_logical_block_total T (RAW_SIZE g) (seqZ 0 NL))
    as (lb & Hlb & Hres); [|done|].
  { intros k Hk%elem_of_seqZ. lia. }
  rewrite Hlb. f_equal. destruct Hres as [[_ Hall]|(k & Hk & -> & Hdk)].
  - exfalso. apply (Hall i); [|done]. apply elem_of_seqZ. lia.
  - apply elem_of_seqZ in Hk. f_equal.
    eapply (inv_data_inj g st Hinv); [| |done..]; lia.
Qed.

(** The first loop: a pair whose two blocks are both under the cap. *)
Lemma shuffle_pair_total :
  ∃ acc,
    for_fold (shuffle_pair_step g st) (seqZ 0 NP) (0, RAW_SIZE g, RAW_SIZE g)
    = Some acc
    ∧ (acc.2 = RAW_SIZE g
       ∨ ∃ D Λ, acc.2 = D * BS ∧ acc.1.2 = Λ * BS ∧ pair_under_cap g st D Λ).
Proof using Hg Hinv.
  pose proof (NL_le_NP g Hg).
  apply (for_fold_total (shuffle_pair_step g st)
           (λ _ acc, acc.2 = RAW_SIZE g
                     ∨ ∃ D Λ, acc.2 = D * BS ∧ acc.1.2 = Λ * BS
                              ∧ pair_under_cap g st D Λ)); [by left|].
  intros _ i [[c1 Λ1] D1] Hi%elem_of_seqZ HI. unfold shuffle_pair_step.
  rewrite (u32_block g Hg) by lia. rewrite (inv_clb0 g Hg st Hinv) by lia.
  cbn [mbind option_bind].
  destruct (log_block st i) as [Λ|] eqn:HΛ; cbn [fmap option_fmap option_map];
    [|by eexists].
  destruct (inv_log g st Hinv i Λ HΛ) as (HΛr & _).
  rewrite !(block_div0 g Hg).
  destruct (inv_ec g st Hinv Λ HΛr) as (lc & Hlc & Hlcr).
  destruct (inv_ec g st Hinv i) as (dc & Hdc & Hdcr); [lia|].
  rewrite Hlc, Hdc. cbn [mbind option_bind fst].
  destruct (bool_decide (lc ≠ CAP)) eqn:H1,
    (bool_decide (dc ≠ CAP)) eqn:H2,
    (bool_decide (c1 ≤ u32 (lc + dc))) eqn:H3;
    cbn [andb]; (eexists; split; [done|]); try done.
  apply bool_decide_eq_true in H1, H2. right. exists i, Λ. cbn [fst snd].
  split; [done|]. split; [done|]. split; [lia|]. split; [done|].
  split; [exists dc|exists lc]; (split; [done|lia]).
Qed.

(** The third loop: a data block without a log block. *)
Lemma shuffle_min_total :
  ∃ acc,
    for_fold (shuffle_min_step g st) (seqZ 0 NL)
      (u32 (CAP + 1), RAW_SIZE g) = Some acc
    ∧ (acc.2 = RAW_SIZE g
       ∨ ∃ j Dm, 0 ≤ j < NL ∧ data_block st j = Some Dm ∧ 0 ≤ Dm < NP
                 ∧ acc.2 = Dm * BS ∧ log_block st Dm = None
                 ∧ arr_get (erase_count st) Dm = Some acc.1).
Proof using Hg Hinv.
  pose proof (NL_le_NP g Hg).
  apply (for_fold_total (shuffle_min_step g st)
           (λ _ acc, acc.2 = RAW_SIZE g
                     ∨ ∃ j Dm, 0 ≤ j < NL ∧ data_block st j = Some Dm
                               ∧ 0 ≤ Dm < NP
                               ∧ acc.2 = Dm * BS ∧ log_block st Dm = None
                               ∧ arr_get (erase_count st) Dm = Some acc.1));
    [by left|].
  intros _ i [c1 a1] Hi%elem_of_seqZ HI. unfold shuffle_min_step.
  destruct (cpa_block0 g Hg st Hinv i) as (d & Hd & Hdr & Hcpa); [lia|].
  rewrite Hcpa. cbn [mbind option_bind].
  rewrite (inv_clb0 g Hg st Hinv) by lia. cbn [mbind option_bind].
  destruct (log_block st d) as [Λ|] eqn:HΛ; cbn [fmap option_fmap option_map];
    [by eexists|].
  rewrite (block_div0 g Hg).
  destruct (inv_ec g st Hinv d Hdr) as (c & Hc & Hcr). rewrite Hc.
  cbn [mbind option_bind fst]. case_decide; (eexists; split; [done|]); [|done].
  right. exists i, d. cbn [fst snd]. split; [lia|]. done.
Qed.

End With_inv.

Lemma find_logical_block_ext st st2 target l0 l :
  logical_to_physical st2 = logical_to_physical st →
  find_logical_block g st2 target l0 l = find_logical_block g st target l0 l.
Proof.
  intros Heq. induction l as [|i l IH]; [done|]. cbn [find_logical_block].
  unfold check_physical_address. rewrite Heq.
  destruct (arr_get _ _); [|done]. cbn [mbind option_bind].
  case_decide; [done|]. apply IH.
Qed.

Lemma cancel_log_block_block st D :
  ftl_inv g st → 0 ≤ D < NP →
  cancel_log_block g st (D * BS)
  = Some (with_data_to_log
            (with_log_to_pages st
               (match log_block st D with
                | Some Λ => delete (Λ * BS) (log_to_pages st)
                | None => log_to_pages st
                end))
            (<[Z.to_nat D := 0]> (data_to_log st))).
Proof using Hg.
  intros Hinv HD. unfold cancel_log_block.
  rewrite (inv_clb0 g Hg st Hinv) by done. cbn [mbind option_bind].
  assert (0 ≤ D < Z.of_nat (length (data_to_log st))) as Hlen.
  { destruct (inv_alloc g st Hinv) as (_ & _ & _ & ->). lia. }
  destruct (log_block st D) as [Λ|]; cbn [fmap option_fmap option_map].
  - rewrite (set_log_block_block g Hg) by done.
    rewrite Z.sub_diag. by destruct st.
  - rewrite (set_log_block_block g Hg) by done.
    rewrite Z.sub_diag. by destruct st.
Qed.

(** The invariant after the shuffle has moved logical block [jm] from
    [Dm] to the unmapped log block [Λ] and pushed [Dm]. *)
Lemma ftl_inv_move st st' jm Dm D Λ :
  ftl_inv g st → tables_allocated g st' →
  logical_to_emptiness st' = logical_to_emptiness st →
  erase_count st' = erase_count st →
  (∀ k, data_block st' k = if decide (jm = k) then Some Λ else data_block st k) →
  (∀ d, log_block st' d = if decide (D = d) then None else log_block st d) →
  log_to_pages st' = delete (Λ * BS) (log_to_pages st) →
  op_blocks st' = op_blocks st ++ [Dm * BS] →
  0 ≤ jm < NL → data_block st jm = Some Dm → log_block st Dm = None →
  log_block st D = Some Λ →
  (∃ c, arr_get (erase_count st) Dm = Some c ∧ c < CAP) →
  ftl_inv g st'.
Proof using Hg.
  intros Hinv Halloc He Hec Hdb Hlb Hman Hpool Hjm HDm HDmlog HΛ HDmcap.
  destruct (inv_log g st Hinv D Λ HΛ) as (HΛr & Hown & HΛnd & _ & HΛpool).
  destruct (inv_data g st Hinv jm Hjm) as (Dm' & HDm' & HDmr).
  rewrite HDm in HDm'. injection HDm' as <-.
  assert (∀ i, block_written g st' i ↔ block_written g st i) as Hbw.
  { intros i. unfold block_written, check_page_empty. by rewrite He. }
  assert (Dm ≠ Λ) as HDmΛ.
  { intros ->. apply HΛnd. by exists jm. }
  assert (∀ b, is_data_block g st' b → b = Λ ∨ (b ≠ Dm ∧ is_data_block g st b))
    as Hdata'.
  { intros b (k & Hk & Hkb). rewrite Hdb in Hkb. case_decide as Hjk.
    - left. congruence.
    - right. split; [|by exists k]. intros ->. apply Hjk.
      by eapply (inv_data_inj g st Hinv). }
  split.
  - done.
  - intros k Hk. rewrite Hdb. case_decide; [by exists Λ|].
    by apply (inv_data g st Hinv).
  - intros k k' d Hk Hk'. rewrite !Hdb. repeat case_decide; subst.
    + done.
    + intros [= <-] Hd. exfalso. apply HΛnd. by exists k'.
    + intros Hd [= <-]. exfalso. apply HΛnd. by exists k.
    + by apply (inv_data_inj g st Hinv).
  - intros d l. rewrite Hlb. case_decide as HDd; [done|]. intros Hl.
    destruct (inv_log g st Hinv d l Hl) as (Hlr & (k & Hk & Hkd & Hkw) & Hlnd
                                            & Hlman & Hlpool).
    assert (l ≠ Λ) as HlΛ.
    { intros ->. apply HDd. by eapply (inv_log_inj g st Hinv). }
    split; [done|]. split.
    { exists k. split; [done|]. rewrite Hdb, Hbw. split; [|done].
      rewrite decide_False; [done|]. intros <-. congruence. }
    split.
    { intros [->|[_ ?]]%Hdata'; done. }
    split.
    { rewrite Hman. rewrite lookup_delete_ne; [done|].
      intros ?%block_inj. done. }
    rewrite Hpool. intros [?| ->%list_elem_of_singleton%block_inj]%elem_of_app;
      [done|]. apply Hlnd. by exists jm.
  - intros d d' l. rewrite !Hlb. repeat case_decide; try done.
    by apply (inv_log_inj g st Hinv).
  - rewrite Hpool. apply NoDup_app. split; [by apply (inv_pool_nodup g st)|].
    split; [|apply NoDup_singleton].
    intros p Hp ->%list_elem_of_singleton.
    destruct (inv_pool g st Hinv _ Hp) as (b & c & ->%block_inj & _ & Hnd & _).
    apply Hnd. by exists jm.
  - intros p. rewrite Hpool, Hec.
    intros [Hp| ->%list_elem_of_singleton]%elem_of_app.
    + destruct (inv_pool g st Hinv _ Hp) as (b & c & -> & Hbr & Hnd & Hc & Hcap).
      exists b, c. split; [done|]. split; [done|]. split; [|done].
      intros [->|[_ ?]]%Hdata'; done.
    + destruct HDmcap as (c & Hc & Hcap). exists Dm, c.
      split; [done|]. split; [done|]. split; [|done].
      intros [->|[? _]]%Hdata'; done.
  - rewrite Hec. apply (inv_erase g st Hinv).
  - intros k s. rewrite Hman. intros [_ Hs]%lookup_delete_Some.
    by apply (inv_manifest g st Hinv k).
Qed.

Lemma block_lt_RAW b : 0 ≤ b < NP → b * BS ≠ RAW_SIZE g.
Proof using Hg.
  intros Hb. rewrite (RAW_SIZE_blocks g Hg).
  pose proof (BLOCK_SIZE_pos g Hg). nia.
Qed.

(** [shuffle_data_log] under the invariant: it fails without touching the
    state, or succeeds as [shuffle_post] describes. *)
Lemma shuffle_inv st :
  ftl_inv g st →
  shuffle_data_log g st = Some (false, st)
  ∨ ∃ st', shuffle_data_log g st = Some (true, st') ∧ shuffle_post g st st'.
Proof using Hg.
  intros Hinv. pose proof (NL_le_NP g Hg) as HN.
  pose proof (BLOCK_ERASES_range g Hg) as HC.
  unfold shuffle_data_log.
  destruct (shuffle_pair_total st Hinv) as ([[maxc Λa] Da] & Hpair & Hsel).
  erewrite bind_reads by exact Hpair. cbn [fst snd] in *.
  destruct Hsel as [->|(D & Λ & -> & -> & HDr & HΛ & (cD & HcD & HcDcap)
                        & (cΛ & HcΛ & HcΛcap))].
  { rewrite bool_decide_true by done. by left. }
  destruct (inv_log g st Hinv D Λ HΛ) as (HΛr & (i & Hi & HD & Hw) & HΛnd
                                          & HΛman & HΛpool).
  rewrite !bool_decide_false by by apply block_lt_RAW. cbn [orb].
  erewrite bind_reads by by apply (find_owner st Hinv D i).
  rewrite bool_decide_false by (apply block_lt_RAW; lia).
  destruct (shuffle_min_total st Hinv) as ([minc Dma] & Hmin & Hsel).
  erewrite bind_reads by exact Hmin. cbn [fst snd] in *.
  destruct Hsel as [->|(jm & Dm & Hjm & HDm & HDmr & -> & HDmlog & Hminc)].
  { rewrite bool_decide_true by done. by left. }
  rewrite bool_decide_false by by apply block_lt_RAW.
  rewrite (u32_small (CAP - 1)) by lia.
  destruct (bool_decide (CAP - 1 ≤ minc)) eqn:Hcap; [by left|].
  apply bool_decide_eq_false in Hcap.
  destruct (clean_inv g Hg st i D Λ cD cΛ) as [Hclean|Hclean]; try done.
  { erewrite bind_eq by exact Hclean. by left. }
  destruct Hclean as (js & S & cS & Hempty & HcS & HcScap & HDΛ & HDS & HΛS
                      & Hclean).
  erewrite bind_eq by exact Hclean. cbn [negb]. right.
  destruct (clean_post g Hg st i D Λ js S cD cΛ cS
              (clean_events g st (i * BS) (D * BS) (Λ * BS) (S * BS)))
    as (Hinv1 & Hsame & Hmono & Hecframe & HecD & HecΛ & HecS); try done.
  set (st1 := with_erase_count _ _) in *.
  destruct Hsame as (He1 & Hp1 & Hd1 & Hm1 & Ho1).
  assert (∀ k, data_block st1 k = data_block st k) as Hdb1.
  { intros k. unfold data_block. by rewrite Hp1. }
  assert (∀ d, log_block st1 d = log_block st d) as Hlb1.
  { intros d. unfold log_block. by rewrite Hd1. }
  erewrite bind_writes by by apply cancel_log_block_block.
  rewrite Hlb1, HΛ.
  set (st2 := with_data_to_log _ _).
  erewrite bind_reads.
  2:{ rewrite (find_logical_block_ext st st2) by done.
      by apply (find_owner st Hinv Dm jm). }
  rewrite bool_decide_false by (apply block_lt_RAW; lia).
  erewrite bind_eq.
  2:{ apply (for_each_appends_total
               (λ s, logical_to_emptiness s = logical_to_emptiness st) _
               (λ s p, if written s (u64 (jm * BS + p))
                       then [event_at (start_time s) READ (u64 (jm * BS + p))
                               (page_of g (Dm * BS) p);
                             event_at (start_time s) WRITE (u64 (jm * BS + p))
                               (page_of g (Λ * BS) p)]
                       else [])); [|done..].
      intros p s Hp%elem_of_seqZ He.
      apply (clean_copy_back_total g Hg st); (done || lia). }
  rewrite bind_issue_at.
  assert (0 ≤ jm < Z.of_nat (length (logical_to_physical st))) as Hjmlen.
  { destruct (inv_alloc g st Hinv) as (_ & _ & -> & _). lia. }
  assert (0 ≤ D < Z.of_nat (length (data_to_log st))) as HDlen.
  { destruct (inv_alloc g st Hinv) as (_ & _ & _ & ->). lia. }
  erewrite bind_writes.
  2:{ apply (set_physical_address_block g Hg); [done|lia|done]. }
  unfold push_back. rewrite (bind_eq _ _ _ () _ eq_refl).
  eexists. split; [reflexivity|].
  set (st' := with_op_blocks _ _).
  assert (∀ k, data_block st' k
               = if decide (jm = k) then Some Λ else data_block st k) as Hdb'.
  { intros k. subst st'. rewrite <- (data_block_insert st jm Λ k) by done.
    unfold data_block. by rewrite <- Hp1. }
  assert (∀ d, log_block st' d = if decide (D = d) then None else log_block st d)
    as Hlb'.
  { intros d. subst st'. unfold log_block.
    cbn [data_to_log with_op_blocks with_logical_to_physical with_issued].
    subst st2. cbn [data_to_log with_data_to_log]. rewrite Hd1.
    rewrite arr_get_insert by lia. case_decide; [|done].
    subst d. destruct (arr_get_is_Some (data_to_log st) D) as [_ [o ->]]; [lia|].
    done. }
  assert (arr_get (erase_count st) Dm = Some minc → 
          ∃ c, arr_get (erase_count st1) Dm = Some c ∧ c < CAP) as HDmcap.
  { intros Hm. destruct (decide (Dm = S)) as [->|HDmS].
    - rewrite HcS in Hm. injection Hm as <-. exists (cS + 1). split; [done|lia].
    - assert (Dm ≠ D) by (intros ->; congruence).
      assert (Dm ≠ Λ) by (intros ->; apply HΛnd; by exists jm).
      rewrite Hecframe by done. exists minc. split; [done|lia]. }
  assert (ftl_inv g st') as Hinv'.
  { apply (ftl_inv_move st1 st' jm Dm D Λ); try done.
    - destruct (inv_alloc g st1 Hinv1) as (? & ? & ? & ?).
      unfold tables_allocated. subst st' st2.
      cbn [logical_to_emptiness erase_count logical_to_physical data_to_log
           with_op_blocks with_logical_to_physical with_issued
           with_data_to_log with_log_to_pages].
      rewrite !length_insert. done.
    - by apply HDmcap. }
  exists i, D, Λ, jm, Dm, js, S.
  split; [done|]. split; [done|]. split; [done|].
  split. { split; [done|]. split; [done|]. split; [by exists cD | by exists cΛ]. }
  split; [done|]. split; [done|]. split; [done|]. split; [done|].
  split; [done|]. split; [done|]. split; [done|].
  split; [reflexivity|]. split; [reflexivity|].
  split; [done|]. split; [by apply HDmcap|].
  split; [done|]. split; [done|]. split; [done|].
  eexists. split.
  { subst st' st2 st1.
    cbn [issued with_op_blocks with_logical_to_physical with_issued
         with_data_to_log with_log_to_pages with_erase_count].
    rewrite <- !app_assoc. reflexivity. }
  apply Forall_app. split.
  { destruct (inv_data g st Hinv i Hi) as (D' & HD' & ?).
    destruct Hempty as (_ & _ & ? & _).
    eapply clean_events_below_cap; done. }
  apply Forall_app. split.
  { apply Forall_flat_map, Forall_forall. intros p _.
    destruct (written _ _); repeat constructor;
      by apply erase_below_cap_other. }
  repeat constructor. eapply erase_below_cap_erase; [done..|lia].
Qed.

End Inv_shuffle.

(** ** The pool of free blocks under the invariant *)

Section Inv_pool.

Context (g : geometry) (Hg : geometry_ok g).

Local Abbreviation BS := (BLOCK_SIZE g).
Local Abbreviation NL := (NUM_OF_LGC_B g).
Local Abbreviation NP := (NUM_OF_PHY_B g).
Local Abbreviation CAP := (BLOCK_ERASES g).

(** Dropping the top of the pool keeps the invariant. *)
Lemma ftl_inv_pop st rest p :
  ftl_inv g st → op_blocks st = rest ++ [p] →
  ftl_inv g (with_op_blocks st rest).
Proof.
  intros Hinv Hpool.
  pose proof (inv_pool_nodup g st Hinv) as Hnd. rewrite Hpool in Hnd.
  apply NoDup_app in Hnd as (Hnd & _ & _).
  split.
  - exact (inv_alloc g st Hinv).
  - exact (inv_data g st Hinv).
  - exact (inv_data_inj g st Hinv).
  - intros d l Hl.
    destruct (inv_log g st Hinv d l Hl) as (? & ? & ? & ? & Hnp).
    split; [done|]. split; [done|]. split; [done|]. split; [done|].
    cbn [op_blocks with_op_blocks]. intros Hin. apply Hnp. rewrite Hpool.
    apply elem_of_app. by left.
  - exact (inv_log_inj g st Hinv).
  - exact Hnd.
  - intros q Hq. apply (inv_pool g st Hinv). rewrite Hpool.
    apply elem_of_app. by left.
  - exact (inv_erase g st Hinv).
  - exact (inv_manifest g st Hinv).
Qed.

(** Under the invariant the block on top of the pool is below the cap, so
    the loop of [next_unmapped_log_block] returns it at its first turn. *)
Lemma pop_top st rest p :
  ftl_inv g st → op_blocks st = rest ++ [p] →
  ∃ b, p = b * BS ∧ 0 ≤ b < NP
       ∧ next_unmapped_loop g (length (op_blocks st)) 0 st
         = Some (Some p, with_op_blocks st rest)
       ∧ ftl_inv g (with_op_blocks st rest)
       ∧ ¬ is_data_block g st b ∧ p ∉ rest
       ∧ (∀ d, log_block st d ≠ Some b) ∧ log_block st b = None
       ∧ ∃ c, arr_get (erase_count st) b = Some c ∧ c < CAP.
Proof using Hg.
  intros Hinv Hpool.
  destruct (inv_pool g st Hinv p) as (b & c & -> & Hb & Hnd & Hc & Hcap).
  { rewrite Hpool. apply elem_of_app. right. by apply list_elem_of_singleton. }
  exists b. split; [done|]. split; [done|].
  split.
  { assert (∀ fuel, next_unmapped_loop g fuel 0 st
                    = Some (Some (b * BS), with_op_blocks st rest)) as H;
      [|apply H].
    assert (pop_back (op_blocks st) = rest) as Hpop.
    { unfold pop_back. rewrite Hpool, length_app. cbn [length].
      replace (length rest + 1 - 1)%nat with (length rest) by lia.
      by rewrite take_app_length. }
    assert (arr_get (op_blocks st) (Z.of_nat (length (op_blocks st)) - 1 - 0)
            = Some (b * BS)) as Hget.
    { unfold arr_get. rewrite Hpool, length_app. cbn [length].
      rewrite decide_True by lia.
      replace (Z.to_nat (Z.of_nat (length rest + 1) - 1 - 0))
        with (length rest) by lia.
      rewrite lookup_app_r by lia. by rewrite Nat.sub_diag. }
    assert (over_erase_limit g (with_op_blocks st rest) (b * BS) = Some false)
      as Hover.
    { rewrite (over_erase_limit_block g Hg).
      cbn [erase_count with_op_blocks]. rewrite Hc. cbn [fmap option_fmap option_map].
      by rewrite bool_decide_false by lia. }
    intros fuel.
    destruct fuel; cbn [next_unmapped_loop];
      (rewrite decide_True by (rewrite Hpool, length_app; cbn [length]; lia));
      rewrite Hget; cbn [mbind option_bind]; rewrite Hpop, Hover; done. }
  split; [by eapply ftl_inv_pop|].
  split; [done|].
  split.
  { pose proof (inv_pool_nodup g st Hinv) as Hnodup. rewrite Hpool in Hnodup.
    apply NoDup_app in Hnodup as (_ & Hdisj & _). intros Hin.
    apply (Hdisj _ Hin). by apply list_elem_of_singleton. }
  assert (b * BS ∈ op_blocks st) as Hin.
  { rewrite Hpool. apply elem_of_app. right. by apply list_elem_of_singleton. }
  split.
  { intros d Hd. by destruct (inv_log g st Hinv d b Hd) as (_ & _ & _ & _ & ?). }
  split; [|by exists c].
  destruct (log_block st b) as [l|] eqn:Hl; [|done].
  destruct (inv_log g st Hinv b l Hl) as (_ & (i & Hi & Hdi & _) & _).
  exfalso. apply Hnd. by exists i.
Qed.

(** [next_unmapped_log_block] under the invariant: it fails without
    touching the state, or hands out a fresh block. *)
Lemma next_unmapped_inv st :
  ftl_inv g st →
  next_unmapped_log_block g st = Some (None, st)
  ∨ ∃ b st', next_unmapped_log_block g st = Some (Some (b * BS), st')
             ∧ fresh_block g st b st' ∧ gc_step g st st'.
Proof using Hg.
  intros Hinv. unfold next_unmapped_log_block.
  rewrite (bind_reads (λ s, Some (bool_decide (op_blocks s = []))) _ st _
             eq_refl).
  destruct (decide (op_blocks st = [])) as [Hempty|Hne].
  - rewrite bool_decide_true by done.
    destruct (shuffle_inv g Hg st Hinv) as [Hs|(st1 & Hs & Hpost)].
    { erewrite bind_eq by exact Hs. by left. }
    erewrite bind_eq by exact Hs. cbn [negb]. right.
    destruct Hpost as (i & D & Λ & jm & Dm & js & S & Hi & HD & Hw & Hpair
                       & Hjm & HDm & HDmr & HDmlog & Hscr & Hdb & Hlb & Hman
                       & Hpool & Hecframe & HDmcap & Hgc).
    rewrite Hempty in Hpool. cbn [app] in Hpool.
    destruct Hgc as (Hinv1 & Hemp & Hmono & Hev).
    destruct (pop_top st1 [] (Dm * BS) Hinv1 Hpool)
      as (b & Hb & Hbr & Hloop & Hinv' & Hbnd & _ & Hbnl & _ & Hbc).
    apply (block_inj g Hg) in Hb. subst b.
    exists Dm, (with_op_blocks st1 []). split; [exact Hloop|].
    split; [|done].
    split; [done|]. split; [done|].
    split; [cbn [op_blocks with_op_blocks]; by intros ?%elem_of_nil|].
    split; [done|]. split; [done|]. split; [done|].
    split.
    { intros k Hk. change (data_block (with_op_blocks st1 []) k)
        with (data_block st1 k). rewrite Hdb.
      case_decide; [subst k; by right | by left]. }
    split.
    { intros d. change (log_block (with_op_blocks st1 []) d)
        with (log_block st1 d). rewrite Hlb.
      case_decide; [subst d|by left]. right. split; [done|].
      destruct Hpair as (_ & HΛ & (cd & ? & ?) & (cl & ? & ?)).
      by exists Λ, cd, cl. }
    split.
    { intros d l. change (log_block (with_op_blocks st1 []) d)
        with (log_block st1 d). rewrite Hlb.
      case_decide as HDd; [done|]. intros Hl.
      change (log_to_pages (with_op_blocks st1 [])) with (log_to_pages st1).
      rewrite Hman. apply lookup_delete_ne. intros Heq.
      apply (block_inj g Hg) in Heq. subst l.
      destruct Hpair as (_ & HΛ & _).
      apply HDd. by apply (inv_log_inj g st Hinv D d Λ). }
    intros k d Hk Hd Hkw.
    change (log_block (with_op_blocks st1 []) d) with (log_block st1 d).
    rewrite Hlb. case_decide as HDd; [by intros [? ?]|]. intros _.
    change (erase_count (with_op_blocks st1 [])) with (erase_count st1).
    destruct Hpair as (_ & HΛ & _).
    destruct (inv_log g st Hinv D Λ HΛ) as (_ & _ & HΛnd & _).
    destruct Hscr as (Hjs & HS & _ & Hnw & _).
    apply Hecframe; [done| |].
    + intros ->. apply HΛnd. by exists k.
    + intros ->. apply Hnw.
      by rewrite <- (inv_data_inj g st Hinv k js S Hk Hjs Hd HS).
  - right. destruct (exists_last Hne) as (rest & p & Hpool).
    rewrite bool_decide_false by done. rewrite bind_mret. cbn [negb].
    destruct (pop_top st rest p Hinv Hpool)
      as (b & -> & Hbr & Hloop & Hinv' & Hbnd & Hnin & Hbnl & Hbl & Hbc).
    exists b, (with_op_blocks st rest). split.
    { exact Hloop. }
    split.
    + split; [done|]. split; [done|]. split; [done|]. split; [done|].
      split; [done|]. split; [done|]. split; [by left|]. split; [by left|].
      done.
    + split; [done|]. split; [done|].
      split; [exact (erase_monotone_refl st)|].
      exists []. split; [by rewrite app_nil_r | constructor].
Qed.

End Inv_pool.

(** ** Updates of the maps that keep the invariant *)

Section Inv_maps.

Context (g : geometry) (Hg : geometry_ok g).

Local Abbreviation BS := (BLOCK_SIZE g).
Local Abbreviation NL := (NUM_OF_LGC_B g).
Local Abbreviation NP := (NUM_OF_PHY_B g).
Local Abbreviation CAP := (BLOCK_ERASES g).

(** The bitmap gains bits and the manifests change, every mapped log block
    keeping one. *)
Lemma ftl_inv_manifests s s' :
  ftl_inv g s → tables_allocated g s' →
  (∀ k, block_written g s k → block_written g s' k) →
  erase_count s' = erase_count s →
  logical_to_physical s' = logical_to_physical s →
  data_to_log s' = data_to_log s →
  op_blocks s' = op_blocks s →
  (∀ x l, log_block s x = Some l → is_Some (log_to_pages s' !! (l * BS))) →
  (∀ k v, log_to_pages s' !! k = Some v → manifest_ok g v) →
  ftl_inv g s'.
Proof.
  intros Hinv Halloc Hbw Hec Hp Hd Ho Hman1 Hman2.
  assert (∀ k, data_block s' k = data_block s k) as Hdb.
  { intros k. unfold data_block. by rewrite Hp. }
  assert (∀ x, log_block s' x = log_block s x) as Hlb.
  { intros x. unfold log_block. by rewrite Hd. }
  assert (∀ x, is_data_block g s' x ↔ is_data_block g s x) as Hidb.
  { intros x. unfold is_data_block. by setoid_rewrite Hdb. }
  split.
  - done.
  - intros k Hk. rewrite Hdb. by apply (inv_data g s Hinv).
  - intros k j x Hk Hj. rewrite !Hdb. by apply (inv_data_inj g s Hinv).
  - intros x l. rewrite Hlb, Hidb, Ho. intros Hl.
    destruct (inv_log g s Hinv x l Hl) as (? & (k & ? & ? & ?) & ? & ? & ?).
    split; [done|]. split; [exists k; rewrite Hdb; by auto|].
    split; [done|]. split; [by eapply Hman1|done].
  - intros x x' l. rewrite !Hlb. apply (inv_log_inj g s Hinv).
  - rewrite Ho. apply (inv_pool_nodup g s Hinv).
  - intros p. rewrite Ho. intros Hp'.
    destruct (inv_pool g s Hinv p Hp') as (b & c & -> & ? & ? & ? & ?).
    exists b, c. rewrite Hidb, Hec. done.
  - rewrite Hec. apply (inv_erase g s Hinv).
  - done.
Qed.

(** The free block [m] becomes the log block of the data block [d] of the
    written logical block [i]. *)
Lemma ftl_inv_set_log s s' i d m :
  ftl_inv g s → tables_allocated g s' →
  logical_to_emptiness s' = logical_to_emptiness s →
  erase_count s' = erase_count s →
  logical_to_physical s' = logical_to_physical s →
  op_blocks s' = op_blocks s →
  0 ≤ i < NL → data_block s i = Some d → block_written g s i →
  0 ≤ m < NP → ¬ is_data_block g s m → m * BS ∉ op_blocks s →
  (∀ x, log_block s x ≠ Some m) →
  (∀ x, log_block s' x = if decide (x = d) then Some m else log_block s x) →
  is_Some (log_to_pages s' !! (m * BS)) →
  (∀ x l, x ≠ d → log_block s x = Some l →
          is_Some (log_to_pages s' !! (l * BS))) →
  (∀ k v, log_to_pages s' !! k = Some v → manifest_ok g v) →
  ftl_inv g s'.
Proof.
  intros Hinv Halloc He Hec Hp Ho Hi Hd Hw Hm Hmnd Hmpool Hmnl Hlb
    Hman1 Hman2 Hman3.
  assert (∀ k, data_block s' k = data_block s k) as Hdb.
  { intros k. unfold data_block. by rewrite Hp. }
  assert (∀ x, is_data_block g s' x ↔ is_data_block g s x) as Hidb.
  { intros x. unfold is_data_block. by setoid_rewrite Hdb. }
  assert (∀ k, block_written g s' k ↔ block_written g s k) as Hbw.
  { intros k. unfold block_written, check_page_empty. by rewrite He. }
  split.
  - done.
  - intros k Hk. rewrite Hdb. by apply (inv_data g s Hinv).
  - intros k j x Hk Hj. rewrite !Hdb. by apply (inv_data_inj g s Hinv).
  - intros x l. rewrite Hlb, Hidb, Ho. case_decide as Hx.
    + intros [= <-]. subst x. split; [done|].
      split; [|done]. exists i. by rewrite Hdb, Hbw.
    + intros Hl.
      destruct (inv_log g s Hinv x l Hl) as (? & (k & ? & ? & ?) & ? & ? & ?).
      split; [done|]. split; [exists k; by rewrite Hdb, Hbw|].
      split; [done|]. split; [by eapply Hman2|done].
  - intros x x' l. rewrite !Hlb.
    destruct (decide (x = d)) as [->|Hx], (decide (x' = d)) as [->|Hx'].
    + done.
    + intros [= <-] Hl. by destruct (Hmnl x').
    + intros Hl [= <-]. by destruct (Hmnl x).
    + apply (inv_log_inj g s Hinv).
  - rewrite Ho. apply (inv_pool_nodup g s Hinv).
  - intros p. rewrite Ho. intros Hp'.
    destruct (inv_pool g s Hinv p Hp') as (b & c & -> & ? & ? & ? & ?).
    exists b, c. rewrite Hidb, Hec. done.
  - rewrite Hec. apply (inv_erase g s Hinv).
  - done.
Qed.

(** The logical block [i] moves from its data block [d] to the block [n],
    which takes over the log block [l] of [d]; [n] was free, or it was the
    data block of the logical block [j], which takes [d] in exchange. *)
Lemma ftl_inv_remap_data s s' i d l n oj :
  ftl_inv g s → tables_allocated g s' →
  logical_to_emptiness s' = logical_to_emptiness s →
  erase_count s' = erase_count s →
  log_to_pages s' = log_to_pages s →
  op_blocks s' = op_blocks s →
  0 ≤ i < NL → data_block s i = Some d → log_block s d = Some l →
  0 ≤ n < NP → log_block s n = None → (∀ x, log_block s x ≠ Some n) →
  n * BS ∉ op_blocks s →
  match oj with
  | Some j => 0 ≤ j < NL ∧ data_block s j = Some n
  | None => ¬ is_data_block g s n
  end →
  (∀ k, data_block s' k = if decide (k = i) then Some n
                           else if decide (oj = Some k) then Some d
                           else data_block s k) →
  (∀ x, log_block s' x = if decide (x = n) then Some l
                          else if decide (x = d) then None
                          else log_block s x) →
  ftl_inv g s'.
Proof using Hg.
  intros Hinv Halloc He Hec Hm Ho Hi Hd Hl Hn Hnlog Hnnl Hnpool Hoj Hdb Hlb.
  assert (∀ k, block_written g s' k ↔ block_written g s k) as Hbw.
  { intros k. unfold block_written, check_page_empty. by rewrite He. }
  assert (n ≠ d) as Hnd by (intros ->; congruence).
  assert (l ≠ n) as Hln by (intros ->; by destruct (Hnnl d)).
  destruct (inv_log g s Hinv d l Hl)
    as (Hlr & (i' & Hi' & Hdi' & Hw) & Hlnd & Hlman & Hlpool).
  assert (i' = i) as -> by by eapply (inv_data_inj g s Hinv).
  assert (l ≠ d) as Hld by (intros ->; apply Hlnd; by exists i).
  destruct (inv_data g s Hinv i Hi) as (d' & Hd' & Hdr).
  rewrite Hd in Hd'. injection Hd' as <-.
  assert (∀ k, 0 ≤ k < NL → data_block s k = Some n → oj = Some k) as Hown.
  { intros k Hk Hkn. destruct oj as [j|].
    - destruct Hoj as [Hj Hjn]. f_equal.
      by eapply (inv_data_inj g s Hinv).
    - exfalso. apply Hoj. by exists k. }
  assert (∀ x, is_data_block g s' x → x = n ∨ x = d ∨ is_data_block g s x)
    as Hidb.
  { intros x (k & Hk & Hkx). rewrite Hdb in Hkx.
    repeat case_decide; [left|right; left|right; right; by exists k];
      congruence. }
  split.
  - done.
  - intros k Hk. rewrite Hdb. repeat case_decide; [by eexists..|].
    by apply (inv_data g s Hinv).
  - intros k j x Hk Hj. rewrite !Hdb.
    destruct (decide (k = i)) as [->|Hki], (decide (j = i)) as [->|Hji];
      [done|..].
    + intros [= <-]. case_decide as Hojj; [congruence|]. intros Hjn.
      by destruct Hojj; apply Hown.
    + case_decide as Hojk; [congruence|]. intros Hkn [= <-].
      by destruct Hojk; apply Hown.
    + destruct (decide (oj = Some k)) as [Hk'|Hk'],
        (decide (oj = Some j)) as [Hj'|Hj'].
      * congruence.
      * intros [= <-] Hjd. destruct Hji.
        by eapply (inv_data_inj g s Hinv).
      * intros Hkd [= <-]. destruct Hki.
        by eapply (inv_data_inj g s Hinv).
      * by apply (inv_data_inj g s Hinv).
  - intros x l'. rewrite Hlb, Hm, Ho.
    destruct (decide (x = n)) as [->|Hxn].
    { intros [= <-]. split; [done|].
      split. { exists i. rewrite Hdb, Hbw, decide_True by done. done. }
      split; [|done]. intros [?|[?|?]]%Hidb; done. }
    destruct (decide (x = d)) as [->|Hxd]; [done|]. intros Hl'.
    destruct (inv_log g s Hinv x l' Hl')
      as (? & (k & Hk & Hkx & ?) & Hl'nd & ? & ?).
    split; [done|]. split.
    { exists k. rewrite Hdb, Hbw. split; [done|]. split; [|done].
      rewrite decide_False by (intros ->; congruence).
      rewrite decide_False; [done|]. intros Hojk. destruct oj as [j|]; [|done].
      injection Hojk as ->. destruct Hoj as [_ Hjn]. congruence. }
    split; [|done]. intros [->|[->|?]]%Hidb; [by destruct (Hnnl x)| |done].
    apply Hl'nd. by exists i.
  - intros x x' l0. rewrite !Hlb.
    destruct (decide (x = n)) as [->|Hxn], (decide (x' = n)) as [->|Hx'n];
      [done|..].
    + intros [= <-]. case_decide; [done|]. intros Hx'l.
      exfalso. by eapply H, (inv_log_inj g s Hinv).
    + case_decide; [done|]. intros Hxl [= <-].
      exfalso. by eapply H, (inv_log_inj g s Hinv).
    + repeat case_decide; try done. apply (inv_log_inj g s Hinv).
  - rewrite Ho. apply (inv_pool_nodup g s Hinv).
  - intros p. rewrite Ho. intros Hp'.
    destruct (inv_pool g s Hinv p Hp') as (b & c & -> & ? & Hbnd & ? & ?).
    exists b, c. rewrite Hec. split; [done|]. split; [done|].
    split; [|done]. intros [->|[->|?]]%Hidb; [done| |done].
    apply Hbnd. by exists i.
  - rewrite Hec. apply (inv_erase g s Hinv).
  - rewrite Hm. apply (inv_manifest g s Hinv).
Qed.

End Inv_maps.

(** ** Remapping of worn blocks *)

Lemma non_erase_below_cap g st e : non_erase e → erase_below_cap g st e.
Proof. intros He Hty. done. Qed.

(** A loop whose turns only issue READ and WRITE events. *)
Lemma for_each_quiet (P : ftl_state → Prop) (body : Z → M unit) ixs :
  (∀ i s, i ∈ ixs → P s →
     ∃ evs, body i s = Some ((), with_issued s (issued s ++ evs))
            ∧ Forall non_erase evs) →
  (∀ s l, P s → P (with_issued s l)) →
  ∀ s, P s →
    ∃ evs, for_each body ixs s = Some ((), with_issued s (issued s ++ evs))
           ∧ Forall non_erase evs.
Proof.
  intros Hbody HP. induction ixs as [|i ixs IH]; intros s Hs.
  - exists []. split; [|done]. simpl. by rewrite app_nil_r, with_issued_same.
  - destruct (Hbody i s) as (evs1 & H1 & Hq1); [by left|done|].
    destruct (IH) with (s := with_issued s (issued s ++ evs1))
      as (evs2 & H2 & Hq2);
      [intros j s' Hj; apply Hbody; by right|by apply HP|].
    exists (evs1 ++ evs2). split; [|by apply Forall_app].
    cbn [for_each]. erewrite bind_eq by exact H1. rewrite H2.
    simpl. by rewrite with_issued_twice, <- app_assoc.
Qed.

(** The same for a loop that threads an accumulator, with an invariant
    [I] of the turns done and the accumulator. *)
Lemma for_foldM_quiet {A} (P : ftl_state → Prop) (I : list Z → A → Prop)
    (body : Z → A → M A) ixs acc0 :
  I [] acc0 →
  (∀ l1 i l2 acc s, ixs = l1 ++ i :: l2 → P s → I l1 acc →
     ∃ acc' evs, body i acc s = Some (acc', with_issued s (issued s ++ evs))
                 ∧ Forall non_erase evs ∧ I (l1 ++ [i]) acc') →
  (∀ s l, P s → P (with_issued s l)) →
  ∀ s, P s →
    ∃ acc evs, for_foldM body ixs acc0 s
               = Some (acc, with_issued s (issued s ++ evs))
               ∧ Forall non_erase evs ∧ I ixs acc.
Proof.
  intros H0 Hbody HP.
  cut (∀ l2 l1 acc s, ixs = l1 ++ l2 → P s → I l1 acc →
         ∃ acc' evs, for_foldM body l2 acc s
                     = Some (acc', with_issued s (issued s ++ evs))
                     ∧ Forall non_erase evs ∧ I ixs acc').
  { intros Hcut s Hs. by apply (Hcut ixs [] acc0 s). }
  induction l2 as [|i l2 IH]; intros l1 acc s Hixs Hs HI.
  - exists acc, []. rewrite app_nil_r in Hixs. subst l1.
    split; [|done]. simpl. by rewrite app_nil_r, with_issued_same.
  - destruct (Hbody l1 i l2 acc s Hixs Hs HI) as (acc1 & evs1 & H1 & Hq1 & HI1).
    destruct (IH (l1 ++ [i]) acc1 (with_issued s (issued s ++ evs1)))
      as (acc2 & evs2 & H2 & Hq2 & HI2);
      [by rewrite <- app_assoc|by apply HP|done|].
    exists acc2, (evs1 ++ evs2). split; [|by split; [apply Forall_app|]].
    cbn [for_foldM]. erewrite bind_eq by exact H1. rewrite H2.
    simpl. by rewrite with_issued_twice, <- app_assoc.
Qed.

Section Inv_remap.

Context (g : geometry) (Hg : geometry_ok g).

Local Abbreviation BS := (BLOCK_SIZE g).
Local Abbreviation NL := (NUM_OF_LGC_B g).
Local Abbreviation NP := (NUM_OF_PHY_B g).
Local Abbreviation CAP := (BLOCK_ERASES g).

Lemma remap_data_move_quiet s0 i src dst offs p s :
  ftl_inv g s0 → 0 ≤ i < NL → 0 ≤ p < BS → manifest_ok g offs →
  logical_to_emptiness s = logical_to_emptiness s0 →
  ∃ evs, remap_data_move g (i * BS) src dst (Some offs) p s
         = Some ((), with_issued s (issued s ++ evs))
         ∧ Forall non_erase evs.
Proof using Hg.
  intros Hinv Hi Hp Hoffs He. pose proof (NL_le_NP g Hg).
  unfold remap_data_move. rewrite (u64_page g Hg) by (done || lia).
  destruct (inv_cpe g Hg s0 Hinv (i * BS + p)) as [e He'];
    [by apply logical_page_range|].
  erewrite bind_reads; [|unfold check_page_empty in *; by rewrite He].
  destruct e.
  { exists []. split; [|done]. by rewrite app_nil_r, with_issued_same. }
  rewrite (bind_reads (λ _, Some offs) _ s offs eq_refl).
  destruct (fetch_log_page_defined g Hg offs p Hoffs) as [r Hr].
  rewrite (bind_reads (λ _, fetch_log_page offs p) _ s r Hr).
  destruct r.
  { exists []. split; [|done]. by rewrite app_nil_r, with_issued_same. }
  rewrite bind_issue_at. eexists [_; _]. split.
  - unfold issue_at, issue. rewrite with_issued_twice. simpl.
    by rewrite <- app_assoc.
  - by repeat constructor.
Qed.

Lemma remap_log_move_quiet s0 i src dst offs p s pages :
  ftl_inv g s0 → 0 ≤ i < NL → 0 ≤ p < BS → manifest_ok g offs →
  logical_to_emptiness s = logical_to_emptiness s0 →
  Z.of_nat (length pages) < BS →
  ∃ pages' evs,
    remap_log_move g (i * BS) src dst (Some offs) p
      (Z.of_nat (length pages), manifest_of pages) s
    = Some ((Z.of_nat (length pages'), manifest_of pages'),
            with_issued s (issued s ++ evs))
    ∧ Forall non_erase evs
    ∧ (pages' = pages ∨ pages' = pages ++ [p]).
Proof using Hg.
  intros Hinv Hi Hp Hoffs He Hlen. pose proof (NL_le_NP g Hg).
  pose proof (BLOCK_SIZE_range g Hg).
  unfold remap_log_move. rewrite (u64_page g Hg) by (done || lia).
  destruct (inv_cpe g Hg s0 Hinv (i * BS + p)) as [e He'];
    [by apply logical_page_range|].
  erewrite bind_reads; [|unfold check_page_empty in *; by rewrite He].
  destruct e.
  { exists pages, []. split; [|by split; [|left]].
    by rewrite app_nil_r, with_issued_same. }
  rewrite (bind_reads (λ _, Some offs) _ s offs eq_refl).
  destruct (fetch_log_page_defined g Hg offs p Hoffs) as [r Hr].
  rewrite (bind_reads (λ _, fetch_log_page offs p) _ s r Hr).
  destruct r as [k|].
  2:{ exists pages, []. split; [|by split; [|left]].
      by rewrite app_nil_r, with_issued_same. }
  rewrite !bind_issue_at. exists (pages ++ [p]). eexists [_; _].
  split.
  - cbn [fst snd]. rewrite s32_small by lia.
    rewrite with_issued_twice. simpl. rewrite <- app_assoc.
    rewrite manifest_of_app, length_app. cbn [length].
    change (manifest_of [p]) with ((Str.to_string p ++ [Str.comma]) ++ []).
    rewrite app_nil_r.
    replace (Z.of_nat (length pages + 1)) with (Z.of_nat (length pages) + 1)
      by lia.
    reflexivity.
  - split; [by repeat constructor|by right].
Qed.

Lemma db_insert (a : list Z) i b k :
  0 ≤ i < Z.of_nat (length a) →
  (arr_get (<[Z.to_nat i := b - i]> a) k ≫= λ off, Some (k + off))
  = if decide (i = k) then Some b else arr_get a k ≫= λ off, Some (k + off).
Proof.
  intros Hi. rewrite arr_get_insert by lia. case_decide; [|done]. subst k.
  destruct (arr_get_is_Some a i) as [_ [o ->]]; [lia|]. cbn. f_equal. lia.
Qed.

Lemma lb_insert (a : list Z) d b x :
  0 ≤ d < Z.of_nat (length a) →
  (arr_get (<[Z.to_nat d := b - d]> a) x
     ≫= λ off, if decide (off = 0) then None else Some (x + off))
  = if decide (d = x) then (if decide (b = d) then None else Some b)
    else arr_get a x ≫= λ off, if decide (off = 0) then None else Some (x + off).
Proof.
  intros Hd. rewrite arr_get_insert by lia. case_decide; [|done]. subst x.
  destruct (arr_get_is_Some a d) as [_ [o ->]]; [lia|].
  cbn. repeat case_decide; try lia; f_equal; lia.
Qed.

Local Ltac fields :=
  cbn [logical_to_emptiness erase_count logical_to_physical data_to_log
       log_to_pages start_time op_blocks issued
       with_emptiness with_erase_count with_logical_to_physical
       with_data_to_log with_log_to_pages with_start_time with_op_blocks
       with_issued].

Local Ltac len := fields; rewrite ?length_insert; lia.

(** The second half of [remap_data_block], once the block [n] the logical
    block moves to is chosen. *)
Lemma remap_data_tail s i d l n oj :
  ftl_inv g s → 0 ≤ i < NL → data_block s i = Some d →
  log_block s d = Some l →
  0 ≤ n < NP → log_block s n = None → (∀ x, log_block s x ≠ Some n) →
  n * BS ∉ op_blocks s →
  match oj with
  | Some j => 0 ≤ j < NL ∧ data_block s j = Some n
  | None => ¬ is_data_block g s n
  end →
  ∃ s',
    (reads (λ st, Some (log_to_pages st !! (l * BS))) ≫= λ log_pages,
     for_each (remap_data_move g (i * BS) (d * BS) (n * BS) log_pages)
       (seqZ 0 BS) ≫= λ _,
     (if bool_decide (default (RAW_SIZE g) ((λ j, j * BS) <$> oj) ≠ RAW_SIZE g)
      then writes (λ st, set_physical_address g st
                           (default (RAW_SIZE g) ((λ j, j * BS) <$> oj))
                           (d * BS))
      else mret ()) ≫= λ _,
     writes (λ st, set_physical_address g st (i * BS) (n * BS)) ≫= λ _,
     writes (λ st, set_log_block g st (d * BS) (d * BS)) ≫= λ _,
     writes (λ st, set_log_block g st (n * BS) (l * BS)) ≫= λ _,
     mret (n * BS)) s
    = Some (n * BS, s')
    ∧ gc_step g s s' ∧ data_block s' i = Some n ∧ log_block s' n = Some l
    ∧ erase_count s' = erase_count s.
Proof using Hg.
  intros Hinv Hi Hd Hl Hn Hnlog Hnnl Hnpool Hoj.
  pose proof (NL_le_NP g Hg) as HN.
  destruct (inv_alloc g s Hinv) as (Ha1 & Ha2 & Ha3 & Ha4).
  destruct (inv_log g s Hinv d l Hl) as (Hlr & _ & _ & [offs Hoffs] & _).
  destruct (inv_data g s Hinv i Hi) as (d' & Hd' & Hdr).
  rewrite Hd in Hd'. injection Hd' as <-.
  assert (n ≠ d) as Hnd by (intros ->; congruence).
  assert (l ≠ n) as Hln by (intros ->; by destruct (Hnnl d)).
  rewrite (bind_reads (λ st, Some (log_to_pages st !! (l * BS))) _ s _ eq_refl).
  rewrite Hoffs.
  destruct (for_each_quiet
              (λ s1, logical_to_emptiness s1 = logical_to_emptiness s)
              (remap_data_move g (i * BS) (d * BS) (n * BS) (Some offs))
              (seqZ 0 BS)) with (s := s) as (evs & Hloop & Hq).
  { intros p s1 Hp%elem_of_seqZ Hs1.
    apply (remap_data_move_quiet s);
      [done|done|lia|by eapply inv_manifest|done]. }
  { done. }
  { done. }
  erewrite bind_eq by exact Hloop.
  assert (∀ s', tables_allocated g s' →
            logical_to_emptiness s' = logical_to_emptiness s →
            erase_count s' = erase_count s →
            log_to_pages s' = log_to_pages s →
            op_blocks s' = op_blocks s →
            issued s' = issued s ++ evs →
            (∀ k, data_block s' k
                  = if decide (k = i) then Some n
                    else if decide (oj = Some k) then Some d
                    else data_block s k) →
            (∀ x, log_block s' x
                  = if decide (x = n) then Some l
                    else if decide (x = d) then None
                    else log_block s x) →
            gc_step g s s' ∧ data_block s' i = Some n
            ∧ log_block s' n = Some l ∧ erase_count s' = erase_count s)
    as Hfinal.
  { intros s' Halloc He Hec Hm Ho Hiss Hdb Hlb.
    split.
    { split; [by eapply (ftl_inv_remap_data g Hg s s' i d l n oj)|].
      split; [done|]. split.
      { split; [by rewrite Hec|]. intros b c Hc. exists c. rewrite Hec.
        split; [done|lia]. }
      exists evs. split; [done|].
      eapply Forall_impl; [done|]. intros e. apply non_erase_below_cap. }
    split; [by rewrite Hdb, decide_True|].
    split; [by rewrite Hlb, decide_True|done]. }
  destruct oj as [j|]; cbn [default fmap option_fmap option_map].
  - destruct Hoj as [Hj Hjn].
    rewrite bool_decide_true by (apply (block_lt_RAW g Hg); lia).
    erewrite bind_writes
      by (apply (set_physical_address_block g Hg); [len|lia|done]).
    erewrite bind_writes
      by (apply (set_physical_address_block g Hg); [len|lia|done]).
    erewrite bind_writes by (apply (set_log_block_block g Hg); [len|done..]).
    erewrite bind_writes by (apply (set_log_block_block g Hg); [len|done..]).
    eexists. split; [reflexivity|]. apply Hfinal; try reflexivity.
    + unfold tables_allocated. fields. rewrite !length_insert. done.
    + intros k. unfold data_block. fields.
      rewrite !db_insert by (rewrite ?length_insert; lia).
      destruct (decide (i = k)) as [->|]; [by rewrite decide_True|].
      rewrite (decide_False (P := k = i)) by congruence.
      destruct (decide (j = k)) as [->|]; [by rewrite decide_True|].
      rewrite (decide_False (P := Some j = Some k)) by congruence. done.
    + intros x. unfold log_block. fields.
      rewrite !lb_insert by (rewrite ?length_insert; lia).
      destruct (decide (n = x)) as [->|].
      { rewrite (decide_True (P := x = x)) by done.
        by rewrite (decide_False (P := l = x)). }
      rewrite (decide_False (P := x = n)) by congruence.
      destruct (decide (d = x)) as [->|].
      { rewrite (decide_True (P := x = x)) by done.
        by rewrite (decide_True (P := x = x)). }
      by rewrite (decide_False (P := x = d)) by congruence.
  - rewrite bool_decide_false by (by intros ?).
    rewrite bind_mret.
    erewrite bind_writes
      by (apply (set_physical_address_block g Hg); [len|lia|done]).
    erewrite bind_writes by (apply (set_log_block_block g Hg); [len|done..]).
    erewrite bind_writes by (apply (set_log_block_block g Hg); [len|done..]).
    eexists. split; [reflexivity|]. apply Hfinal; try reflexivity.
    + unfold tables_allocated. fields. rewrite !length_insert. done.
    + intros k. unfold data_block. fields.
      rewrite !db_insert by (rewrite ?length_insert; lia).
      destruct (decide (i = k)) as [->|]; [by rewrite decide_True|].
      rewrite (decide_False (P := k = i)) by congruence.
      by rewrite (decide_False (P := None = Some k)).
    + intros x. unfold log_block. fields.
      rewrite !lb_insert by (rewrite ?length_insert; lia).
      destruct (decide (n = x)) as [->|].
      { rewrite (decide_True (P := x = x)) by done.
        by rewrite (decide_False (P := l = x)). }
      rewrite (decide_False (P := x = n)) by congruence.
      destruct (decide (d = x)) as [->|].
      { rewrite (decide_True (P := x = x)) by done.
        by rewrite (decide_True (P := x = x)). }
      by rewrite (decide_False (P := x = d)) by congruence.
Qed.

(** [remap_data_block] on a worn data block [d] with log block [l]: it
    fails, returning [l] and leaving the state as it was, or it moves the
    logical block to a block [n] under the cap, which takes over [l]. *)
Lemma remap_data_inv st i d l :
  ftl_inv g st → 0 ≤ i < NL → data_block st i = Some d →
  log_block st d = Some l →
  (∃ c, arr_get (erase_count st) d = Some c ∧ CAP ≤ c) →
  remap_data_block g (i * BS) (d * BS) (l * BS) st = Some (l * BS, st)
  ∨ ∃ n st',
      remap_data_block g (i * BS) (d * BS) (l * BS) st = Some (n * BS, st')
      ∧ gc_step g st st' ∧ 0 ≤ n < NP ∧ n ≠ l
      ∧ data_block st' i = Some n ∧ log_block st' n = Some l
      ∧ (∃ c, arr_get (erase_count st') n = Some c ∧ c < CAP).
Proof using Hg.
  intros Hinv Hi Hd Hl (cd & Hcd & Hcdcap). unfold remap_data_block.
  destruct (find_remapping_spec g Hg st Hinv 0 (RAW_SIZE g))
    as (found & a & lb & Hfind & Htrue & Hfalse).
  erewrite bind_reads by exact Hfind. cbn [fst snd]. destruct found.
  - destruct (Htrue eq_refl) as (j & s & -> & -> & Hempty).
    rewrite bind_mret. right.
    destruct Hempty as (Hj & Hjs & Hsr & Hnw & c & Hc & Hccap).
    assert (is_data_block g st s) as Hsdb by by exists j.
    destruct (remap_data_tail st i d l s (Some j))
      as (s' & Htail & Hgc & Hdb & Hlb & Hec); try done.
    + destruct (log_block st s) as [l'|] eqn:Hl'; [|done].
      destruct (inv_log g st Hinv s l' Hl') as (_ & (k & Hk & Hks & Hw) & _).
      destruct Hnw. by rewrite (inv_data_inj g st Hinv j k s Hj Hk Hjs Hks).
    + intros x Hx. by destruct (inv_log g st Hinv x s Hx) as (_ & _ & ? & _).
    + intros Hin.
      destruct (inv_pool g st Hinv _ Hin) as (b & ? & Hb & _ & Hbnd & _).
      apply (block_inj g Hg) in Hb. by subst b.
    + exists s, s'. split; [exact Htail|]. split; [done|]. split; [done|].
      split.
      { intros ->. by destruct (inv_log g st Hinv d l Hl) as (_ & _ & ? & _). }
      split; [done|]. split; [done|]. exists c. by rewrite Hec.
  - rewrite (Hfalse eq_refl).
    destruct (next_unmapped_inv g Hg st Hinv)
      as [Hnone|(b & st1 & Hsome & Hfresh & Hgc1)].
    { erewrite bind_eq by exact Hnone. by left. }
    erewrite bind_eq by exact Hsome. right.
    destruct Hfresh as (Hbr & Hbnd & Hbpool & Hbnl & Hblog & Hbc & Hdbs & Hlbs
                        & _ & _).
    assert (data_block st1 i = Some d) as Hd1.
    { destruct (Hdbs i Hi) as [->|Hib]; [done|]. congruence. }
    assert (log_block st1 d = Some l) as Hl1.
    { destruct (Hlbs d) as [->|(_ & l' & cd' & cl' & _ & Hcd' & ? & _)];
        [done|]. rewrite Hcd in Hcd'. injection Hcd' as <-. lia. }
    assert (log_block st1 b = None) as Hb1.
    { destruct (Hlbs b) as [->|[? _]]; done. }
    destruct Hgc1 as (Hinv1 & Hgc1).
    destruct (remap_data_tail st1 i d l b None)
      as (s' & Htail & Hgc & Hdb & Hlb & Hec); try done.
    exists b, s'. split; [exact Htail|].
    split; [by apply (gc_step_trans g st st1 s')|]. split; [done|].
    split; [intros ->; by destruct (Hbnl d)|].
    split; [done|]. split; [done|]. by rewrite Hec.
Qed.

(** Appending events keeps the invariant. *)
Lemma ftl_inv_issued st l : ftl_inv g st → ftl_inv g (with_issued st l).
Proof.
  intros Hinv. apply (ftl_inv_manifests g st); try done.
  - exact (inv_alloc g st Hinv).
  - intros x l' Hl'. by destruct (inv_log g st Hinv x l' Hl') as (_ & _ & _ & ? & _).
  - exact (inv_manifest g st Hinv).
Qed.

(** [remap_log_block] on a worn log block [l] of the data block [d]: it
    fails, returning [d] and leaving the state as it was, or it moves the
    pages of [l] to a fresh block [m] under the cap, which becomes the log
    block of [d]. *)
Lemma remap_log_inv st i d l :
  ftl_inv g st → 0 ≤ i < NL → data_block st i = Some d →
  log_block st d = Some l →
  (∃ c, arr_get (erase_count st) l = Some c ∧ CAP ≤ c) →
  remap_log_block g (i * BS) (d * BS) (l * BS) st = Some (d * BS, st)
  ∨ ∃ m st',
      remap_log_block g (i * BS) (d * BS) (l * BS) st = Some (m * BS, st')
      ∧ gc_step g st st' ∧ 0 ≤ m < NP ∧ m ≠ d
      ∧ data_block st' i = Some d ∧ log_block st' d = Some m
      ∧ (∃ c, arr_get (erase_count st') m = Some c ∧ c < CAP)
      ∧ arr_get (erase_count st') d = arr_get (erase_count st) d.
Proof using Hg.
  intros Hinv Hi Hd Hl (cl & Hcl & Hclcap). unfold remap_log_block.
  pose proof (NL_le_NP g Hg) as HN. pose proof (BLOCK_SIZE_pos g Hg) as HBS.
  destruct (inv_log g st Hinv d l Hl) as (Hlr & (i' & Hi' & Hdi' & Hw) & _).
  assert (i' = i) as -> by by eapply (inv_data_inj g st Hinv).
  destruct (inv_data g st Hinv i Hi) as (d' & Hd' & Hdr).
  rewrite Hd in Hd'. injection Hd' as <-.
  destruct (next_unmapped_inv g Hg st Hinv)
    as [Hnone|(m & st1 & Hsome & Hfresh & Hgc1)].
  { erewrite bind_eq by exact Hnone. by left. }
  erewrite bind_eq by exact Hsome. right.
  destruct Hfresh as (Hmr & Hmnd & Hmpool & Hmnl & Hmlog & Hmc & Hdbs & Hlbs
                      & Hmans & Hecs).
  assert (data_block st1 i = Some d) as Hd1.
  { destruct (Hdbs i Hi) as [->|Him]; [done|]. congruence. }
  assert (log_block st1 d = Some l) as Hl1.
  { destruct (Hlbs d) as [->|(_ & l' & cd' & cl' & Hl' & _ & _ & Hcl' & ?)];
      [done|]. rewrite Hl in Hl'. injection Hl' as <-.
    rewrite Hcl in Hcl'. injection Hcl' as <-. lia. }
  destruct Hgc1 as (Hinv1 & He1 & Hmono1 & Hev1).
  destruct (inv_alloc g st1 Hinv1) as (Ha1 & Ha2 & Ha3 & Ha4).
  destruct (inv_log g st1 Hinv1 d l Hl1) as (_ & _ & _ & [offs Hoffs] & _).
  rewrite (bind_reads (λ s, Some (log_to_pages s !! (l * BS))) _ st1 _ eq_refl).
  rewrite Hoffs.
  destruct (for_foldM_quiet
              (λ s1, logical_to_emptiness s1 = logical_to_emptiness st1)
              (λ l1 acc, ∃ pages,
                 acc = (Z.of_nat (length pages), manifest_of pages)
                 ∧ Forall (λ p, 0 ≤ p < BS) pages
                 ∧ (length pages ≤ length l1)%nat)
              (remap_log_move g (i * BS) (l * BS) (m * BS) (Some offs))
              (seqZ 0 BS) (0, [])) with (s := st1)
    as (acc & evs & Hloop & Hq & pages & -> & Hpages & Hlen).
  { exists []. done. }
  { intros l1 p l2 acc s1 Hixs Hs1 (pages & -> & Hpages & Hlen).
    assert (0 ≤ p < BS) as Hp.
    { assert (p ∈ seqZ 0 BS) as Hin%elem_of_seqZ; [|lia].
      rewrite Hixs. apply elem_of_app. right. by left. }
    assert (Z.of_nat (length pages) < BS) as Hlt.
    { apply (f_equal length) in Hixs.
      rewrite length_seqZ, length_app in Hixs. simpl in Hixs. lia. }
    destruct (remap_log_move_quiet st1 i (l * BS) (m * BS) offs p s1 pages)
      as (pages' & evs & Hmove & Hq & Hpages'); try done.
    { by eapply inv_manifest. }
    exists (Z.of_nat (length pages'), manifest_of pages'), evs.
    split; [done|]. split; [done|]. exists pages'. split; [done|].
    destruct Hpages' as [->| ->].
    - split; [done|]. rewrite length_app. lia.
    - split; [apply Forall_app; split; [done|by apply Forall_singleton]|].
      rewrite !length_app. simpl. lia. }
  { done. }
  { done. }
  rewrite length_seqZ in Hlen.
  erewrite bind_eq by exact Hloop. cbn [snd].
  erewrite bind_writes
    by (apply (cancel_log_block_block g Hg); [by apply ftl_inv_issued|done]).
  change (log_block (with_issued st1 (issued st1 ++ evs)) d)
    with (log_block st1 d). rewrite Hl1.
  erewrite bind_writes by (apply (set_log_block_block g Hg); [len|done..]).
  unfold set_manifest at 1. erewrite bind_eq by reflexivity.
  eexists _, _. split; [reflexivity|].
  match goal with |- gc_step _ _ ?s ∧ _ => set (s' := s) end.
  assert (∀ x, log_block s' x = if decide (x = d) then Some m
                                else log_block st1 x) as Hlb'.
  { intros x. subst s'. unfold log_block. fields.
    replace (<[Z.to_nat d:=0]> (data_to_log st1))
      with (<[Z.to_nat d:=d - d]> (data_to_log st1)) by (by rewrite Z.sub_diag).
    rewrite !lb_insert by (rewrite ?length_insert; lia).
    destruct (decide (d = x)) as [->|].
    - rewrite (decide_True (P := x = x)) by done.
      rewrite decide_False; [done|]. intros ->. apply Hmnd. by exists i.
    - by rewrite (decide_False (P := x = d)) by congruence. }
  assert (log_to_pages s'
          = <[m * BS := manifest_of pages]>
              (delete (l * BS) (log_to_pages st1))) as Hman' by done.
  assert (ftl_inv g s') as Hinv'.
  { apply (ftl_inv_set_log g st1 s' i d m); try done.
    - unfold tables_allocated. subst s'. fields. rewrite !length_insert. done.
    - destruct Hw as (p & Hp & Hpw). exists p. split; [done|].
      unfold check_page_empty in *. by rewrite He1.
    - rewrite Hman', lookup_insert_eq. by eexists.
    - intros x l' Hx Hl'. rewrite Hman'.
      apply lookup_insert_is_Some.
      destruct (decide (m * BS = l' * BS)); [by left|right].
      split; [done|]. rewrite lookup_delete_ne.
      + by destruct (inv_log g st1 Hinv1 x l' Hl') as (_ & _ & _ & ? & _).
      + intros Heq%(block_inj g Hg). subst l'.
        apply Hx. by apply (inv_log_inj g st1 Hinv1 x d l).
    - intros k v. rewrite Hman'.
      intros [[_ <-]|[_ [_ Hv]%lookup_delete_Some]]%lookup_insert_Some.
      + exists pages. split; [done|]. split; [done|]. lia.
      + by eapply inv_manifest. }
  split.
  { apply (gc_step_trans g st st1 s'); [done|].
    split; [done|]. split; [done|].
    split; [exact (erase_monotone_refl st1)|].
    exists evs. split; [done|].
    eapply Forall_impl; [done|]. intros e. apply non_erase_below_cap. }
  split; [done|].
  split; [intros ->; apply Hmnd; by exists i|].
  split; [done|]. split; [by rewrite Hlb', decide_True|].
  split; [done|].
  apply (Hecs i d); [done..|]. by rewrite Hl1.
Qed.

End Inv_remap.

(** ** [translate] keeps the invariant *)

Section Inv_translate.

Context (g : geometry) (Hg : geometry_ok g).

Local Abbreviation BS := (BLOCK_SIZE g).
Local Abbreviation NL := (NUM_OF_LGC_B g).
Local Abbreviation NP := (NUM_OF_PHY_B g).
Local Abbreviation CAP := (BLOCK_ERASES g).

Lemma gc_host_step st st' : gc_step g st st' → host_step g st st'.
Proof. intros (? & _ & ? & ?). by split. Qed.

(** The merge of a pair whose two blocks are under the cap. *)
Lemma clean_gc st i D Λ :
  ftl_inv g st → 0 ≤ i < NL → data_block st i = Some D →
  log_block st D = Some Λ →
  (∃ c, arr_get (erase_count st) D = Some c ∧ c < CAP) →
  (∃ c, arr_get (erase_count st) Λ = Some c ∧ c < CAP) →
  clean g (i * BS) (D * BS) (Λ * BS) st = Some (false, st)
  ∨ ∃ st', clean g (i * BS) (D * BS) (Λ * BS) st = Some (true, st')
           ∧ gc_step g st st' ∧ same_maps st st'.
Proof using Hg.
  intros Hinv Hi HD HΛ (cD & HcD & HcDcap) (cΛ & HcΛ & HcΛcap).
  destruct (inv_log g st Hinv D Λ HΛ) as (HΛr & (i' & Hi' & HDi' & Hw) & _).
  assert (i' = i) as -> by by eapply (inv_data_inj g st Hinv).
  destruct (inv_data g st Hinv i Hi) as (D' & HD' & HDr).
  rewrite HD in HD'. injection HD' as <-.
  destruct (clean_inv g Hg st i D Λ cD cΛ) as [Hclean|Hclean]; try done.
  { by left. }
  destruct Hclean as (js & S & cS & Hempty & HcS & HcScap & HDΛ & HDS & HΛS
                      & Hclean).
  right. eexists. split; [exact Hclean|].
  destruct (clean_post g Hg st i D Λ js S cD cΛ cS
              (clean_events g st (i * BS) (D * BS) (Λ * BS) (S * BS)))
    as (Hinv1 & Hsame & Hmono & _); try done.
  split; [|done]. split; [done|]. split; [by destruct Hsame|]. split; [done|].
  eexists. split; [reflexivity|].
  destruct Hempty as (_ & _ & ? & _). eapply clean_events_below_cap; done.
Qed.

(** A manifest is installed for a mapped log block. *)
Lemma ftl_inv_set_manifest st k pages :
  ftl_inv g st → Forall (λ p, 0 ≤ p < BS) pages →
  Z.of_nat (length pages) ≤ BS →
  ftl_inv g (with_log_to_pages st (<[k := manifest_of pages]> (log_to_pages st))).
Proof.
  intros Hinv Hpages Hlen. apply (ftl_inv_manifests g st); try done.
  - exact (inv_alloc g st Hinv).
  - intros x l Hl. cbn [log_to_pages with_log_to_pages].
    apply lookup_insert_is_Some.
    destruct (decide (k = l * BS)); [by left|right]. split; [done|].
    by destruct (inv_log g st Hinv x l Hl) as (_ & _ & _ & ? & _).
  - intros k' v. cbn [log_to_pages with_log_to_pages].
    intros [[_ <-]|[_ Hv]]%lookup_insert_Some.
    + by exists pages.
    + by eapply inv_manifest.
Qed.

Lemma gc_step_set_manifest st k pages :
  ftl_inv g st → Forall (λ p, 0 ≤ p < BS) pages →
  Z.of_nat (length pages) ≤ BS →
  gc_step g st
    (with_log_to_pages st (<[k := manifest_of pages]> (log_to_pages st))).
Proof.
  intros Hinv Hpages Hlen. split; [by apply ftl_inv_set_manifest|].
  split; [done|]. split; [exact (erase_monotone_refl st)|].
  exists []. split; [|done]. cbn [issued with_log_to_pages].
  by rewrite app_nil_r.
Qed.

(** The end of the write path through a full log block: the merge, then
    the manifest of the log block restarts with the page written. *)
Lemma translate_merge_inv (ev : Event) st i p D L :
  ftl_inv g st → 0 ≤ i < NL → 0 ≤ p < BS →
  data_block st i = Some D → log_block st D = Some L →
  (∃ c, arr_get (erase_count st) D = Some c ∧ c < CAP) →
  (∃ c, arr_get (erase_count st) L = Some c ∧ c < CAP) →
  ∃ r st',
    (clean g (i * BS) (D * BS) (L * BS) ≫= λ cleaned,
     if negb cleaned then mret (FAILURE, ev)
     else
       set_manifest (L * BS) (Str.to_string p ++ [Str.comma]) ≫= λ _,
       mret (SUCCESS, set_address ev (page_of g (L * BS) 0))) st
    = Some (r, st')
    ∧ gc_step g st st'.
Proof using Hg.
  intros Hinv Hi Hp HD HL HcD HcL.
  destruct (clean_gc st i D L) as [Hclean|(st1 & Hclean & Hgc & Hsame)];
    try done.
  - erewrite bind_eq by exact Hclean. cbn [negb]. eexists _, _.
    split; [reflexivity|]. by apply gc_step_refl.
  - erewrite bind_eq by exact Hclean. cbn [negb].
    rewrite <- manifest_of_singleton. unfold set_manifest.
    eexists _, _. split; [reflexivity|].
    apply (gc_step_trans g st st1); [done|].
    destruct Hgc as (Hinv1 & _).
    apply gc_step_set_manifest; [done|by apply Forall_singleton|simpl; lia].
Qed.

Lemma over_erase_limit_inv st b c :
  arr_get (erase_count st) b = Some c →
  over_erase_limit g st (b * BS) = Some (bool_decide (CAP ≤ c)).
Proof using Hg.
  intros Hc. by rewrite (over_erase_limit_block g Hg), Hc.
Qed.

(** The write path through a full log block, from the test of the log
    block on. *)
Lemma translate_clean_log_inv (ev : Event) st i p D l :
  ftl_inv g st → 0 ≤ i < NL → 0 ≤ p < BS →
  data_block st i = Some D → log_block st D = Some l →
  (∃ c, arr_get (erase_count st) D = Some c ∧ c < CAP) →
  ∃ r st',
    (reads (λ st, over_erase_limit g st (l * BS)) ≫= λ over_log,
     (if over_log : bool then remap_log_block g (i * BS) (D * BS) (l * BS)
      else mret (l * BS)) ≫= λ log_address',
     if bool_decide (over_log = true ∧ log_address' = D * BS)
     then mret (FAILURE, ev)
     else
       clean g (i * BS) (D * BS) log_address' ≫= λ cleaned,
       if negb cleaned then mret (FAILURE, ev)
       else
         set_manifest log_address' (Str.to_string p ++ [Str.comma]) ≫= λ _,
         mret (SUCCESS, set_address ev (page_of g log_address' 0))) st
    = Some (r, st')
    ∧ gc_step g st st'.
Proof using Hg.
  intros Hinv Hi Hp HD Hl HcD.
  destruct (inv_log g st Hinv D l Hl) as (Hlr & _).
  destruct (inv_ec g st Hinv l Hlr) as (cl & Hcl & Hclr).
  erewrite bind_reads by by apply over_erase_limit_inv.
  destruct (bool_decide (CAP ≤ cl)) eqn:Hover.
  - apply bool_decide_eq_true in Hover.
    destruct (remap_log_inv g Hg st i D l)
      as [Hfail|(m & st1 & Hremap & Hgc & Hmr & HmD & HD1 & Hl1 & Hcm & HcD1)];
      try done.
    { by exists cl. }
    + erewrite bind_eq by exact Hfail. rewrite bool_decide_true by done.
      eexists _, _. split; [reflexivity|]. by apply gc_step_refl.
    + erewrite bind_eq by exact Hremap.
      rewrite bool_decide_false
        by (intros [_ Heq%(block_inj g Hg)]; done).
      destruct (translate_merge_inv ev st1 i p D m)
        as (r & st' & Hmerge & Hgc'); try done.
      { by destruct Hgc. }
      { by rewrite HcD1. }
      exists r, st'. split; [exact Hmerge|].
      by apply (gc_step_trans g st st1).
  - apply bool_decide_eq_false in Hover. rewrite bind_mret.
    rewrite bool_decide_false by (by intros [? _]).
    apply translate_merge_inv; try done. exists cl. split; [done|lia].
Qed.

(** The write path through a full log block. *)
Lemma translate_clean_inv (ev : Event) st i p d l :
  ftl_inv g st → 0 ≤ i < NL → 0 ≤ p < BS →
  data_block st i = Some d → log_block st d = Some l →
  ∃ r st',
    translate_clean g ev (i * BS + p) p (d * BS) (l * BS) st = Some (r, st')
    ∧ gc_step g st st'.
Proof using Hg.
  intros Hinv Hi Hp Hd Hl. pose proof (NL_le_NP g Hg) as HN.
  pose proof (BLOCK_SIZE_pos g Hg) as HBS.
  destruct (inv_data g st Hinv i Hi) as (d' & Hd' & Hdr).
  rewrite Hd in Hd'. injection Hd' as <-.
  destruct (inv_ec g st Hinv d Hdr) as (cd & Hcd & Hcdr).
  unfold translate_clean.
  replace (u64 (i * BS + p - p)) with (i * BS).
  2:{ replace (i * BS + p - p) with (i * BS + 0) by lia.
      rewrite (u64_page g Hg) by lia. lia. }
  erewrite bind_reads by by apply over_erase_limit_inv.
  destruct (bool_decide (CAP ≤ cd)) eqn:Hover.
  - apply bool_decide_eq_true in Hover.
    destruct (remap_data_inv g Hg st i d l)
      as [Hfail|(n & st1 & Hremap & Hgc & Hnr & Hnl & Hd1 & Hl1 & Hcn)];
      try done.
    { by exists cd. }
    + erewrite bind_eq by exact Hfail. rewrite bool_decide_true by done.
      eexists _, _. split; [reflexivity|]. by apply gc_step_refl.
    + erewrite bind_eq by exact Hremap.
      rewrite bool_decide_false
        by (intros [_ Heq%(block_inj g Hg)]; done).
      destruct (translate_clean_log_inv ev st1 i p n l)
        as (r & st' & Htail & Hgc'); try done.
      { by destruct Hgc. }
      exists r, st'. split; [exact Htail|].
      by apply (gc_step_trans g st st1).
  - apply bool_decide_eq_false in Hover. rewrite bind_mret.
    rewrite bool_decide_false by (by intros [? _]).
    apply translate_clean_log_inv; try done. exists cd. split; [done|lia].
Qed.

Lemma host_step_refl st : ftl_inv g st → host_step g st st.
Proof. intros Hinv. by apply gc_host_step, gc_step_refl. Qed.

(** Setting the bit of a logical page keeps the bits that are set. *)
Lemma set_page_written_inv st L :
  ftl_inv g st → 0 ≤ L < USABLE_SIZE g →
  ∃ st', set_page_written st L = Some st' ∧ host_step g st st'.
Proof using Hg.
  intros Hinv HL.
  destruct (allocated_word g st L) as [flag Hflag]; [| |done|].
  { unfold geometry_ok in Hg. lia. }
  { by destruct (inv_alloc g st Hinv) as (-> & _). }
  assert (0 ≤ L / sizeof_uint < Z.of_nat (length (logical_to_emptiness st)))
    as Hin by (apply arr_get_is_Some; eauto).
  rewrite (set_page_written_Some st L flag Hflag). eexists. split; [done|].
  split; [|split; [exact (erase_monotone_refl st)|]].
  2:{ exists []. split; [|done]. cbn [issued with_emptiness].
      by rewrite app_nil_r. }
  apply (ftl_inv_manifests g st); try done.
  - destruct (inv_alloc g st Hinv) as (? & ? & ? & ?).
    unfold tables_allocated. cbn [logical_to_emptiness erase_count
      logical_to_physical data_to_log with_emptiness].
    by rewrite length_insert.
  - intros k (q & Hq & Hqw). exists q. split; [done|].
    unfold check_page_empty in *.
    cbn [logical_to_emptiness with_emptiness].
    rewrite arr_get_insert by lia.
    destruct (arr_get (logical_to_emptiness st) ((k * BS + q) / sizeof_uint))
      as [f|] eqn:Hf; [|done].
    cbn [mbind option_bind] in Hqw.
    destruct (decide (L / sizeof_uint = (k * BS + q) / sizeof_uint))
      as [Hw|Hw]; [|done].
    rewrite <- Hw, Hflag in Hf. injection Hf as <-.
    cbn [fmap option_fmap option_map mbind option_bind const].
    assert (0 ≤ (k * BS + q) mod sizeof_uint) as Hbit.
    { unfold sizeof_uint. pose proof (Z.mod_pos_bound (k * BS + q) 4). lia. }
    assert (0 ≤ L mod sizeof_uint) as Hbit'.
    { unfold sizeof_uint. pose proof (Z.mod_pos_bound L 4). lia. }
    rewrite bit_test in Hqw |- * by done. rewrite bit_set by done.
    injection Hqw as Hqw. apply negb_false_iff in Hqw. by rewrite Hqw.
  - intros x l Hl.
    by destruct (inv_log g st Hinv x l Hl) as (_ & _ & _ & ? & _).
  - exact (inv_manifest g st Hinv).
Qed.

Lemma next_free_manifest pages :
  Forall (λ p, 0 ≤ p < BS) pages → Z.of_nat (length pages) ≤ BS →
  next_free_log_page g (manifest_of pages)
  = Some (if decide (BS ≤ Z.of_nat (length pages)) then None
          else Some (Z.of_nat (length pages))).
Proof using Hg.
  intros Hpages Hlen. pose proof (BLOCK_SIZE_range g Hg).
  unfold next_free_log_page. rewrite count_commas_of_manifest.
  - cbn [mbind option_bind]. by case_decide.
  - eapply Forall_impl; [done|]. simpl. intros. lia.
  - lia.
Qed.

(** The block [b] handed out by the pool becomes the log block of the data
    block [d], which had none; when [b] is [d] itself the offset written is
    the sentinel 0 and the maps stay as they were. *)
Lemma ftl_inv_map_log s s' i d b :
  ftl_inv g s → tables_allocated g s' →
  logical_to_emptiness s' = logical_to_emptiness s →
  erase_count s' = erase_count s →
  logical_to_physical s' = logical_to_physical s →
  op_blocks s' = op_blocks s →
  data_to_log s' = <[Z.to_nat d := b - d]> (data_to_log s) →
  0 ≤ i < NL → (b ≠ d → data_block s i = Some d) → block_written g s i →
  0 ≤ d < NP → log_block s d = None →
  0 ≤ b < NP → ¬ is_data_block g s b → b * BS ∉ op_blocks s →
  (∀ x, log_block s x ≠ Some b) →
  is_Some (log_to_pages s' !! (b * BS)) →
  (∀ k, is_Some (log_to_pages s !! k) → is_Some (log_to_pages s' !! k)) →
  (∀ k v, log_to_pages s' !! k = Some v → manifest_ok g v) →
  ftl_inv g s'.
Proof using Hg.
  intros Hinv Halloc He Hec Hp Ho Hd2l Hi Hdata Hw Hd Hdlog Hb Hbnd Hbpool
    Hbnl Hman1 Hman2 Hman3.
  assert (0 ≤ d < Z.of_nat (length (data_to_log s))) as Hdlen.
  { destruct (inv_alloc g s Hinv) as (_ & _ & _ & ->). lia. }
  destruct (decide (b = d)) as [->|Hbd].
  - apply (ftl_inv_manifests g s); try done.
    + intros k. unfold block_written, check_page_empty. by rewrite He.
    + rewrite Hd2l. apply list_insert_id.
      unfold log_block in Hdlog.
      destruct (arr_get (data_to_log s) d) as [off|] eqn:Hoff.
      * cbn [mbind option_bind] in Hdlog. case_decide; [|done]. subst off.
        apply arr_get_Some in Hoff as [_ ->]. f_equal. lia.
      * destruct (arr_get_is_Some (data_to_log s) d) as [_ [? ?]];
          [done|congruence].
    + intros x l Hl. apply Hman2.
      by destruct (inv_log g s Hinv x l Hl) as (_ & _ & _ & ? & _).
  - apply (ftl_inv_set_log g s s' i d b); try done.
    + by apply Hdata.
    + intros x. unfold log_block. rewrite Hd2l, lb_insert by done.
      destruct (decide (d = x)) as [->|].
      * rewrite (decide_True (P := x = x)) by done. by rewrite decide_False.
      * by rewrite (decide_False (P := x = d)) by congruence.
    + intros x l _ Hl. apply Hman2.
      by destruct (inv_log g s Hinv x l Hl) as (_ & _ & _ & ? & _).
Qed.

(** The write path of [translate]. *)
Lemma translate_write_inv (ev : Event) pba st i p d :
  ftl_inv g st → 0 ≤ i < NL → 0 ≤ p < BS → data_block st i = Some d →
  ∃ r st',
    translate_write g ev (i * BS + p) pba p (d * BS) st = Some (r, st')
    ∧ host_step g st st'.
Proof using Hg.
  intros Hinv Hi Hp Hd. pose proof (NL_le_NP g Hg) as HN.
  destruct (inv_data g st Hinv i Hi) as (d' & Hd' & Hdr).
  rewrite Hd in Hd'. injection Hd' as <-.
  unfold translate_write.
  destruct (inv_cpe g Hg st Hinv (i * BS + p)) as [e He];
    [by apply logical_page_range|].
  erewrite bind_reads by exact He. destruct e.
  { destruct (set_page_written_inv st (i * BS + p))
      as (st' & Hset & Hstep); [done|by apply logical_page_range|].
    erewrite bind_writes by exact Hset. eexists _, _. by split. }
  assert (block_written g st i) as Hw by by exists p.
  erewrite bind_reads by by apply (inv_clb0 g Hg st Hinv).
  destruct (log_block st d) as [l|] eqn:Hl; cbn [fmap option_fmap option_map].
  - destruct (inv_log g st Hinv d l Hl) as (Hlr & _ & _ & [offs Hoffs] & _).
    erewrite bind_reads by exact Hoffs.
    destruct (inv_manifest g st Hinv _ _ Hoffs) as (pages & -> & Hpages & Hlen).
    rewrite (bind_reads (λ _, next_free_log_page g (manifest_of pages)) _ st _
               (next_free_manifest pages Hpages Hlen)).
    case_decide as Hfull.
    + destruct (translate_clean_inv ev st i p d l)
        as (r & st' & Htc & Hgc); try done.
      exists r, st'. split; [done|by apply gc_host_step].
    + unfold set_manifest.
      rewrite <- manifest_of_singleton, <- manifest_of_app.
      eexists _, _. split; [reflexivity|].
      apply gc_host_step, gc_step_set_manifest; [done|..].
      * apply Forall_app. split; [done|by apply Forall_singleton].
      * rewrite length_app. simpl. lia.
  - destruct (next_unmapped_inv g Hg st Hinv)
      as [Hnone|(b & st1 & Hsome & Hfresh & Hgc1)].
    { erewrite bind_eq by exact Hnone. eexists _, _.
      split; [reflexivity|by apply host_step_refl]. }
    erewrite bind_eq by exact Hsome.
    destruct Hfresh as (Hbr & Hbnd & Hbpool & Hbnl & Hblog & Hbc & Hdbs & Hlbs
                        & _ & _).
    pose proof Hgc1 as (Hinv1 & He1 & _).
    destruct (inv_alloc g st1 Hinv1) as (Ha1 & Ha2 & Ha3 & Ha4).
    assert (log_block st1 d = None) as Hl1.
    { destruct (Hlbs d) as [->|[? _]]; done. }
    erewrite bind_writes by (apply (set_log_block_block g Hg); [lia|done..]).
    set (X := with_data_to_log st1 _).
    assert (∀ s', tables_allocated g s' →
              logical_to_emptiness s' = logical_to_emptiness st1 →
              erase_count s' = erase_count st1 →
              logical_to_physical s' = logical_to_physical st1 →
              op_blocks s' = op_blocks st1 →
              issued s' = issued st1 →
              data_to_log s' = <[Z.to_nat d := b - d]> (data_to_log st1) →
              is_Some (log_to_pages s' !! (b * BS)) →
              (∀ k, is_Some (log_to_pages st1 !! k) →
                    is_Some (log_to_pages s' !! k)) →
              (∀ k v, log_to_pages s' !! k = Some v → manifest_ok g v) →
              host_step g st s') as Hfinal.
    { intros s' Halloc He' Hec' Hp' Ho' Hiss' Hd2l' Hm1 Hm2 Hm3.
      apply gc_host_step, (gc_step_trans g st st1); [done|].
      split.
      { apply (ftl_inv_map_log st1 s' i d b); try done.
        - intros Hbd. destruct (Hdbs i Hi) as [->|Hib]; [done|]. congruence.
        - destruct Hw as (q & Hq & Hqw). exists q. split; [done|].
          unfold check_page_empty in *. by rewrite He1. }
      split; [done|]. split.
      { split; [by rewrite Hec'|]. intros x c Hc. exists c.
        rewrite Hec'. split; [done|lia]. }
      exists []. rewrite app_nil_r. by split. }
    unfold insert_manifest at 1.
    destruct (log_to_pages st1 !! (b * BS)) as [old|] eqn:Hold.
    + erewrite bind_eq.
      2:{ subst X. cbn [log_to_pages with_data_to_log]. rewrite Hold.
          reflexivity. }
      eexists _, _. split; [reflexivity|].
      apply Hfinal; try done.
      * unfold tables_allocated. subst X.
        cbn [logical_to_emptiness erase_count logical_to_physical data_to_log
             with_data_to_log]. by rewrite length_insert.
      * exact (inv_manifest g st1 Hinv1).
    + erewrite bind_eq.
      2:{ subst X. cbn [log_to_pages with_data_to_log]. rewrite Hold.
          reflexivity. }
      eexists _, _. split; [reflexivity|].
      apply Hfinal; try done.
      * unfold tables_allocated. subst X.
        cbn [logical_to_emptiness erase_count logical_to_physical data_to_log
             with_data_to_log with_log_to_pages]. by rewrite length_insert.
      * subst X. cbn [log_to_pages with_data_to_log with_log_to_pages].
        rewrite lookup_insert_eq. by eexists.
      * subst X. cbn [log_to_pages with_data_to_log with_log_to_pages].
        intros k Hk. apply lookup_insert_is_Some.
        destruct (decide (b * BS = k)); [by left|by right].
      * subst X. cbn [log_to_pages with_data_to_log with_log_to_pages].
        intros k v [[_ <-]|[_ Hv]]%lookup_insert_Some.
        -- exists [p]. split; [by rewrite manifest_of_singleton|].
           split; [by apply Forall_singleton|simpl; lia].
        -- by eapply inv_manifest.
Qed.

Lemma address_split la :
  0 ≤ la < USABLE_SIZE g → ∃ i p, la = i * BS + p ∧ 0 ≤ i < NL ∧ 0 ≤ p < BS.
Proof using Hg.
  intros Hla. pose proof (BLOCK_SIZE_pos g Hg) as HBS.
  rewrite (USABLE_SIZE_blocks g Hg) in Hla.
  exists (la / BS), (la mod BS).
  pose proof (Z.div_mod la BS). pose proof (Z.mod_pos_bound la BS).
  split; [lia|]. split; [|lia]. split; [apply Z.div_pos; lia|].
  apply Z.div_lt_upper_bound; lia.
Qed.

Lemma map_page b p a1 a2 a3 a4 page :
  0 ≤ p < BS →
  map_physical_to_SSD g (b * BS + p) = (a1, a2, a3, a4, page) →
  page = p ∧ u64 (b * BS + p - page) = u64 (b * BS).
Proof.
  intros Hp. unfold map_physical_to_SSD. intros [= _ _ _ _ <-].
  rewrite (block_mod g) by done. split; [done|]. f_equal. lia.
Qed.

(** The read path finds every entry it looks up. *)
Lemma read_outcome_defined st la :
  ftl_inv g st → 0 ≤ la < USABLE_SIZE g → is_Some (read_outcome g st la).
Proof using Hg.
  intros Hinv (i & p & -> & Hi & Hp)%address_split.
  pose proof (NL_le_NP g Hg) as HN. unfold read_outcome.
  destruct (inv_cpa g Hg st Hinv i p) as (d & Hd & Hdr & ->); [done..|].
  cbn [mbind option_bind].
  destruct (map_physical_to_SSD g (d * BS + p))
    as [[[[a1 a2] a3] a4] page] eqn:Hmap.
  apply map_page in Hmap as [-> Hda]; [|done]. rewrite Hda.
  rewrite (u64_small (d * BS))
    by (pose proof (block_address_range g Hg d 0); lia).
  destruct (inv_cpe g Hg st Hinv (i * BS + p)) as [e ->];
    [by apply logical_page_range|].
  cbn [mbind option_bind]. destruct e; [by eexists|].
  rewrite (inv_clb0 g Hg st Hinv) by done. cbn [mbind option_bind].
  destruct (log_block st d) as [l|] eqn:Hl; cbn [fmap option_fmap option_map];
    [|by eexists].
  destruct (inv_log g st Hinv d l Hl) as (_ & _ & _ & [offs Hoffs] & _).
  rewrite Hoffs. cbn [mbind option_bind].
  destruct (fetch_log_page_defined g Hg offs p) as [r ->];
    [by eapply inv_manifest|].
  cbn [mbind option_bind]. destruct r; by eexists.
Qed.

(** Every host event is translated, and the step keeps the invariant,
    never lowers an erase count and aims its ERASE events at blocks under
    the cap. *)
Lemma translate_inv st ev :
  ftl_inv g st → 0 ≤ logical_address ev < 2 ^ 64 →
  ∃ r st', translate g ev st = Some (r, st') ∧ host_step g st st'.
Proof using Hg.
  intros Hinv Hla. pose proof (NL_le_NP g Hg) as HN.
  destruct (decide (USABLE_SIZE g ≤ logical_address ev)) as [Hout|Hin].
  { unfold translate. rewrite decide_True by done. eexists _, _.
    split; [reflexivity|by apply host_step_refl]. }
  assert (ftl_inv g (with_start_time st (ev_start_time ev))) as Hinv0.
  { apply (ftl_inv_manifests g st); try done.
    - exact (inv_alloc g st Hinv).
    - intros x l Hl.
      by destruct (inv_log g st Hinv x l Hl) as (_ & _ & _ & ? & _).
    - exact (inv_manifest g st Hinv). }
  assert (∀ st', host_step g (with_start_time st (ev_start_time ev)) st' →
                 host_step g st st') as Hconv.
  { intros st' H. exact H. }
  destruct (ev_type ev) eqn:Hty.
  - rewrite translate_READ by (done || lia).
    destruct (read_outcome_defined st (logical_address ev)) as [[a|] ->];
      [done|lia|..]; eexists _, _;
      (split; [reflexivity|by apply Hconv, host_step_refl]).
  - unfold translate. rewrite decide_False by done.
    rewrite (bind_eq _ _ st () _ eq_refl).
    destruct (address_split (logical_address ev)) as (i & p & Hsplit & Hi & Hp);
      [lia|].
    rewrite Hsplit.
    destruct (inv_cpa g Hg _ Hinv0 i p) as (d & Hd & Hdr & Hcpa); [done..|].
    erewrite bind_reads by exact Hcpa.
    destruct (map_physical_to_SSD g (d * BS + p))
      as [[[[a1 a2] a3] a4] page] eqn:Hmap.
    apply map_page in Hmap as [-> Hda]; [|done]. rewrite Hda.
    rewrite (u64_small (d * BS))
      by (pose proof (block_address_range g Hg d 0); lia).
    rewrite Hty.
    destruct (translate_write_inv ev (mkAddress a1 a2 a3 a4 p PAGE)
                (with_start_time st (ev_start_time ev)) i p d)
      as (r & st' & Htw & Hstep); try done.
    exists r, st'. split; [exact Htw|by apply Hconv].
  - unfold translate. rewrite decide_False by done.
    rewrite (bind_eq _ _ st () _ eq_refl).
    destruct (address_split (logical_address ev)) as (i & p & Hsplit & Hi & Hp);
      [lia|].
    rewrite Hsplit.
    destruct (inv_cpa g Hg _ Hinv0 i p) as (d & Hd & Hdr & Hcpa); [done..|].
    erewrite bind_reads by exact Hcpa.
    destruct (map_physical_to_SSD g (d * BS + p))
      as [[[[a1 a2] a3] a4] page] eqn:Hmap.
    rewrite Hty. eexists _, _.
    split; [reflexivity|by apply Hconv, host_step_refl].
  - unfold translate. rewrite decide_False by done.
    rewrite (bind_eq _ _ st () _ eq_refl).
    destruct (address_split (logical_address ev)) as (i & p & Hsplit & Hi & Hp);
      [lia|].
    rewrite Hsplit.
    destruct (inv_cpa g Hg _ Hinv0 i p) as (d & Hd & Hdr & Hcpa); [done..|].
    erewrite bind_reads by exact Hcpa.
    destruct (map_physical_to_SSD g (d * BS + p))
      as [[[[a1 a2] a3] a4] page] eqn:Hmap.
    rewrite Hty. eexists _, _.
    split; [reflexivity|by apply Hconv, host_step_refl].
Qed.

(** Every reachable state satisfies the invariant. *)
Lemma reachable_inv st : reachable g st → ftl_inv g st.
Proof using Hg.
  induction 1 as [|st ev r st' _ IH Hla Htr]; [by apply init_inv|].
  destruct (translate_inv st ev IH Hla) as (r' & st'' & Htr' & Hinv' & _).
  rewrite Htr in Htr'. by injection Htr' as _ <-.
Qed.

End Inv_translate.

(** * Runs of host events *)

Section Runs.

Context (g : geometry) (Hg : geometry_ok g).

Local Abbreviation BS := (BLOCK_SIZE g).
Local Abbreviation NP := (NUM_OF_PHY_B g).
Local Abbreviation CAP := (BLOCK_ERASES g).

Lemma NUM_OF_PHY_B_product :
  NP = SSD_SIZE g * PACKAGE_SIZE g * DIE_SIZE g * PLANE_SIZE g.
Proof using Hg.
  destruct Hg as (?&?&?&?&?&?&?&?&?).
  unfold NUM_OF_PHY_B, RAW_SIZE. rewrite u32_small by nia.
  by rewrite Z.div_mul by lia.
Qed.

(** A block index is determined by its package, die, plane and block
    coordinates. *)
Lemma block_of_inj b b' :
  0 ≤ b < NP → 0 ≤ b' < NP →
  block_of g (b * BS) = block_of g (b' * BS) → b = b'.
Proof using Hg.
  intros Hb Hb'. rewrite NUM_OF_PHY_B_product in Hb, Hb'.
  unfold block_of, map_physical_to_SSD. rewrite !(block_div0 g Hg).
  destruct Hg as (Hs&Hk&Hd&Hp&_).
  intros [= H1 H2 H3 H4].
  set (q1 := b / PLANE_SIZE g) in *. set (q1' := b' / PLANE_SIZE g) in *.
  set (q2 := q1 / DIE_SIZE g) in *. set (q2' := q1' / DIE_SIZE g) in *.
  set (q3 := q2 / PACKAGE_SIZE g) in *.
  set (q3' := q2' / PACKAGE_SIZE g) in *.
  assert (0 ≤ q1 < SSD_SIZE g * PACKAGE_SIZE g * DIE_SIZE g) as Hq1.
  { split; [apply Z.div_pos; lia|apply Z.div_lt_upper_bound; lia]. }
  assert (0 ≤ q1' < SSD_SIZE g * PACKAGE_SIZE g * DIE_SIZE g) as Hq1'.
  { split; [apply Z.div_pos; lia|apply Z.div_lt_upper_bound; lia]. }
  assert (0 ≤ q2 < SSD_SIZE g * PACKAGE_SIZE g) as Hq2.
  { split; [apply Z.div_pos; lia|apply Z.div_lt_upper_bound; lia]. }
  assert (0 ≤ q2' < SSD_SIZE g * PACKAGE_SIZE g) as Hq2'.
  { split; [apply Z.div_pos; lia|apply Z.div_lt_upper_bound; lia]. }
  assert (0 ≤ q3 < SSD_SIZE g) as Hq3.
  { split; [apply Z.div_pos; lia|apply Z.div_lt_upper_bound; lia]. }
  assert (0 ≤ q3' < SSD_SIZE g) as Hq3'.
  { split; [apply Z.div_pos; lia|apply Z.div_lt_upper_bound; lia]. }
  rewrite !Z.mod_small in H1 by done.
  assert (q2 = q2') as E2.
  { rewrite (Z.div_mod q2 (PACKAGE_SIZE g)), (Z.div_mod q2' (PACKAGE_SIZE g))
      by lia. fold q3 q3'. by rewrite H1, H2. }
  assert (q1 = q1') as E1.
  { rewrite (Z.div_mod q1 (DIE_SIZE g)), (Z.div_mod q1' (DIE_SIZE g)) by lia.
    fold q2 q2'. by rewrite E2, H3. }
  rewrite (Z.div_mod b (PLANE_SIZE g)), (Z.div_mod b' (PLANE_SIZE g)) by lia.
  fold q1 q1'. by rewrite E1, H4.
Qed.

Lemma run_events_cons ev evs st rs st' :
  run_events g (ev :: evs) st = Some (rs, st') ↔
  ∃ r st1 rs', translate g ev st = Some (r, st1)
               ∧ run_events g evs st1 = Some (rs', st') ∧ rs = r :: rs'.
Proof.
  cbn [run_events]. split.
  - intros (r & st1 & Htr & H)%bind_Some.
    apply bind_Some in H as (rs' & st2 & Hrun & [<- <-]%mret_Some).
    by exists r, st1, rs'.
  - intros (r & st1 & rs' & Htr & Hrun & ->).
    erewrite bind_eq by exact Htr. erewrite bind_eq by exact Hrun. done.
Qed.

(** A run from a reachable state ends in a reachable state. *)
Lemma reachable_run evs : ∀ st rs st',
  reachable g st → Forall (λ ev, 0 ≤ logical_address ev < 2 ^ 64) evs →
  run_events g evs st = Some (rs, st') → reachable g st'.
Proof.
  induction evs as [|ev evs IH]; intros st rs st' Hst Hevs Hrun.
  - by apply mret_Some in Hrun as [_ <-].
  - apply run_events_cons in Hrun as (r & st1 & rs' & Htr & Hrun & _).
    apply Forall_cons in Hevs as [Hev Hevs].
    eapply IH; [|done..]. by eapply reachable_step.
Qed.

Lemma reachable_state_after evs st :
  Forall (λ ev, 0 ≤ logical_address ev < 2 ^ 64) evs →
  state_after g evs = Some st → reachable g st.
Proof.
  unfold state_after. intros Hevs Hst.
  destruct (run_events g evs (init_ftl_user g)) as [[rs st']|] eqn:Hrun;
    [|done].
  injection Hst as <-. eapply reachable_run; [constructor|done..].
Qed.

(** Every run of host events is defined; a block that has used its erases
    keeps its count, and no ERASE of the run is aimed at it. *)
Lemma run_events_worn b evs : ∀ st,
  ftl_inv g st → 0 ≤ b < NP → arr_get (erase_count st) b = Some CAP →
  Forall (λ ev, 0 ≤ logical_address ev < 2 ^ 64) evs →
  ∃ rs st',
    run_events g evs st = Some (rs, st')
    ∧ arr_get (erase_count st') b = Some CAP
    ∧ ∃ new, issued st' = issued st ++ new
             ∧ Forall (λ e, ev_type e = ERASE →
                            address e ≠ block_of g (b * BS)) new.
Proof using Hg.
  induction evs as [|ev evs IH]; intros st Hinv Hb Hcap Hevs.
  - exists [], st. split; [done|]. split; [done|]. exists [].
    by rewrite app_nil_r.
  - apply Forall_cons in Hevs as [Hev Hevs].
    destruct (translate_inv g Hg st ev Hinv Hev)
      as (r & st1 & Htr & Hinv1 & [_ Hmono] & new1 & Hiss1 & Hnew1).
    assert (arr_get (erase_count st1) b = Some CAP) as Hcap1.
    { destruct (Hmono b _ Hcap) as (c' & Hc' & Hle). rewrite Hc'. f_equal.
      pose proof (inv_erase g st1 Hinv1 b c' Hc'). lia. }
    destruct (IH st1 Hinv1 Hb Hcap1 Hevs)
      as (rs & st' & Hrun & Hcap' & new2 & Hiss2 & Hnew2).
    exists (r :: rs), st'. split.
    { apply run_events_cons. by exists r, st1, rs. }
    split; [done|]. exists (new1 ++ new2).
    split; [by rewrite Hiss2, Hiss1, app_assoc|].
    apply Forall_app. split; [|done].
    eapply Forall_impl; [exact Hnew1|]. intros e He Hty Haddr.
    destruct (He Hty) as (b' & c & Hb' & Haddr' & Hc & Hlt).
    rewrite Haddr' in Haddr. apply block_of_inj in Haddr; [|done..].
    subst b'. rewrite Hcap in Hc. injection Hc as <-. lia.
Qed.

End Runs.

(** * Claims on the invariants of the translation layer *)






(** * The pool of free blocks *)

(** C3 (the code departs from it): with the pool [[16; 20; 24; 28]] (28 on
    top) and block 28 at the erase limit, [next_unmapped_log_block] pops 28,
    then reads the entry at index [size - 1 - i] with [i = 1], which is 20
    and not the new top 24, while [pop_back] removes 24. It returns 20: the
    returned block is still in the pool, and block 24, under the limit and
    never examined, is gone from it. The same slip shows in a run of host
    events when [BLOCK_ERASES] is 0: after a first write of logical page 0
    every pool block is at the limit, and the call made by the second write
    reports no block while blocks 16 and 20 are still in the pool. *)
Theorem next_unmapped_log_block_skips_wrong_block :
  (op_blocks st_top_worn = [16; 20; 24; 28]
   ∧ over_erase_limit g8 st_top_worn 28 = Some true
   ∧ over_erase_limit g8 st_top_worn 24 = Some false
   ∧ ∃ st',
       next_unmapped_log_block g8 st_top_worn = Some (Some 20, st')
       ∧ op_blocks st' = [16; 20]
       ∧ 20 ∈ op_blocks st'
       ∧ 24 ∉ op_blocks st')
  ∧ (reachable g8_worn st_all_worn
     ∧ op_blocks st_all_worn = [16; 20; 24; 28]
     ∧ ∃ st',
         next_unmapped_log_block g8_worn st_all_worn = Some (None, st')
         ∧ op_blocks st' = [16; 20]).
Proof.
  split.
  - split_and!; [reflexivity..|]. eexists. split; [vm_compute; reflexivity|].
    split_and!; [reflexivity| |].
    + simpl. apply list_elem_of_In. simpl. tauto.
    + simpl. intros H%list_elem_of_In. simpl in H. intuition discriminate.
  - split_and!; [|reflexivity|].
    + apply (reachable_state_after g8_worn [host_write 0]).
      * repeat constructor; vm_compute; discriminate.
      * vm_compute. reflexivity.
    + eexists. split; [vm_compute; reflexivity|reflexivity].
Qed.

(** * Further properties of the tables *)

(** X1: for a well-formed geometry, [map_physical_to_SSD] splits a physical
    page number below the raw size into package, die, plane, block and page
    coordinates that are each within their size, and the page number is
    recovered from them by the mixed-radix sum; hence two page numbers
    with the same coordinates are equal. *)
Theorem map_physical_to_SSD_roundtrip g phy :
  geometry_ok g → 0 ≤ phy < RAW_SIZE g →
  ∃ package die plane block page,
    map_physical_to_SSD g phy = (package, die, plane, block, page)
    ∧ 0 ≤ package < SSD_SIZE g ∧ 0 ≤ die < PACKAGE_SIZE g
    ∧ 0 ≤ plane < DIE_SIZE g ∧ 0 ≤ block < PLANE_SIZE g
    ∧ 0 ≤ page < BLOCK_SIZE g
    ∧ phy = (((package * PACKAGE_SIZE g + die) * DIE_SIZE g + plane)
               * PLANE_SIZE g + block) * BLOCK_SIZE g + page.
Proof.
  intros Hg Hphy. pose proof (RAW_SIZE_blocks g Hg) as Hraw.
  rewrite (NUM_OF_PHY_B_product g Hg) in Hraw.
  destruct Hg as (Hs & Hk & Hd & Hp & Hb & _).
  unfold map_physical_to_SSD. eexists _, _, _, _, _. split; [reflexivity|].
  set (q0 := phy / BLOCK_SIZE g). set (q1 := q0 / PLANE_SIZE g).
  set (q2 := q1 / DIE_SIZE g). set (q3 := q2 / PACKAGE_SIZE g).
  pose proof (Z.div_mod phy (BLOCK_SIZE g)) as E0. fold q0 in E0.
  pose proof (Z.div_mod q0 (PLANE_SIZE g)) as E1. fold q1 in E1.
  pose proof (Z.div_mod q1 (DIE_SIZE g)) as E2. fold q2 in E2.
  pose proof (Z.div_mod q2 (PACKAGE_SIZE g)) as E3. fold q3 in E3.
  pose proof (Z.mod_pos_bound phy (BLOCK_SIZE g)).
  pose proof (Z.mod_pos_bound q0 (PLANE_SIZE g)).
  pose proof (Z.mod_pos_bound q1 (DIE_SIZE g)).
  pose proof (Z.mod_pos_bound q2 (PACKAGE_SIZE g)).
  assert (0 ≤ q0 < SSD_SIZE g * PACKAGE_SIZE g * DIE_SIZE g * PLANE_SIZE g)
    as Hq0.
  { split; [apply Z.div_pos; lia|apply Z.div_lt_upper_bound; lia]. }
  assert (0 ≤ q1 < SSD_SIZE g * PACKAGE_SIZE g * DIE_SIZE g) as Hq1.
  { split; [apply Z.div_pos; lia|apply Z.div_lt_upper_bound; lia]. }
  assert (0 ≤ q2 < SSD_SIZE g * PACKAGE_SIZE g) as Hq2.
  { split; [apply Z.div_pos; lia|apply Z.div_lt_upper_bound; lia]. }
  assert (0 ≤ q3 < SSD_SIZE g) as Hq3.
  { split; [apply Z.div_pos; lia|apply Z.div_lt_upper_bound; lia]. }
  rewrite (Z.mod_small q3) by done.
  split; [done|]. split; [lia|]. split; [lia|]. split; [lia|]. split; [lia|].
  replace (q3 * PACKAGE_SIZE g + q2 mod PACKAGE_SIZE g) with q2 by lia.
  replace (q2 * DIE_SIZE g + q1 mod DIE_SIZE g) with q1 by lia.
  replace (q1 * PLANE_SIZE g + q0 mod PLANE_SIZE g) with q0 by lia.
  lia.
Qed.

Lemma map_physical_to_SSD_roundtrip_witness :
  ∃ package die plane block page,
    map_physical_to_SSD g8 27 = (package, die, plane, block, page)
    ∧ 0 ≤ package < SSD_SIZE g8 ∧ 0 ≤ die < PACKAGE_SIZE g8
    ∧ 0 ≤ plane < DIE_SIZE g8 ∧ 0 ≤ block < PLANE_SIZE g8
    ∧ 0 ≤ page < BLOCK_SIZE g8
    ∧ 27 = (((package * PACKAGE_SIZE g8 + die) * DIE_SIZE g8 + plane)
              * PLANE_SIZE g8 + block) * BLOCK_SIZE g8 + page.
Proof.
  apply (map_physical_to_SSD_roundtrip g8 27).
  - unfold geometry_ok. vm_compute. intuition discriminate.
  - vm_compute. split; [discriminate|reflexivity].
Defined.

Section Offset_tables.

Context (g : geometry) (Hg : geometry_ok g).

Local Abbreviation BS := (BLOCK_SIZE g).
Local Abbreviation NL := (NUM_OF_LGC_B g).
Local Abbreviation NP := (NUM_OF_PHY_B g).

Lemma block_times_range b : 0 ≤ b < NP → 0 ≤ b * BS < 2 ^ 31.
Proof using Hg.
  intros Hb. pose proof (block_address_range g Hg b 0 Hb).
  pose proof (BLOCK_SIZE_pos g Hg). lia.
Qed.

(** [page + ((unsigned long) b) * BLOCK_SIZE] for a block [b] and a page
    of it. *)
Lemma page_plus_block b p :
  0 ≤ b < NP → 0 ≤ p < BS → u64 (p + u64 b * BS) = b * BS + p.
Proof using Hg.
  intros Hb Hp. pose proof (NL_le_NP g Hg).
  rewrite (u64_small b) by lia. rewrite Z.add_comm.
  by apply (u64_page g Hg).
Qed.

End Offset_tables.



(** X3: [set_log_block (da, la)] maps the block of [la] as the log block
    of the block of [da]: afterwards [check_log_block] answers, for every
    address of that data block, the same page of the log block, and
    answers as before for every other block; when the two blocks are the
    same the offset stored is the sentinel 0 and [check_log_block] reports
    no log block. [cancel_log_block (da)] then removes the manifest stored
    under the address [check_log_block (da)] returned and leaves the data
    block without a log block. *)
Theorem set_check_cancel_log_block g st da la :
  geometry_ok g →
  length (data_to_log st) = Z.to_nat (NUM_OF_PHY_B g) →
  0 ≤ da < RAW_SIZE g → 0 ≤ la < RAW_SIZE g →
  ∃ st',
    set_log_block g st da la = Some st'
    ∧ (∀ da', 0 ≤ da' < RAW_SIZE g →
         da' / BLOCK_SIZE g = da / BLOCK_SIZE g →
         check_log_block g st' da'
         = Some (if decide (la / BLOCK_SIZE g = da / BLOCK_SIZE g) then None
                 else Some (la / BLOCK_SIZE g * BLOCK_SIZE g
                            + da' mod BLOCK_SIZE g)))
    ∧ (∀ da', 0 ≤ da' < RAW_SIZE g →
         da' / BLOCK_SIZE g ≠ da / BLOCK_SIZE g →
         check_log_block g st' da' = check_log_block g st da')
    ∧ log_to_pages st' = log_to_pages st
    ∧ ∃ st'',
        cancel_log_block g st' da = Some st''
        ∧ check_log_block g st'' da = Some None
        ∧ log_to_pages st''
          = (if decide (la / BLOCK_SIZE g = da / BLOCK_SIZE g)
             then log_to_pages st
             else delete (la / BLOCK_SIZE g * BLOCK_SIZE g
                          + da mod BLOCK_SIZE g) (log_to_pages st)).
Proof.
  intros Hg Hlen Hda Hla. pose proof (NL_le_NP g Hg) as HN.
  pose proof (BLOCK_SIZE_pos g Hg) as HBS.
  pose proof (physical_block_range g Hg da Hda) as Hd.
  pose proof (physical_block_range g Hg la Hla) as Hl.
  set (d := da / BLOCK_SIZE g) in *. set (l := la / BLOCK_SIZE g) in *.
  assert (∀ st1 v da', 0 ≤ da' < RAW_SIZE g → da' / BLOCK_SIZE g = d →
            length (data_to_log st1) = Z.to_nat (NUM_OF_PHY_B g) →
            check_log_block g
              (with_data_to_log st1 (<[Z.to_nat d := v - d]> (data_to_log st1)))
              da'
            = if decide (v - d = 0) then Some None
              else Some (Some (u64 (da' mod BLOCK_SIZE g
                                    + u64 (s32 (d + (v - d))) * BLOCK_SIZE g))))
    as Hcheck.
  { intros st1 v da' Hda' Hd' Hlen1. unfold check_log_block.
    cbn [data_to_log with_data_to_log]. rewrite Hd'.
    rewrite (s32_small d) by lia.
    rewrite arr_get_insert, decide_True by (done || lia).
    destruct (arr_get_is_Some (data_to_log st1) d) as [_ [o ->]]; [lia|].
    done. }
  unfold set_log_block. fold d l.
  rewrite (s32_small d), (s32_small l), (s32_small (l - d)) by lia.
  unfold arr_set. rewrite decide_True by lia. cbn [mbind option_bind].
  eexists. split; [reflexivity|]. split; [|split; [|split; [done|]]].
  - intros da' Hda' Hd'. rewrite Hcheck by done.
    pose proof (Z.mod_pos_bound da' (BLOCK_SIZE g) HBS).
    destruct (decide (l = d)) as [->|Hld].
    + by rewrite decide_True by lia.
    + rewrite decide_False by lia. replace (d + (l - d)) with l by lia.
      rewrite (s32_small l) by lia. do 2 f_equal.
      by apply page_plus_block.
  - intros da' Hda' Hd'. unfold check_log_block.
    cbn [data_to_log with_data_to_log].
    pose proof (physical_block_range g Hg da' Hda').
    rewrite (s32_small (da' / BLOCK_SIZE g)) by lia.
    by rewrite arr_get_insert, decide_False by (done || lia).
  - unfold cancel_log_block. rewrite Hcheck by done.
    pose proof (Z.mod_pos_bound da (BLOCK_SIZE g) HBS).
    assert (∀ st1, length (data_to_log st1) = Z.to_nat (NUM_OF_PHY_B g) →
              ∃ st2, set_log_block g st1 da da = Some st2
                     ∧ check_log_block g st2 da = Some None
                     ∧ log_to_pages st2 = log_to_pages st1) as Hclear.
    { intros st1 Hlen1. unfold set_log_block. fold d.
      rewrite (s32_small d), (s32_small (d - d)) by lia.
      unfold arr_set. rewrite decide_True by lia. cbn [mbind option_bind].
      eexists. split; [reflexivity|]. split; [|done].
      rewrite Hcheck by done. by rewrite decide_True by lia. }
    destruct (decide (l = d)) as [->|Hld].
    + rewrite decide_True by lia. cbn [mbind option_bind].
      match goal with
      | |- ∃ _, set_log_block _ ?s _ _ = _ ∧ _ =>
          destruct (Hclear s) as (st2 & Hset & Hchk & Hman)
      end.
      { cbn [data_to_log with_data_to_log]. by rewrite length_insert. }
      exists st2. split; [exact Hset|]. split; [exact Hchk|exact Hman].
    + rewrite decide_False by lia. cbn [mbind option_bind].
      replace (d + (l - d)) with l by lia. rewrite (s32_small l) by lia.
      rewrite page_plus_block by done.
      match goal with
      | |- ∃ _, set_log_block _ ?s _ _ = _ ∧ _ =>
          destruct (Hclear s) as (st2 & Hset & Hchk & Hman)
      end.
      { cbn [data_to_log with_data_to_log with_log_to_pages].
        by rewrite length_insert. }
      exists st2. split; [exact Hset|]. split; [exact Hchk|exact Hman].
Qed.

Lemma set_check_cancel_log_block_witness :
  ∃ st',
    set_log_block g0 st_full_log 4 12 = Some st'
    ∧ (∀ da', 0 ≤ da' < RAW_SIZE g0 →
         da' / BLOCK_SIZE g0 = 4 / BLOCK_SIZE g0 →
         check_log_block g0 st' da'
         = Some (if decide (12 / BLOCK_SIZE g0 = 4 / BLOCK_SIZE g0) then None
                 else Some (12 / BLOCK_SIZE g0 * BLOCK_SIZE g0
                            + da' mod BLOCK_SIZE g0)))
    ∧ (∀ da', 0 ≤ da' < RAW_SIZE g0 →
         da' / BLOCK_SIZE g0 ≠ 4 / BLOCK_SIZE g0 →
         check_log_block g0 st' da' = check_log_block g0 st_full_log da')
    ∧ log_to_pages st' = log_to_pages st_full_log
    ∧ ∃ st'',
        cancel_log_block g0 st' 4 = Some st''
        ∧ check_log_block g0 st'' 4 = Some None
        ∧ log_to_pages st''
          = (if decide (12 / BLOCK_SIZE g0 = 4 / BLOCK_SIZE g0)
             then log_to_pages st_full_log
             else delete (12 / BLOCK_SIZE g0 * BLOCK_SIZE g0
                          + 4 mod BLOCK_SIZE g0) (log_to_pages st_full_log)).
Proof.
  apply (set_check_cancel_log_block g0 st_full_log 4 12).
  - unfold geometry_ok. vm_compute. intuition discriminate.
  - vm_compute. reflexivity.
  - vm_compute. split; [discriminate|reflexivity].
  - vm_compute. split; [discriminate|reflexivity].
Defined.

(** * Further properties of the manifests *)

Lemma last_index_snoc d pages p :
  last_index d (pages ++ [p])
  = if decide (p = d) then Some (Z.of_nat (length pages))
    else last_index d pages.
Proof.
  induction pages as [|x pages IH]; cbn [app last_index length].
  - by case_decide.
  - rewrite IH. destruct (decide (p = d)) as [->|Hpd].
    + f_equal. lia.
    + done.
Qed.

(** X4: on the manifest of a list of page offsets (each an [unsigned int],
    fewer than [2^32] of them; the empty manifest included)
    [next_free_log_page] stops and counts the entries: it hands out the
    page whose index is the number of entries while that is below
    [BLOCK_SIZE], and reports a full log block otherwise. *)
Theorem next_free_log_page_counts g pages :
  Forall (λ p, 0 ≤ p < 2 ^ 32) pages →
  Z.of_nat (length pages) < 2 ^ 32 →
  next_free_log_page g (manifest_of pages)
  = Some (if decide (BLOCK_SIZE g ≤ Z.of_nat (length pages)) then None
          else Some (Z.of_nat (length pages))).
Proof.
  intros Hpages Hlen. unfold next_free_log_page.
  rewrite count_commas_of_manifest by done.
  cbn [mbind option_bind]. by case_decide.
Qed.

Lemma next_free_log_page_counts_witness :
  next_free_log_page g0 (manifest_of [0; 3; 0])
  = Some (if decide (BLOCK_SIZE g0 ≤ Z.of_nat (length [0; 3; 0])) then None
          else Some (Z.of_nat (length [0; 3; 0]))).
Proof.
  apply (next_free_log_page_counts g0 [0; 3; 0]).
  - repeat constructor; lia.
  - simpl. lia.
Defined.

(** X5: appending the entry of page offset [p] to a manifest, as the write
    path does, makes [fetch_log_page] find [p] at the index that
    [next_free_log_page] handed out (the number of entries before the
    append), and leaves the answer for every other offset as it was. *)
Theorem append_then_fetch g pages p :
  Forall (λ q, 0 ≤ q < 2 ^ 32) pages → 0 ≤ p < 2 ^ 32 →
  Z.of_nat (length pages) < BLOCK_SIZE g → BLOCK_SIZE g < 2 ^ 31 →
  next_free_log_page g (manifest_of pages)
  = Some (Some (Z.of_nat (length pages)))
  ∧ fetch_log_page (manifest_of pages ++ Str.to_string p ++ [Str.comma]) p
    = Some (Some (Z.of_nat (length pages)))
  ∧ ∀ q, q ≠ p →
      fetch_log_page (manifest_of pages ++ Str.to_string p ++ [Str.comma]) q
      = fetch_log_page (manifest_of pages) q.
Proof.
  intros Hpages Hp Hlen HBS.
  assert (Forall (λ q, 0 ≤ q < 2 ^ 32) (pages ++ [p])) as Hpages'.
  { apply Forall_app. split; [done|by apply Forall_singleton]. }
  assert (∀ ps, Forall (λ q, 0 ≤ q < 2 ^ 32) ps →
                Z.of_nat (length ps) < 2 ^ 32 →
                ∀ d, fetch_log_page (manifest_of ps) d = Some (last_index d ps))
    as Hfetch.
  { intros ps Hps Hn d. apply fetch_log_page_last_index; [|done].
    pose proof (manifest_of_length_le ps Hps). unfold npos. lia. }
  rewrite <- manifest_of_singleton, <- manifest_of_app.
  split; [|split].
  - unfold next_free_log_page.
    rewrite count_commas_of_manifest by (done || lia).
    cbn [mbind option_bind]. by rewrite decide_False by lia.
  - rewrite Hfetch by (done || rewrite length_app; simpl; lia).
    by rewrite last_index_snoc, decide_True.
  - intros q Hq. rewrite !Hfetch by (done || rewrite ?length_app; simpl; lia).
    by rewrite last_index_snoc, decide_False.
Qed.

Lemma append_then_fetch_witness :
  next_free_log_page g0 (manifest_of [0; 3; 0])
  = Some (Some (Z.of_nat (length [0; 3; 0])))
  ∧ fetch_log_page (manifest_of [0; 3; 0] ++ Str.to_string 3 ++ [Str.comma]) 3
    = Some (Some (Z.of_nat (length [0; 3; 0])))
  ∧ ∀ q, q ≠ 3 →
      fetch_log_page (manifest_of [0; 3; 0] ++ Str.to_string 3 ++ [Str.comma]) q
      = fetch_log_page (manifest_of [0; 3; 0]) q.
Proof.
  apply (append_then_fetch g0 [0; 3; 0] 3).
  - repeat constructor; lia.
  - lia.
  - vm_compute. reflexivity.
  - vm_compute. reflexivity.
Defined.

(** * The state built by [init_ftl_user] *)



(** * The searches for an empty data block *)

Section Scratch_search.

Context (g : geometry) (Hg : geometry_ok g).
Context (st : ftl_state) (Hinv : ftl_inv g st).

Local Abbreviation BS := (BLOCK_SIZE g).
Local Abbreviation NL := (NUM_OF_LGC_B g).
Local Abbreviation NP := (NUM_OF_PHY_B g).
Local Abbreviation CAP := (BLOCK_ERASES g).

(** What the two searches read of logical block [i]. *)
Lemma search_reads i :
  0 ≤ i < NL →
  ∃ d c b,
    data_block st i = Some d ∧ 0 ≤ d < NP
    ∧ arr_get (erase_count st) d = Some c ∧ 0 ≤ c ≤ CAP
    ∧ (b = true ↔ block_written g st i)
    ∧ check_physical_address g st (u32 (i * BS)) = Some (d * BS)
    ∧ block_non_empty g st i = Some b
    ∧ arr_get (erase_count st) (d * BS / BS) = Some c.
Proof using Hg Hinv.
  intros Hi.
  destruct (cpa_block0 g Hg st Hinv i) as (d & Hd & Hdr & Hcpa); [done|].
  destruct (block_non_empty_spec g Hg st Hinv i) as (b & Hb & Hbw); [done|].
  destruct (inv_ec g st Hinv d Hdr) as (c & Hec & Hc).
  exists d, c, b. rewrite (block_div0 g Hg). done.
Qed.

Lemma search_result_step a0 n m a j d c b :
  0 ≤ n < NL → search_result g st a0 n m a j →
  data_block st n = Some d → arr_get (erase_count st) d = Some c →
  (b = true ↔ block_written g st n) →
  if negb b && bool_decide (c < m) && bool_decide (c < CAP)
  then search_result g st a0 (n + 1) c (d * BS) (Some n)
  else search_result g st a0 (n + 1) m a j.
Proof.
  intros Hn Hres Hd Hc Hb.
  assert (∀ s' c', scratch_candidate g st n s' c' →
                   s' = d ∧ c' = c ∧ b = false ∧ c < CAP) as Hcand.
  { intros s' c' (_ & Hs' & Hnw & Hc' & Hcap).
    rewrite Hd in Hs'. injection Hs' as <-.
    rewrite Hc in Hc'. injection Hc' as <-.
    split; [done|]. split; [done|]. split; [|done].
    destruct b; [|done]. destruct Hnw. by apply Hb. }
  destruct (negb b && bool_decide (c < m) && bool_decide (c < CAP)) eqn:Hsel.
  - apply andb_true_iff in Hsel as [[Hb'%negb_true_iff Hlt%bool_decide_eq_true]
                                      %andb_true_iff Hcap%bool_decide_eq_true].
    exists d. split; [lia|]. split; [done|].
    split.
    { split; [lia|]. split; [done|]. split; [|done].
      intros Hw%Hb. congruence. }
    intros j' s' c' Hj' Hcand'.
    destruct (decide (j' = n)) as [->|Hne].
    + apply Hcand in Hcand' as (_ & -> & _). lia.
    + destruct j as [j|].
      * destruct Hres as (s & _ & _ & _ & Hmin).
        destruct (Hmin j' s' c') as [? _]; [lia|done|]. lia.
      * destruct Hres as (_ & _ & Hnone). destruct (Hnone j' s' c'); [lia|done].
  - assert (∀ s' c', scratch_candidate g st n s' c' → m ≤ c) as Hge.
    { intros s' c' (_ & _ & -> & Hcap)%Hcand.
      apply andb_false_iff in Hsel
        as [[?|Hlt%bool_decide_eq_false]%andb_false_iff
           |?%bool_decide_eq_false]; [done|lia|done]. }
    destruct j as [j|].
    + destruct Hres as (s & Hj & Ha & Hjc & Hmin).
      exists s. split; [lia|]. split; [done|]. split; [done|].
      intros j' s' c' Hj' Hcand'.
      destruct (decide (j' = n)) as [->|Hne]; [|apply (Hmin j' s'); [lia|done]].
      pose proof (Hge _ _ Hcand').
      apply Hcand in Hcand' as (_ & -> & _). lia.
    + destruct Hres as (Hm & Ha & Hnone). split; [done|]. split; [done|].
      intros j' s' c' Hj' Hcand'.
      destruct (decide (j' = n)) as [->|Hne]; [|apply (Hnone j' s' c'); [lia|done]].
      pose proof (Hge _ _ Hcand').
      apply Hcand in Hcand' as (_ & _ & _ & ?). lia.
Qed.

Lemma find_cleaning_fold a0 (n : nat) :
  Z.of_nat n ≤ NL →
  ∃ m a j,
    for_fold (find_cleaning_step g st) (seqZ 0 (Z.of_nat n)) (CAP + 1, a0)
    = Some (m, a)
    ∧ search_result g st a0 (Z.of_nat n) m a j.
Proof using Hg Hinv.
  induction n as [|n IH]; intros Hn.
  - exists (CAP + 1), a0, None. split; [done|]. split; [done|]. split; [done|].
    intros. lia.
  - destruct IH as (m & a & j & Hfold & Hres); [lia|].
    rewrite seqZ_S, for_fold_app, Hfold. cbn [mbind option_bind for_fold].
    rewrite Z.add_0_l.
    destruct (search_reads (Z.of_nat n))
      as (d & c & b & Hd & Hdr & Hc & Hcr & Hb & Hcpa & Hbn & Hec); [lia|].
    unfold find_cleaning_step. rewrite Hcpa. cbn [mbind option_bind].
    rewrite Hbn. cbn [mbind option_bind].
    rewrite Hec. cbn [mbind option_bind fst].
    pose proof (search_result_step a0 (Z.of_nat n) m a j d c b) as Hstep.
    replace (Z.of_nat n + 1) with (Z.of_nat (S n)) in Hstep by lia.
    destruct (negb b && bool_decide (c < m) && bool_decide (c < CAP));
      eexists _, _, _; (split; [reflexivity|]); apply Hstep; (done || lia).
Qed.

Lemma find_remapping_fold a0 l0 (n : nat) :
  Z.of_nat n ≤ NL →
  ∃ m a lb j,
    for_fold (find_remapping_step g st) (seqZ 0 (Z.of_nat n)) (CAP + 1, a0, l0)
    = Some (m, a, lb)
    ∧ search_result g st a0 (Z.of_nat n) m a j
    ∧ lb = default l0 ((λ j, j * BS) <$> j).
Proof using Hg Hinv.
  pose proof (NL_le_NP g Hg) as HN.
  induction n as [|n IH]; intros Hn.
  - exists (CAP + 1), a0, l0, None. split; [done|]. split; [|done].
    split; [done|]. split; [done|]. intros. lia.
  - destruct IH as (m & a & lb & j & Hfold & Hres & Hlb); [lia|].
    rewrite seqZ_S, for_fold_app, Hfold. cbn [mbind option_bind for_fold].
    rewrite Z.add_0_l.
    destruct (search_reads (Z.of_nat n))
      as (d & c & b & Hd & Hdr & Hc & Hcr & Hb & Hcpa & Hbn & Hec); [lia|].
    unfold find_remapping_step. rewrite Hcpa. cbn [mbind option_bind].
    rewrite Hbn. cbn [mbind option_bind].
    rewrite Hec. cbn [mbind option_bind fst].
    pose proof (search_result_step a0 (Z.of_nat n) m a j d c b) as Hstep.
    replace (Z.of_nat n + 1) with (Z.of_nat (S n)) in Hstep by lia.
    destruct (negb b && bool_decide (c < m) && bool_decide (c < CAP)).
    + eexists _, _, _, (Some (Z.of_nat n)). split; [reflexivity|].
      split; [apply Hstep; (done || lia)|].
      cbn. apply (u32_block g Hg). lia.
    + eexists _, _, _, j. split; [reflexivity|].
      split; [apply Hstep; (done || lia)|done].
Qed.

End Scratch_search.





(** A [clean] that returns false found no empty data block. *)
Lemma clean_false_found g lb D Λ st st' :
  clean g lb D Λ st = Some (false, st') →
  ∃ a, find_empty_data_block_for_cleaning g st 0 = Some (false, a).
Proof.
  intros H. unfold clean in H.
  apply bind_Some in H as ([found a] & st1 & [Hfind ->]%reads_Some & H).
  cbn [fst snd] in H. destruct found; [|by exists a]. cbn [negb] in H.
  repeat (apply bind_Some in H as (? & ? & _ & H)).
  by apply mret_Some in H as [? _].
Qed.



(** * Further properties of the garbage collector *)







(** * The host interface: [translate] *)

(** [translate] once the data page of the logical address is known. *)
Lemma translate_dispatch g ev st pa :
  logical_address ev < USABLE_SIZE g →
  check_physical_address g st (logical_address ev) = Some pa →
  translate g ev st
  = match ev_type ev with
    | WRITE =>
        translate_write g ev (logical_address ev)
          (page_of g pa (pa mod BLOCK_SIZE g)) (pa mod BLOCK_SIZE g)
          (u64 (pa - pa mod BLOCK_SIZE g))
    | READ =>
        translate_read g ev (logical_address ev)
          (page_of g pa (pa mod BLOCK_SIZE g)) (pa mod BLOCK_SIZE g)
          (u64 (pa - pa mod BLOCK_SIZE g))
    | _ => mret (FAILURE, ev)
    end (with_start_time st (ev_start_time ev)).
Proof.
  intros Hla Hpa. unfold translate. rewrite decide_False by lia.
  rewrite bind_unfold. cbn beta iota.
  rewrite (bind_reads (λ s, check_physical_address g s (logical_address ev))
             _ _ pa) by exact Hpa.
  unfold page_of, map_physical_to_SSD. reflexivity.
Qed.

(** The first write of a page, step by step. *)
Lemma first_write_step g st ev :
  geometry_ok g → tables_allocated g st →
  ev_type ev = WRITE → 0 ≤ logical_address ev < USABLE_SIZE g →
  check_page_empty st (logical_address ev) = Some true →
  ∃ pa st',
    check_physical_address g st (logical_address ev) = Some pa
    ∧ translate g ev st
      = Some ((SUCCESS, set_address ev (page_of g pa (pa mod BLOCK_SIZE g))),
              st')
    ∧ check_page_empty st' (logical_address ev) = Some false
    ∧ (∀ la, 0 ≤ la < USABLE_SIZE g → la ≠ logical_address ev →
             check_page_empty st' la = check_page_empty st la)
    ∧ logical_to_physical st' = logical_to_physical st
    ∧ data_to_log st' = data_to_log st
    ∧ log_to_pages st' = log_to_pages st
    ∧ erase_count st' = erase_count st
    ∧ op_blocks st' = op_blocks st
    ∧ issued st' = issued st.
Proof.
  intros Hg Halloc Hty Hla Hemp.
  destruct (check_physical_address_defined g Hg st (logical_address ev)
              Halloc Hla) as [pa Hpa].
  destruct (allocated_word g st (logical_address ev)) as [flag Hflag];
    [| |done|].
  { unfold geometry_ok in Hg. lia. }
  { by destruct Halloc as (-> & _). }
  assert (0 ≤ logical_address ev / sizeof_uint
          < Z.of_nat (length (logical_to_emptiness st)))
    as Hin by (apply arr_get_is_Some; eauto).
  assert (0 ≤ logical_address ev mod sizeof_uint) as Hbit.
  { unfold sizeof_uint.
    pose proof (Z.mod_pos_bound (logical_address ev) 4). lia. }
  exists pa. eexists. split; [done|]. split.
  { rewrite (translate_dispatch g ev st pa) by (done || lia). rewrite Hty.
    unfold translate_write.
    rewrite (bind_reads (λ s, check_page_empty s (logical_address ev))
               _ _ true) by exact Hemp.
    cbn beta iota.
    erewrite bind_writes; [reflexivity|].
    apply set_page_written_Some. exact Hflag. }
  cbn [logical_to_physical data_to_log log_to_pages erase_count op_blocks
       issued with_emptiness with_start_time].
  split_and!; try done.
  - erewrite check_page_empty_Some; [|lia|by apply arr_get_set_eq].
    rewrite bit_set by lia. by rewrite bool_decide_true, orb_true_r.
  - intros L' HL' Hne.
    assert (0 ≤ L' mod sizeof_uint) as Hbit'.
    { unfold sizeof_uint. pose proof (Z.mod_pos_bound L' 4). lia. }
    destruct (decide (L' / sizeof_uint = logical_address ev / sizeof_uint))
      as [Hw|Hw].
    + erewrite (check_page_empty_Some _ L'); [|lia|].
      2:{ cbn [logical_to_emptiness with_emptiness with_start_time].
          rewrite Hw. by apply arr_get_set_eq. }
      erewrite (check_page_empty_Some st L'); [|lia|by rewrite Hw].
      rewrite bit_set by lia. rewrite bool_decide_false, orb_false_r; [done|].
      intros Hb. apply Hne. by apply word_bit_inj.
    + unfold check_page_empty.
      cbn [logical_to_emptiness with_emptiness with_start_time].
      by rewrite arr_get_set_ne by (lia || done).
Qed.



(** * Where the pages of a reachable state are read *)

Section Read_places.

Context (g : geometry) (Hg : geometry_ok g).

Local Abbreviation BS := (BLOCK_SIZE g).
Local Abbreviation NL := (NUM_OF_LGC_B g).
Local Abbreviation NP := (NUM_OF_PHY_B g).

Lemma page_of_offset b q k :
  0 ≤ q < BS → page_of g (b * BS + q) k = page_of g (b * BS) k.
Proof using Hg.
  intros Hq. unfold page_of, map_physical_to_SSD.
  by rewrite (block_div g b q Hq), (block_div0 g Hg).
Qed.

Lemma page_of_inj b b' k k' :
  0 ≤ b < NP → 0 ≤ b' < NP →
  page_of g (b * BS) k = page_of g (b' * BS) k' → b = b' ∧ k = k'.
Proof using Hg.
  intros Hb Hb' Heq.
  assert (block_of g (b * BS) = block_of g (b' * BS) ∧ k = k') as [Hblk ->].
  { unfold page_of, block_of in *.
    destruct (map_physical_to_SSD g (b * BS)) as [[[[? ?] ?] ?] ?].
    destruct (map_physical_to_SSD g (b' * BS)) as [[[[? ?] ?] ?] ?].
    by injection Heq as -> -> -> -> ->. }
  split; [|done]. by apply (block_of_inj g Hg).
Qed.

(** The read path, page by page: the page of the data block, unless the
    log block of the data block lists the page offset. *)
Lemma read_outcome_block st i q d :
  ftl_inv g st → 0 ≤ i < NL → 0 ≤ q < BS → data_block st i = Some d →
  read_outcome g st (i * BS + q)
  = (e ← check_page_empty st (i * BS + q);
     if e : bool then Some None
     else match log_block st d with
          | Some l =>
              offs ← log_to_pages st !! (l * BS);
              r ← fetch_log_page offs q;
              Some (Some match r with
                         | Some k => page_of g (l * BS) k
                         | None => page_of g (d * BS) q
                         end)
          | None => Some (Some (page_of g (d * BS) q))
          end).
Proof using Hg.
  intros Hinv Hi Hq Hd. pose proof (NL_le_NP g Hg) as HN.
  destruct (inv_cpa g Hg st Hinv i q Hi Hq) as (d' & Hd' & Hdr & Hpa).
  rewrite Hd in Hd'. injection Hd' as <-.
  unfold read_outcome. rewrite Hpa. cbn [mbind option_bind].
  pose proof (page_of_offset d q q Hq) as Hpage. unfold page_of in Hpage.
  destruct (map_physical_to_SSD g (d * BS + q))
    as [[[[a1 a2] a3] a4] page] eqn:Hmap.
  apply map_page in Hmap as [-> Hda]; [|done]. rewrite Hda.
  rewrite (u64_small (d * BS))
    by (pose proof (block_address_range g Hg d 0); lia).
  destruct (check_page_empty st (i * BS + q)) as [[|]|]; try done.
  cbn [mbind option_bind].
  rewrite (inv_clb0 g Hg st Hinv) by done. cbn [mbind option_bind].
  destruct (log_block st d) as [l|] eqn:Hl; cbn [fmap option_fmap option_map].
  - destruct (log_to_pages st !! (l * BS)) as [offs|]; [|done].
    cbn [mbind option_bind].
    destruct (fetch_log_page offs q) as [[k|]|]; [done| |done].
    cbn [mbind option_bind]. by rewrite Hpage.
  - by rewrite Hpage.
Qed.

(** What the host sees of a READ is a function of [read_outcome]. *)
Lemma translate_READ_result ev st :
  ev_type ev = READ → logical_address ev < USABLE_SIZE g →
  fst <$> translate g ev st
  = (o ← read_outcome g st (logical_address ev);
     Some match o with
          | Some a => (SUCCESS, set_address ev a)
          | None => (FAILURE, ev)
          end).
Proof.
  intros Hty Hla. rewrite (translate_READ g ev st Hty Hla).
  by destruct (read_outcome g st (logical_address ev)) as [[a|]|].
Qed.

End Read_places.





(** [fetch_log_page] on a manifest of at most [BLOCK_SIZE] page offsets. *)
Lemma fetch_log_page_pages g pages q :
  geometry_ok g →
  Forall (λ p, 0 ≤ p < BLOCK_SIZE g) pages →
  Z.of_nat (length pages) ≤ BLOCK_SIZE g →
  fetch_log_page (manifest_of pages) q = Some (last_index q pages).
Proof.
  intros Hg Hpages Hlen. pose proof (BLOCK_SIZE_range g Hg) as HBS.
  apply fetch_log_page_last_index; [|lia].
  assert (Forall (λ p, 0 ≤ p < 2 ^ 32) pages) as Hp32.
  { eapply Forall_impl; [done|]. simpl. intros. lia. }
  pose proof (manifest_of_length_le pages Hp32). unfold npos. lia.
Qed.

(** The places a successful READ can be given, in a state that satisfies
    the invariant. *)
Lemma read_place g st i q a :
  geometry_ok g → ftl_inv g st →
  0 ≤ i < NUM_OF_LGC_B g → 0 ≤ q < BLOCK_SIZE g →
  read_outcome g st (i * BLOCK_SIZE g + q) = Some (Some a) →
  ∃ d, data_block st i = Some d ∧ 0 ≤ d < NUM_OF_PHY_B g
       ∧ check_page_empty st (i * BLOCK_SIZE g + q) = Some false
       ∧ (a = page_of g (d * BLOCK_SIZE g) q
          ∧ (∀ l offs, log_block st d = Some l →
               log_to_pages st !! (l * BLOCK_SIZE g) = Some offs →
               fetch_log_page offs q = Some None)
          ∨ ∃ l offs k,
              log_block st d = Some l ∧ 0 ≤ l < NUM_OF_PHY_B g
              ∧ ¬ is_data_block g st l
              ∧ log_to_pages st !! (l * BLOCK_SIZE g) = Some offs
              ∧ fetch_log_page offs q = Some (Some k)
              ∧ a = page_of g (l * BLOCK_SIZE g) k).
Proof.
  intros Hg Hinv Hi Hq Hread.
  destruct (inv_data g st Hinv i Hi) as (d & Hd & Hdr).
  exists d. split; [done|]. split; [done|].
  rewrite (read_outcome_block g Hg st i q d Hinv Hi Hq Hd) in Hread.
  destruct (check_page_empty st (i * BLOCK_SIZE g + q)) as [[|]|]; try done.
  split; [done|].
  cbn [mbind option_bind] in Hread.
  destruct (log_block st d) as [l|] eqn:Hl;
    [|left; by injection Hread as <-].
  destruct (inv_log g st Hinv d l Hl) as (Hlr & _ & Hnd & _ & _).
  destruct (log_to_pages st !! (l * BLOCK_SIZE g)) as [offs|] eqn:Hoffs;
    [|done].
  cbn [mbind option_bind] in Hread.
  destruct (fetch_log_page offs q) as [[k|]|] eqn:Hk; [| |done].
  - injection Hread as <-. right. by exists l, offs, k.
  - injection Hread as <-. left. split; [done|].
    intros l' offs' [= <-]. rewrite Hoffs. by intros [= <-].
Qed.



(** * Written pages stay written *)

(** [set_page_written] clears no bit. *)
Lemma set_page_written_keeps st L st' la :
  0 ≤ L → 0 ≤ la →
  set_page_written st L = Some st' →
  check_page_empty st la = Some false → check_page_empty st' la = Some false.
Proof.
  intros HL Hla Hset Hw. unfold set_page_written in Hset.
  destruct (arr_get (logical_to_emptiness st) (L / sizeof_uint))
    as [flag|] eqn:Hflag; [|done].
  cbn [mbind option_bind] in Hset.
  destruct (arr_set _ _ _) as [v|] eqn:Hv; [|done].
  injection Hset as <-. apply arr_set_Some in Hv as [Hin ->].
  unfold check_page_empty in *. cbn [logical_to_emptiness with_emptiness].
  rewrite arr_get_insert by lia.
  destruct (arr_get (logical_to_emptiness st) (la / sizeof_uint))
    as [f|] eqn:Hf; [|done].
  cbn [mbind option_bind] in Hw.
  destruct (decide (L / sizeof_uint = la / sizeof_uint)) as [Hword|Hword];
    [|done].
  rewrite <- Hword, Hflag in Hf. injection Hf as <-.
  cbn [fmap option_fmap option_map mbind option_bind const].
  assert (0 ≤ la mod sizeof_uint) as Hbit.
  { unfold sizeof_uint. pose proof (Z.mod_pos_bound la 4). lia. }
  assert (0 ≤ L mod sizeof_uint) as Hbit'.
  { unfold sizeof_uint. pose proof (Z.mod_pos_bound L 4). lia. }
  rewrite bit_test in Hw |- * by done. rewrite bit_set by done.
  injection Hw as Hw. apply negb_false_iff in Hw. by rewrite Hw.
Qed.

Section Written_pages.

Context (g : geometry) (Hg : geometry_ok g).

Local Abbreviation BS := (BLOCK_SIZE g).
Local Abbreviation NL := (NUM_OF_LGC_B g).
Local Abbreviation NP := (NUM_OF_PHY_B g).

(** The write path sets one bit of the bitmap at most, and clears none. *)
Lemma translate_write_bits (ev : Event) pba st i p d :
  ftl_inv g st → 0 ≤ i < NL → 0 ≤ p < BS → data_block st i = Some d →
  ∃ r st',
    translate_write g ev (i * BS + p) pba p (d * BS) st = Some (r, st')
    ∧ (logical_to_emptiness st' = logical_to_emptiness st
       ∨ set_page_written st (i * BS + p) = Some st').
Proof using Hg.
  intros Hinv Hi Hp Hd. pose proof (NL_le_NP g Hg) as HN.
  destruct (inv_data g st Hinv i Hi) as (d' & Hd' & Hdr).
  rewrite Hd in Hd'. injection Hd' as <-.
  unfold translate_write.
  destruct (inv_cpe g Hg st Hinv (i * BS + p)) as [e He];
    [by apply (logical_page_range g Hg)|].
  erewrite bind_reads by exact He. destruct e.
  { destruct (set_page_written_inv g Hg st (i * BS + p))
      as (st' & Hset & _); [done|by apply (logical_page_range g Hg)|].
    erewrite bind_writes by exact Hset. eexists _, _.
    split; [reflexivity|by right]. }
  erewrite bind_reads by by apply (inv_clb0 g Hg st Hinv).
  destruct (log_block st d) as [l|] eqn:Hl; cbn [fmap option_fmap option_map].
  - destruct (inv_log g st Hinv d l Hl) as (Hlr & _ & _ & [offs Hoffs] & _).
    erewrite bind_reads by exact Hoffs.
    destruct (inv_manifest g st Hinv _ _ Hoffs) as (pages & -> & Hpages & Hlen).
    rewrite (bind_reads (λ _, next_free_log_page g (manifest_of pages)) _ st _
               (next_free_manifest g Hg pages Hpages Hlen)).
    case_decide as Hfull.
    + destruct (translate_clean_inv g Hg ev st i p d l)
        as (r & st' & Htc & _ & Hemp & _); try done.
      exists r, st'. split; [done|by left].
    + eexists _, _. split; [reflexivity|by left].
  - destruct (next_unmapped_inv g Hg st Hinv)
      as [Hnone|(b & st1 & Hsome & Hfresh & Hgc1)].
    { erewrite bind_eq by exact Hnone. eexists _, _.
      split; [reflexivity|by left]. }
    erewrite bind_eq by exact Hsome.
    destruct Hfresh as (Hbr & _).
    pose proof Hgc1 as (Hinv1 & He1 & _).
    destruct (inv_alloc g st1 Hinv1) as (Ha1 & Ha2 & Ha3 & Ha4).
    erewrite bind_writes by (apply (set_log_block_block g Hg); [lia|done..]).
    unfold insert_manifest at 1.
    destruct (log_to_pages st1 !! (b * BS)) as [old|] eqn:Hold.
    + erewrite bind_eq.
      2:{ cbn [log_to_pages with_data_to_log]. rewrite Hold. reflexivity. }
      eexists _, _. split; [reflexivity|by left].
    + erewrite bind_eq.
      2:{ cbn [log_to_pages with_data_to_log]. rewrite Hold. reflexivity. }
      eexists _, _. split; [reflexivity|by left].
Qed.

(** No host event clears the mark of a written page. *)
Lemma translate_keeps_written st ev r st' la :
  ftl_inv g st → 0 ≤ logical_address ev < 2 ^ 64 →
  translate g ev st = Some (r, st') →
  0 ≤ la < USABLE_SIZE g →
  check_page_empty st la = Some false → check_page_empty st' la = Some false.
Proof using Hg.
  intros Hinv Hev Htr Hla Hw.
  destruct (decide (USABLE_SIZE g ≤ logical_address ev)) as [Hout|Hin].
  { unfold translate in Htr. rewrite decide_True in Htr by done.
    by apply mret_Some in Htr as [_ <-]. }
  destruct (ev_type ev) eqn:Hty.
  { rewrite (translate_READ g ev st Hty) in Htr by lia.
    destruct (read_outcome g st (logical_address ev)) as [[a|]|]; [| |done];
      injection Htr as _ <-; exact Hw. }
  all: destruct (address_split g Hg (logical_address ev))
         as (i & p & Hip & Hi & Hp); [lia|].
  all: destruct (inv_cpa g Hg st Hinv i p Hi Hp) as (d & Hd & Hdr & Hpa).
  all: rewrite <- Hip in Hpa.
  all: rewrite (translate_dispatch g ev st _ ltac:(lia) Hpa), Hty in Htr.
  2,3: by apply mret_Some in Htr as [_ <-].
  rewrite (block_mod g d p Hp) in Htr.
  replace (d * BS + p - p) with (d * BS) in Htr by lia.
  rewrite (u64_small (d * BS)) in Htr
    by (pose proof (block_address_range g Hg d 0); lia).
  assert (ftl_inv g (with_start_time st (ev_start_time ev))) as Hinv0.
  { apply (ftl_inv_manifests g st); try done.
    - exact (inv_alloc g st Hinv).
    - intros x l Hl.
      by destruct (inv_log g st Hinv x l Hl) as (_ & _ & _ & ? & _).
    - exact (inv_manifest g st Hinv). }
  rewrite Hip in Htr.
  destruct (translate_write_bits ev (page_of g (d * BS + p) p)
              (with_start_time st (ev_start_time ev)) i p d Hinv0 Hi Hp Hd)
    as (r0 & s0 & Htw & Hbits).
  rewrite Htw in Htr. injection Htr as _ <-.
  destruct Hbits as [Heq|Hset].
  - unfold check_page_empty in *. by rewrite Heq.
  - apply (set_page_written_keeps _ (i * BS + p) s0 la) in Hset;
      [done|lia|lia|exact Hw].
Qed.

(** A written page can be read. *)
Lemma read_written st la :
  ftl_inv g st → 0 ≤ la < USABLE_SIZE g →
  check_page_empty st la = Some false →
  ∃ a, read_outcome g st la = Some (Some a).
Proof using Hg.
  intros Hinv Hla Hw.
  destruct (address_split g Hg la Hla) as (i & p & -> & Hi & Hp).
  destruct (inv_data g st Hinv i Hi) as (d & Hd & Hdr).
  rewrite (read_outcome_block g Hg st i p d Hinv Hi Hp Hd), Hw.
  cbn [mbind option_bind].
  destruct (log_block st d) as [l|] eqn:Hl; [|by eexists].
  destruct (inv_log g st Hinv d l Hl) as (_ & _ & _ & [offs Hoffs] & _).
  rewrite Hoffs. cbn [mbind option_bind].
  destruct (fetch_log_page_defined g Hg offs p) as [r ->];
    [by eapply inv_manifest|].
  cbn [mbind option_bind]. by eexists.
Qed.

End Written_pages.



(** * A write through a full log block *)

Lemma ftl_inv_start_time g st t :
  ftl_inv g st → ftl_inv g (with_start_time st t).
Proof.
  intros Hinv. apply (ftl_inv_manifests g st); try done.
  - exact (inv_alloc g st Hinv).
  - intros x l Hl.
    by destruct (inv_log g st Hinv x l Hl) as (_ & _ & _ & ? & _).
  - exact (inv_manifest g st Hinv).
Qed.



(** * The physical pages handed out *)

Section Device.

Context (g : geometry) (Hg : geometry_ok g).

Local Abbreviation BS := (BLOCK_SIZE g).
Local Abbreviation NL := (NUM_OF_LGC_B g).
Local Abbreviation NP := (NUM_OF_PHY_B g).
Local Abbreviation CAP := (BLOCK_ERASES g).

Lemma translate_merge_answer (ev : Event) st i p D L :
  ftl_inv g st → 0 ≤ i < NL → 0 ≤ p < BS →
  data_block st i = Some D → log_block st D = Some L →
  (∃ c, arr_get (erase_count st) D = Some c ∧ c < CAP) →
  (∃ c, arr_get (erase_count st) L = Some c ∧ c < CAP) →
  ∃ r st',
    (clean g (i * BS) (D * BS) (L * BS) ≫= λ cleaned,
     if negb cleaned then mret (FAILURE, ev)
     else
       set_manifest (L * BS) (Str.to_string p ++ [Str.comma]) ≫= λ _,
       mret (SUCCESS, set_address ev (page_of g (L * BS) 0))) st
    = Some (r, st')
    ∧ answer_in_device g ev r.
Proof using Hg.
  intros Hinv Hi Hp HD HL HcD HcL.
  destruct (inv_log g st Hinv D L HL) as (HLr & _).
  destruct (clean_gc g Hg st i D L) as [Hclean|(st1 & Hclean & Hgc & Hsame)];
    try done.
  - erewrite bind_eq by exact Hclean. cbn [negb]. eexists _, _.
    split; [reflexivity|]. by left.
  - erewrite bind_eq by exact Hclean. cbn [negb]. unfold set_manifest.
    eexists _, _. split; [reflexivity|]. right. exists L, 0.
    split; [done|]. split; [lia|done].
Qed.

Lemma translate_clean_log_answer (ev : Event) st i p D l :
  ftl_inv g st → 0 ≤ i < NL → 0 ≤ p < BS →
  data_block st i = Some D → log_block st D = Some l →
  (∃ c, arr_get (erase_count st) D = Some c ∧ c < CAP) →
  ∃ r st',
    (reads (λ st, over_erase_limit g st (l * BS)) ≫= λ over_log,
     (if over_log : bool then remap_log_block g (i * BS) (D * BS) (l * BS)
      else mret (l * BS)) ≫= λ log_address',
     if bool_decide (over_log = true ∧ log_address' = D * BS)
     then mret (FAILURE, ev)
     else
       clean g (i * BS) (D * BS) log_address' ≫= λ cleaned,
       if negb cleaned then mret (FAILURE, ev)
       else
         set_manifest log_address' (Str.to_string p ++ [Str.comma]) ≫= λ _,
         mret (SUCCESS, set_address ev (page_of g log_address' 0))) st
    = Some (r, st')
    ∧ answer_in_device g ev r.
Proof using Hg.
  intros Hinv Hi Hp HD Hl HcD.
  destruct (inv_log g st Hinv D l Hl) as (Hlr & _).
  destruct (inv_ec g st Hinv l Hlr) as (cl & Hcl & Hclr).
  erewrite bind_reads by by apply (over_erase_limit_inv g Hg).
  destruct (bool_decide (CAP ≤ cl)) eqn:Hover.
  - apply bool_decide_eq_true in Hover.
    destruct (remap_log_inv g Hg st i D l)
      as [Hfail|(m & st1 & Hremap & Hgc & Hmr & HmD & HD1 & Hl1 & Hcm & HcD1)];
      try done.
    { by exists cl. }
    + erewrite bind_eq by exact Hfail. rewrite bool_decide_true by done.
      eexists _, _. split; [reflexivity|]. by left.
    + erewrite bind_eq by exact Hremap.
      rewrite bool_decide_false
        by (intros [_ Heq%(block_inj g Hg)]; done).
      apply translate_merge_answer; try done.
      * by destruct Hgc.
      * by rewrite HcD1.
  - apply bool_decide_eq_false in Hover. rewrite bind_mret.
    rewrite bool_decide_false by (by intros [? _]).
    apply translate_merge_answer; try done. exists cl. split; [done|lia].
Qed.

Lemma translate_clean_answer (ev : Event) st i p d l :
  ftl_inv g st → 0 ≤ i < NL → 0 ≤ p < BS →
  data_block st i = Some d → log_block st d = Some l →
  ∃ r st',
    translate_clean g ev (i * BS + p) p (d * BS) (l * BS) st = Some (r, st')
    ∧ answer_in_device g ev r.
Proof using Hg.
  intros Hinv Hi Hp Hd Hl. pose proof (NL_le_NP g Hg) as HN.
  pose proof (BLOCK_SIZE_pos g Hg) as HBS.
  destruct (inv_data g st Hinv i Hi) as (d' & Hd' & Hdr).
  rewrite Hd in Hd'. injection Hd' as <-.
  destruct (inv_ec g st Hinv d Hdr) as (cd & Hcd & Hcdr).
  unfold translate_clean.
  replace (u64 (i * BS + p - p)) with (i * BS).
  2:{ replace (i * BS + p - p) with (i * BS + 0) by lia.
      rewrite (u64_page g Hg) by lia. lia. }
  erewrite bind_reads by by apply (over_erase_limit_inv g Hg).
  destruct (bool_decide (CAP ≤ cd)) eqn:Hover.
  - apply bool_decide_eq_true in Hover.
    destruct (remap_data_inv g Hg st i d l)
      as [Hfail|(n & st1 & Hremap & Hgc & Hnr & Hnl & Hd1 & Hl1 & Hcn)];
      try done.
    { by exists cd. }
    + erewrite bind_eq by exact Hfail. rewrite bool_decide_true by done.
      eexists _, _. split; [reflexivity|]. by left.
    + erewrite bind_eq by exact Hremap.
      rewrite bool_decide_false
        by (intros [_ Heq%(block_inj g Hg)]; done).
      apply translate_clean_log_answer; try done. by destruct Hgc.
  - apply bool_decide_eq_false in Hover. rewrite bind_mret.
    rewrite bool_decide_false by (by intros [? _]).
    apply translate_clean_log_answer; try done. exists cd. split; [done|lia].
Qed.

Lemma translate_write_answer (ev : Event) st i p d :
  ftl_inv g st → 0 ≤ i < NL → 0 ≤ p < BS → data_block st i = Some d →
  ∃ r st',
    translate_write g ev (i * BS + p) (page_of g (d * BS) p) p (d * BS) st
    = Some (r, st')
    ∧ answer_in_device g ev r.
Proof using Hg.
  intros Hinv Hi Hp Hd. pose proof (NL_le_NP g Hg) as HN.
  destruct (inv_data g st Hinv i Hi) as (d' & Hd' & Hdr).
  rewrite Hd in Hd'. injection Hd' as <-.
  unfold translate_write.
  destruct (inv_cpe g Hg st Hinv (i * BS + p)) as [e He];
    [by apply (logical_page_range g Hg)|].
  erewrite bind_reads by exact He. destruct e.
  { destruct (set_page_written_inv g Hg st (i * BS + p))
      as (st' & Hset & _); [done|by apply (logical_page_range g Hg)|].
    erewrite bind_writes by exact Hset. eexists _, _.
    split; [reflexivity|]. right. by exists d, p. }
  erewrite bind_reads by by apply (inv_clb0 g Hg st Hinv).
  destruct (log_block st d) as [l|] eqn:Hl; cbn [fmap option_fmap option_map].
  - destruct (inv_log g st Hinv d l Hl) as (Hlr & _ & _ & [offs Hoffs] & _).
    erewrite bind_reads by exact Hoffs.
    destruct (inv_manifest g st Hinv _ _ Hoffs) as (pages & -> & Hpages & Hlen).
    rewrite (bind_reads (λ _, next_free_log_page g (manifest_of pages)) _ st _
               (next_free_manifest g Hg pages Hpages Hlen)).
    case_decide as Hfull.
    + by apply translate_clean_answer.
    + eexists _, _. split; [reflexivity|]. right.
      exists l, (Z.of_nat (length pages)). split; [done|]. split; [lia|done].
  - destruct (next_unmapped_inv g Hg st Hinv)
      as [Hnone|(b & st1 & Hsome & Hfresh & Hgc1)].
    { erewrite bind_eq by exact Hnone. eexists _, _.
      split; [reflexivity|by left]. }
    erewrite bind_eq by exact Hsome.
    destruct Hfresh as (Hbr & _).
    pose proof Hgc1 as (Hinv1 & He1 & _).
    destruct (inv_alloc g st1 Hinv1) as (Ha1 & Ha2 & Ha3 & Ha4).
    pose proof (BLOCK_SIZE_pos g Hg) as HBS.
    erewrite bind_writes by (apply (set_log_block_block g Hg); [lia|done..]).
    unfold insert_manifest at 1.
    destruct (log_to_pages st1 !! (b * BS)) as [old|] eqn:Hold.
    + erewrite bind_eq.
      2:{ cbn [log_to_pages with_data_to_log]. rewrite Hold. reflexivity. }
      eexists _, _. split; [reflexivity|]. right. exists b, 0.
      split; [done|]. split; [lia|done].
    + erewrite bind_eq.
      2:{ cbn [log_to_pages with_data_to_log]. rewrite Hold. reflexivity. }
      eexists _, _. split; [reflexivity|]. right. exists b, 0.
      split; [done|]. split; [lia|done].
Qed.

End Device.



(** * Filling a fresh device *)

Section Fill.

Context (g : geometry) (Hg : geometry_ok g).

Local Abbreviation BS := (BLOCK_SIZE g).
Local Abbreviation NL := (NUM_OF_LGC_B g).
Local Abbreviation NP := (NUM_OF_PHY_B g).

(** The tables that first writes leave alone are those of
    [init_ftl_user]. *)
Lemma untouched_read st la :
  tables_allocated g st →
  logical_to_physical st = logical_to_physical (init_ftl_user g) →
  data_to_log st = data_to_log (init_ftl_user g) →
  0 ≤ la < USABLE_SIZE g →
  check_physical_address g st la = Some la
  ∧ read_outcome g st la
    = (e ← check_page_empty st la;
       Some (if e : bool then None else Some (page_of g la (la mod BS)))).
Proof using Hg.
  intros Halloc Hp Hd Hla. pose proof (NL_le_NP g Hg) as HN.
  pose proof (BLOCK_SIZE_pos g Hg) as HBS.
  destruct (address_split g Hg la Hla) as (i & p & -> & Hi & Hp').
  assert (check_physical_address g st (i * BS + p) = Some (i * BS + p))
    as Hpa.
  { apply (check_physical_address_block g Hg); [done..| |lia].
    unfold data_block. rewrite Hp. cbn [init_ftl_user logical_to_physical].
    rewrite arr_get_replicate by lia. cbn. f_equal. lia. }
  split; [done|].
  unfold read_outcome. rewrite Hpa. cbn [mbind option_bind].
  unfold page_of.
  destruct (map_physical_to_SSD g (i * BS + p))
    as [[[[a1 a2] a3] a4] page] eqn:Hmap.
  pose proof Hmap as Hmap'.
  apply (map_page g) in Hmap' as [-> Hda]; [|done]. rewrite Hda.
  rewrite (u64_small (i * BS))
    by (pose proof (block_address_range g Hg i 0); lia).
  rewrite (block_mod g i p Hp').
  destruct (check_page_empty st (i * BS + p)) as [[|]|]; try done.
  cbn [mbind option_bind].
  unfold check_log_block. rewrite Hd. cbn [init_ftl_user data_to_log].
  rewrite (block_div0 g Hg), s32_small by lia.
  by rewrite arr_get_replicate by lia.
Qed.

Lemma fill_steps evs : ∀ st,
  tables_allocated g st →
  logical_to_physical st = logical_to_physical (init_ftl_user g) →
  Forall (λ ev, ev_type ev = WRITE
                ∧ 0 ≤ logical_address ev < USABLE_SIZE g
                ∧ check_page_empty st (logical_address ev) = Some true) evs →
  NoDup (logical_address <$> evs) →
  ∃ st',
    run_events g evs st
    = Some ((λ ev, (SUCCESS,
                    set_address ev
                      (page_of g (logical_address ev)
                         (logical_address ev mod BS))))
              <$> evs, st')
    ∧ tables_allocated g st'
    ∧ logical_to_physical st' = logical_to_physical st
    ∧ data_to_log st' = data_to_log st
    ∧ log_to_pages st' = log_to_pages st
    ∧ erase_count st' = erase_count st
    ∧ op_blocks st' = op_blocks st
    ∧ issued st' = issued st
    ∧ ∀ la, 0 ≤ la < USABLE_SIZE g →
        check_page_empty st' la
        = if decide (la ∈ logical_address <$> evs) then Some false
          else check_page_empty st la.
Proof using Hg.
  induction evs as [|ev evs IH]; intros st Halloc Hp Hevs Hnd.
  - exists st. split; [done|]. by split_and!.
  - apply Forall_cons in Hevs as [(Hty & Hla & Hemp) Hevs].
    cbn [fmap list_fmap] in Hnd. apply NoDup_cons in Hnd as [Hnotin Hnd].
    destruct (first_write_step g st ev Hg Halloc Hty Hla Hemp)
      as (pa & st1 & Hpa & Htr & Hw1 & Hframe & Hp1 & Hd1 & Hm1 & Hc1 & Ho1
          & Hi1).
    assert (check_physical_address g st (logical_address ev)
            = Some (logical_address ev)) as Hid.
    { destruct (address_split g Hg _ Hla) as (i & p & -> & Hi & Hp').
      pose proof (NL_le_NP g Hg) as HN.
      apply (check_physical_address_block g Hg); [done..| |lia].
      unfold data_block. rewrite Hp. cbn [init_ftl_user logical_to_physical].
      rewrite arr_get_replicate by lia. cbn. f_equal. lia. }
    rewrite Hid in Hpa. injection Hpa as <-.
    assert (tables_allocated g st1) as Halloc1.
    { destruct Halloc as (He & Hc & Hl & Hd). unfold tables_allocated.
      rewrite Hp1, Hd1, Hc1. split; [|done].
      destruct (allocated_word g st (logical_address ev)) as [flag Hflag];
        [unfold geometry_ok in Hg; lia|done|done|].
      rewrite (translate_dispatch g ev st _ ltac:(lia) Hid), Hty in Htr.
      unfold translate_write in Htr.
      rewrite (bind_reads (λ s, check_page_empty s (logical_address ev))
                 _ _ true) in Htr by exact Hemp.
      cbn beta iota in Htr.
      erewrite bind_writes in Htr
        by (apply set_page_written_Some; exact Hflag).
      apply mret_Some in Htr as [_ <-].
      cbn [logical_to_emptiness with_emptiness with_start_time].
      by rewrite length_insert. }
    destruct (IH st1) as (st' & Hrun & Halloc' & Hp' & Hd' & Hm' & Hc' & Ho'
                          & Hi' & Hbits); [done|congruence| |done|].
    { rewrite Forall_forall in Hevs |- *. intros e He.
      destruct (Hevs e He) as (? & ? & ?). split; [done|]. split; [done|].
      rewrite Hframe; [done..|]. intros Heq. apply Hnotin.
      rewrite <- Heq. apply list_elem_of_fmap. by exists e. }
    exists st'. split.
    { apply run_events_cons. eexists _, st1, _. split; [exact Htr|].
      split; [exact Hrun|]. done. }
    split_and!; try congruence.
    intros la Hla'. rewrite Hbits by done.
    cbn [fmap list_fmap].
    destruct (decide (la ∈ logical_address <$> evs)) as [Hin|Hout].
    + rewrite decide_True; [done|]. by right.
    + destruct (decide (la = logical_address ev)) as [->|Hne].
      * rewrite decide_True; [done|]. by left.
      * rewrite decide_False.
        -- by apply Hframe.
        -- intros [?|?]%elem_of_cons; done.
Qed.

End Fill.


